(** * ShmitWare data codec: a shallow embedding and its verification

    The development follows the layout of the C++ sources:
    - [math]    : Core/Math/Memory.hpp       (bit/byte conversions on [size_t])
    - [mem]     : byte buffers reached through [Span<uint8_t>] and raw pointers
    - [detail]  : Core/Data/_Detail/Field.hpp (raw bit transfer)
    - [data]    : Footprint.hpp, Primitives.hpp, Field.hpp, Encode.hpp,
                  Decode.hpp, Packet.hpp and _Detail/Packet.hpp
    - [session] : IO/Session/Ingress.hpp and IO/Session/Egress.hpp
    - [span], [result], [tuple], [string_constant], [numeric], [help] :
      Span.hpp, Result.hpp, _Detail/Tuple.hpp, StringConstant.hpp, the
      numeric helpers of [shmit::math] and Help/RoutineLogic.cpp
    - [timer]   : Time/Timer.hpp             ([BasicTimer])

    Conventions.
    - [size_t] is a 64-bit unsigned integer: a [Z] in [0, 2^64), every
      operation that may overflow is wrapped with [wrap].
    - [uint8_t] is a [Z] in [0, 256); a store truncates with [to_uint8].
    - A buffer is a [list Z] of bytes.  A pointer into it is an index.  An
      access outside the buffer is undefined behaviour in C++; the model returns
      [None] for it, so [Some] results are results of defined executions.
    - Values are held by their object representation (the bytes that
      [reinterpret_cast<uint8_t const*>(&value)] walks over). *)

From Stdlib Require Import ZArith List Bool Lia.
From ITree Require ITree ITreeFacts Events.State Events.StateFacts.
Import ListNotations.
Local Open Scope Z_scope.
#[local] Set Warnings "-register-all".

(** ** size_t arithmetic *)

Definition size_t_bits : Z := 64.
Definition size_t_modulus : Z := 2 ^ size_t_bits.

(** Reduction of an ideal result to its [size_t] representative. *)
Definition wrap (z : Z) : Z := z mod size_t_modulus.

(** [is_size_t z] : [z] is a value of type [size_t]. *)
Definition is_size_t (z : Z) : Prop := 0 <= z < size_t_modulus.

(** Truncation performed when an [int] expression is stored in a [uint8_t]. *)
Definition to_uint8 (z : Z) : Z := z mod 256.

Definition is_uint8 (z : Z) : Prop := 0 <= z < 256.

(** ** Undefined behaviour as [None] *)

Definition obind {A B : Type} (m : option A) (k : A -> option B) : option B :=
  match m with
  | Some a => k a
  | None => None
  end.

Notation "'do' x <- m ; k" := (obind m (fun x => k))
  (at level 10, x pattern, m at level 100, k at level 200).

(** ** Core/Math/Memory.hpp *)

Module math.

(** [num_bytes << 3] on [size_t]. *)
Definition bits_to_contain (num_bytes : Z) : Z :=
  let kMultiplyBy8Shift := 3 in
  wrap (Z.shiftl num_bytes kMultiplyBy8Shift).

Definition bytes_to_contain (num_bits : Z) : Z :=
  let kDivideBy8Shift := 3 in
  let kModulo8Mask := 0x7 in
  let kSizeOverflowsBoundary := negb (Z.land num_bits kModulo8Mask =? 0) in
  let kBaseSizeBytes := Z.shiftr num_bits kDivideBy8Shift in
  wrap (kBaseSizeBytes + (if kSizeOverflowsBoundary then 1 else 0)).

Definition next_boundary_bit_pos (start_bit_pos : Z) : Z :=
  let next_byte_offset := bytes_to_contain start_bit_pos in
  bits_to_contain next_byte_offset.

End math.

(** ** Byte buffers *)

Module mem.

(** [*(p + i)] read through a pointer whose object is [buf]. *)
Definition load (buf : list Z) (i : Z) : option Z :=
  if (0 <=? i) && (i <? Z.of_nat (length buf))
  then nth_error buf (Z.to_nat i) else None.

Fixpoint update (buf : list Z) (n : nat) (v : Z) : list Z :=
  match buf, n with
  | [], _ => []
  | _ :: tl, O => v :: tl
  | hd :: tl, S n' => hd :: update tl n' v
  end.

(** [*(p + i) = v] for a [uint8_t] cell. *)
Definition store (buf : list Z) (i : Z) (v : Z) : option (list Z) :=
  if (0 <=? i) && (i <? Z.of_nat (length buf))
  then Some (update buf (Z.to_nat i) (to_uint8 v)) else None.

(** [std::memcpy(&buf[start], src, n)] where [src] points to an object of
    [length src] bytes. *)
Definition memcpy_to (buf : list Z) (start : Z) (src : list Z) (n : Z) : option (list Z) :=
  if (0 <=? start) && (0 <=? n) && (start + n <=? Z.of_nat (length buf))
     && (n <=? Z.of_nat (length src))
  then Some (firstn (Z.to_nat start) buf ++ firstn (Z.to_nat n) src
             ++ skipn (Z.to_nat (start + n)) buf)
  else None.

(** [std::memcpy(dest, &buf[start], n)] where [dest] points to an object of
    [length dest] bytes. *)
Definition memcpy_from (dest : list Z) (buf : list Z) (start : Z) (n : Z) : option (list Z) :=
  if (0 <=? start) && (0 <=? n) && (start + n <=? Z.of_nat (length buf))
     && (n <=? Z.of_nat (length dest))
  then Some (firstn (Z.to_nat n) (skipn (Z.to_nat start) buf)
             ++ skipn (Z.to_nat n) dest)
  else None.

(** [std::memset(buffer, 0, n)] on a fresh array of [n] bytes. *)
Definition zeroed (n : Z) : list Z := repeat 0 (Z.to_nat n).

End mem.

(** ** Core/Data/_Detail/Field.hpp : raw bit transfer *)

Module detail.

Definition kBitMasks : list Z :=
  [0x00; 0x01; 0x03; 0x07; 0x0F; 0x1F; 0x3F; 0x7F; 0xFF].

(** The [while (size_bits > 0U)] loop of [encode_bits].  [dest] and [src] are
    the current positions of the two pointers in their objects.  Every
    iteration consumes at least one bit, so [fuel = size_bits] iterations are
    always enough (lemma [encode_bits_loop_fuel]). *)
Fixpoint encode_bits_loop (fuel : nat) (buffer : list Z) (dest : Z)
    (value : list Z) (src : Z) (offset_bits kStartByteBitsAvailable size_bits : Z)
    : option (list Z) :=
  match fuel with
  | O => Some buffer
  | S fuel' =>
    if size_bits >? 0 then
      let kFrontBitsThatFit := Z.min kStartByteBitsAvailable size_bits in
      do s <- mem.load value src;
      do front_mask <- mem.load kBitMasks kFrontBitsThatFit;
      do d <- mem.load buffer dest;
      do buffer <- mem.store buffer dest
                     (Z.lor d (Z.shiftl (Z.land s front_mask) offset_bits));
      let dest := dest + 1 in
      let size_bits := size_bits - kFrontBitsThatFit in
      if (offset_bits >? 0) && (size_bits >? 0) then
        let kLeftoverBits := Z.min offset_bits size_bits in
        do leftover_mask <- mem.load kBitMasks kLeftoverBits;
        do buffer <- mem.store buffer dest
                       (Z.land (Z.shiftr s kFrontBitsThatFit) leftover_mask);
        let size_bits := size_bits - kLeftoverBits in
        encode_bits_loop fuel' buffer dest value (src + 1)
                         offset_bits kStartByteBitsAvailable size_bits
      else
        encode_bits_loop fuel' buffer dest value (src + 1)
                         offset_bits kStartByteBitsAvailable size_bits
    else Some buffer
  end.

(** [encode_bits(dest, src, offset_bits, size_bits)] with [dest] the start of
    [buffer] and [src] the start of the object [value]. *)
Definition encode_bits (buffer : list Z) (value : list Z) (offset_bits size_bits : Z)
    : option (list Z) :=
  let kModulo8Mask := 0x7 in
  let kBitsPerByte := math.bits_to_contain 1 in
  let offset_bytes := math.bytes_to_contain offset_bits in
  let offset_bits := Z.land offset_bits kModulo8Mask in
  let offset_bytes :=
    if (offset_bits >? 0) && (offset_bytes >? 0) then offset_bytes - 1 else offset_bytes in
  let dest := 0 + offset_bytes in
  let kStartByteBitsAvailable := kBitsPerByte - offset_bits in
  encode_bits_loop (Z.to_nat size_bits) buffer dest value 0
                   offset_bits kStartByteBitsAvailable size_bits.

(** The loop of [decode_bits]: [value] is the destination object, [buffer] the
    source. *)
Fixpoint decode_bits_loop (fuel : nat) (value : list Z) (dest : Z)
    (buffer : list Z) (src : Z) (offset_bits kStartByteBitsAvailable size_bits : Z)
    : option (list Z) :=
  match fuel with
  | O => Some value
  | S fuel' =>
    if size_bits >? 0 then
      let kFrontBitsThatFit := Z.min kStartByteBitsAvailable size_bits in
      do s <- mem.load buffer src;
      let src := src + 1 in
      do front_mask <- mem.load kBitMasks kFrontBitsThatFit;
      do value <- mem.store value dest (Z.land (Z.shiftr s offset_bits) front_mask);
      let size_bits := size_bits - kFrontBitsThatFit in
      if (offset_bits >? 0) && (size_bits >? 0) then
        let kLeftoverBits := Z.min offset_bits size_bits in
        do s' <- mem.load buffer src;
        do leftover_mask <- mem.load kBitMasks kLeftoverBits;
        do d <- mem.load value dest;
        do value <- mem.store value dest
                      (Z.lor d (Z.shiftl (Z.land s' leftover_mask) kFrontBitsThatFit));
        let size_bits := size_bits - kLeftoverBits in
        decode_bits_loop fuel' value (dest + 1) buffer src
                         offset_bits kStartByteBitsAvailable size_bits
      else
        decode_bits_loop fuel' value (dest + 1) buffer src
                         offset_bits kStartByteBitsAvailable size_bits
    else Some value
  end.

Definition decode_bits (value : list Z) (buffer : list Z) (offset_bits size_bits : Z)
    : option (list Z) :=
  let kModulo8Mask := 0x7 in
  let kBitsPerByte := math.bits_to_contain 1 in
  let offset_bytes := math.bytes_to_contain offset_bits in
  let offset_bits := Z.land offset_bits kModulo8Mask in
  let offset_bytes :=
    if (offset_bits >? 0) && (offset_bytes >? 0) then offset_bytes - 1 else offset_bytes in
  let src := 0 + offset_bytes in
  let kStartByteBitsAvailable := kBitsPerByte - offset_bits in
  decode_bits_loop (Z.to_nat size_bits) value 0 buffer src
                   offset_bits kStartByteBitsAvailable size_bits.

End detail.

(** ** Core/Data : footprints, fields, packets and their codecs *)

Module data.

(** Core/Result.hpp: [BinaryResult] is
    [EnumeratedResult<BinaryResultCode, kSucceeded, kFailed>].  The codec and
    the adapters make their results with [Success()] and [Failure()] and ask
    them with [IsSuccess()] and [IsFailure()] only, so a result is held here
    by the one of the two enumerators it carries.  The class itself, whose
    constructor takes any code, is [result.EnumeratedResult] below;
    [result.of_BinaryResult] gives the object a value here stands for. *)
Inductive BinaryResult : Type :=
| kSuccessCode
| kFailureCode.

Definition Success : BinaryResult := kSuccessCode.
Definition Failure : BinaryResult := kFailureCode.

Definition IsSuccess (r : BinaryResult) : bool :=
  match r with kSuccessCode => true | kFailureCode => false end.

Definition IsFailure (r : BinaryResult) : bool :=
  match r with kSuccessCode => false | kFailureCode => true end.

(** [Span<uint8_t>::size()] : [footprint_size_bytes_v<uint8_t> * m_count]. *)
Definition Span_size (buffer : list Z) : Z :=
  wrap (1 * Z.of_nat (length buffer)).

(** [system::Fundamental::kUnitSizeBits], that is [CHAR_BIT]. *)
Definition kUnitSizeBits : Z := 8.

(** [footprint_size_bits<T>] for an arithmetic or pointer type [T], which the
    model identifies by [sizeof(T)]. *)
Definition footprint_size_bits (sizeof_T : Z) : Z :=
  wrap (sizeof_T * kUnitSizeBits).

Definition footprint_size_bytes (sizeof_T : Z) : Z :=
  math.bytes_to_contain (footprint_size_bits sizeof_T).

Definition check_if_fits (BitSizeV sizeof_T : Z) : bool :=
  BitSizeV <=? footprint_size_bits sizeof_T.

(** [smallest_unsigned<BitSizeV>::type], given by its [sizeof]:
    [uint8_t], [uint16_t], [uint32_t] or [uint64_t]. *)
Definition smallest_unsigned (BitSizeV : Z) : Z :=
  if check_if_fits BitSizeV 1 then 1
  else if check_if_fits BitSizeV 2 then 2
  else if check_if_fits BitSizeV 4 then 4
  else 8.

Definition smallest_signed (BitSizeV : Z) : Z :=
  if check_if_fits BitSizeV 1 then 1
  else if check_if_fits BitSizeV 2 then 2
  else if check_if_fits BitSizeV 4 then 4
  else 8.

(** The closed set of field kinds a [Packet] is made of ([to_field_t]). *)
Inductive field_type : Type :=
| TField (sizeof_T : Z)                 (* Field<T>, T arithmetic or pointer *)
| TBitField (SizeBitsV : Z)             (* BitField<SizeBitsV> *)
| TConstBitField (SizeBitsV : Z)        (* ConstBitField<SizeBitsV> *)
| TPacket (Fields : list field_type).   (* Field<Packet<FieldT...>> *)

(** A field together with its stored [value], kept as object representation.
    [BitField<N>::value_type] is [smallest_unsigned_t<N>] ([bool] for [N = 1]). *)
Inductive field : Type :=
| Field (value : list Z)
| BitField (SizeBitsV : Z) (value : list Z)
| ConstBitField (SizeBitsV : Z) (value : list Z)
| PacketField (m_fields : list field).

Fixpoint type_of (f : field) : field_type :=
  match f with
  | Field value => TField (Z.of_nat (length value))
  | BitField n _ => TBitField n
  | ConstBitField n _ => TConstBitField n
  | PacketField m_fields => TPacket (map type_of m_fields)
  end.

(** [_detail::add_field_size_bits]: the three overloads, selected by the kind
    of the field; [kSizeBits] is the field's own [kSizeBits]. *)
Definition add_field_size_bits (kSizeBits : Z) (aggregate : Z) (t : field_type) : Z :=
  match t with
  | TField _ | TPacket _ =>
      let kAggregateBytes := math.bytes_to_contain aggregate in
      wrap (math.bits_to_contain kAggregateBytes + kSizeBits)
  | TBitField _ | TConstBitField _ =>
      wrap (aggregate + kSizeBits)
  end.

(** [_detail::accumulate_packet_field_size_bits_recursive<IndexV, EndV, PacketT>::Do]
    where [Fields] is the part of the tuple from [IndexV] on. *)
Definition accumulate_packet_field_size_bits_recursive
    (kSizeBits : field_type -> Z) : list field_type -> Z -> Z :=
  fix Do (Fields : list field_type) (aggregate : Z) : Z :=
    match Fields with
    | [] => aggregate
    | FieldT :: rest =>
        let aggregate := add_field_size_bits (kSizeBits FieldT) aggregate FieldT in
        Do rest aggregate
    end.

(** [kSizeBits] of each field kind; for a nested packet it is
    [_detail::packet_size_bits<PacketT>::value]. *)
Fixpoint kSizeBits (t : field_type) : Z :=
  match t with
  | TField sizeof_T => footprint_size_bits sizeof_T
  | TBitField SizeBitsV => SizeBitsV
  | TConstBitField SizeBitsV => SizeBitsV
  | TPacket Fields =>
      let kAccumulatedFieldsSizeBits :=
        accumulate_packet_field_size_bits_recursive kSizeBits Fields 0 in
      math.next_boundary_bit_pos kAccumulatedFieldsSizeBits
  end.

Definition packet_size_bits (Fields : list field_type) : Z :=
  kSizeBits (TPacket Fields).

(** [Packet<FieldT...>::kSizeBytes]. *)
Definition kSizeBytes (Fields : list field_type) : Z :=
  math.bytes_to_contain (packet_size_bits Fields).

Definition kNumFields (Fields : list field_type) : Z :=
  Z.of_nat (length Fields).

(** [footprint_size_bytes_v] of a field or packet type. *)
Definition footprint_size_bytes_of (t : field_type) : Z :=
  math.bytes_to_contain (kSizeBits t).

(** The outcome of an encoder: result code, destination bytes and cursor. *)
Definition encoded : Type := BinaryResult * list Z * Z.

(** The outcome of a decoder: result code, source bytes, cursor and object. *)
Definition decoded (A : Type) : Type := BinaryResult * list Z * Z * A.

(** [encode<T>(obj, buffer, offset_bits)], Encode.hpp. *)
Definition encode_value (obj : list Z) (buffer : list Z) (offset_bits : Z)
    : option encoded :=
  let sizeof_T := Z.of_nat (length obj) in
  let kDataStartByteOffset := math.bytes_to_contain offset_bits in
  let kDataFootprintBytes := footprint_size_bytes sizeof_T in
  if wrap (kDataStartByteOffset + kDataFootprintBytes) >? Span_size buffer
  then Some (Failure, buffer, offset_bits)
  else
    do buffer <- mem.memcpy_to buffer kDataStartByteOffset obj kDataFootprintBytes;
    let offset_bits :=
      wrap (math.bits_to_contain kDataStartByteOffset + footprint_size_bits sizeof_T) in
    Some (Success, buffer, offset_bits).

(** [decode<T>(buffer, offset_bits, obj)], Decode.hpp. *)
Definition decode_value (buffer : list Z) (offset_bits : Z) (obj : list Z)
    : option (decoded (list Z)) :=
  let sizeof_T := Z.of_nat (length obj) in
  let kDataStartByteOffset := math.bytes_to_contain offset_bits in
  let kDataFootprintBytes := footprint_size_bytes sizeof_T in
  if wrap (kDataStartByteOffset + kDataFootprintBytes) >? Span_size buffer
  then Some (Failure, buffer, offset_bits, obj)
  else
    do obj <- mem.memcpy_from obj buffer kDataStartByteOffset kDataFootprintBytes;
    let offset_bits :=
      wrap (math.bits_to_contain kDataStartByteOffset + footprint_size_bits sizeof_T) in
    Some (Success, buffer, offset_bits, obj).

(** [encode(BitField<SizeBitsV> const&, ...)], and, with the same body,
    [encode(ConstBitField<SizeBitsV> const&, ...)]. *)
Definition encode_BitField (SizeBitsV : Z) (value : list Z)
    (buffer : list Z) (offset_bits : Z) : option encoded :=
  let kBufferSizeBits := math.bits_to_contain (Span_size buffer) in
  if wrap (offset_bits + SizeBitsV) >? kBufferSizeBits
  then Some (Failure, buffer, offset_bits)
  else
    do buffer <- detail.encode_bits buffer value offset_bits SizeBitsV;
    let offset_bits := wrap (offset_bits + SizeBitsV) in
    Some (Success, buffer, offset_bits).

Definition encode_ConstBitField (SizeBitsV : Z) (value : list Z)
    (buffer : list Z) (offset_bits : Z) : option encoded :=
  let kBufferSizeBits := math.bits_to_contain (Span_size buffer) in
  if wrap (offset_bits + SizeBitsV) >? kBufferSizeBits
  then Some (Failure, buffer, offset_bits)
  else
    do buffer <- detail.encode_bits buffer value offset_bits SizeBitsV;
    let offset_bits := wrap (offset_bits + SizeBitsV) in
    Some (Success, buffer, offset_bits).

(** [decode(buffer, offset_bits, BitField<SizeBitsV>&)]. *)
Definition decode_BitField (SizeBitsV : Z) (buffer : list Z) (offset_bits : Z)
    (value : list Z) : option (decoded (list Z)) :=
  let kBufferSizeBits := math.bits_to_contain (Span_size buffer) in
  if wrap (offset_bits + SizeBitsV) >? kBufferSizeBits
  then Some (Failure, buffer, offset_bits, value)
  else
    do value <- detail.decode_bits value buffer offset_bits SizeBitsV;
    let offset_bits := wrap (offset_bits + SizeBitsV) in
    Some (Success, buffer, offset_bits, value).

(** [decode(buffer, offset_bits, ConstBitField<SizeBitsV>&)]: neither the
    buffer nor the field is touched. *)
Definition decode_ConstBitField (SizeBitsV : Z) (buffer : list Z) (offset_bits : Z)
    (value : list Z) : option (decoded (list Z)) :=
  let offset_bits := wrap (offset_bits + SizeBitsV) in
  Some (Success, buffer, offset_bits, value).

(** [_detail::encode_packet_fields_recursive<IndexV, EndV, PacketT>::Do];
    [data] is the part of the tuple from [IndexV] on and [encode] the overload
    set applied to [std::get<IndexV>(data)]. *)
Definition encode_packet_fields_recursive
    (encode : field -> list Z -> Z -> option encoded)
    : list field -> list Z -> Z -> option encoded :=
  fix Do (data : list field) (buffer : list Z) (offset_bits : Z) : option encoded :=
    match data with
    | [] => Some (Success, buffer, offset_bits)
    | fld :: rest =>
        do (result, buffer, offset_bits) <- encode fld buffer offset_bits;
        if IsFailure result then Some (result, buffer, offset_bits)
        else Do rest buffer offset_bits
    end.

(** [encode(Packet<FieldT...> const&, buffer, offset_bits)], Packet.hpp, over
    the recursion [Do] on its fields. *)
Definition encode_Packet
    (Do : list field -> list Z -> Z -> option encoded)
    (m_fields : list field) (buffer : list Z) (offset_bits : Z) : option encoded :=
  let kDataStartOffsetBytes := math.bytes_to_contain offset_bits in
  let encode_offset_bits := math.bits_to_contain kDataStartOffsetBytes in
  if wrap (kDataStartOffsetBytes + kSizeBytes (map type_of m_fields)) >? Span_size buffer
  then Some (Failure, buffer, offset_bits)
  else
    do (result, buffer, encode_offset_bits) <- Do m_fields buffer encode_offset_bits;
    let offset_bits :=
      if IsSuccess result then math.next_boundary_bit_pos encode_offset_bits
      else offset_bits in
    Some (result, buffer, offset_bits).

(** The overload set [encode(field, buffer, offset_bits)] as resolved for each
    field kind: [Field<T>] passes through to [encode<T>] or, for a nested
    packet, to the packet encoder. *)
Fixpoint encode (f : field) (buffer : list Z) (offset_bits : Z) : option encoded :=
  match f with
  | Field value => encode_value value buffer offset_bits
  | BitField SizeBitsV value => encode_BitField SizeBitsV value buffer offset_bits
  | ConstBitField SizeBitsV value => encode_ConstBitField SizeBitsV value buffer offset_bits
  | PacketField m_fields =>
      encode_Packet (encode_packet_fields_recursive encode) m_fields buffer offset_bits
  end.

(** [_detail::decode_packet_fields_recursive<IndexV, EndV, PacketT>::Do]. *)
Definition decode_packet_fields_recursive
    (decode : list Z -> Z -> field -> option (decoded field))
    : list Z -> Z -> list field -> option (decoded (list field)) :=
  fix Do (buffer : list Z) (offset_bits : Z) (data : list field)
      : option (decoded (list field)) :=
    match data with
    | [] => Some (Success, buffer, offset_bits, [])
    | fld :: rest =>
        do (result, buffer, offset_bits, fld) <- decode buffer offset_bits fld;
        if IsFailure result then Some (result, buffer, offset_bits, fld :: rest)
        else
          do (result, buffer, offset_bits, rest) <- Do buffer offset_bits rest;
          Some (result, buffer, offset_bits, fld :: rest)
    end.

(** [decode(buffer, offset_bits, Packet<FieldT...>&)], Packet.hpp. *)
Definition decode_Packet
    (Do : list Z -> Z -> list field -> option (decoded (list field)))
    (buffer : list Z) (offset_bits : Z) (m_fields : list field)
    : option (decoded (list field)) :=
  let kDataStartOffsetBytes := math.bytes_to_contain offset_bits in
  let encode_offset_bits := math.bits_to_contain kDataStartOffsetBytes in
  if wrap (kDataStartOffsetBytes + kSizeBytes (map type_of m_fields)) >? Span_size buffer
  then Some (Failure, buffer, offset_bits, m_fields)
  else
    do (result, buffer, encode_offset_bits, m_fields) <-
       Do buffer encode_offset_bits m_fields;
    let offset_bits :=
      if IsSuccess result then math.next_boundary_bit_pos encode_offset_bits
      else offset_bits in
    Some (result, buffer, offset_bits, m_fields).

Fixpoint decode (buffer : list Z) (offset_bits : Z) (f : field) : option (decoded field) :=
  match f with
  | Field value =>
      do (result, buffer, offset_bits, value) <- decode_value buffer offset_bits value;
      Some (result, buffer, offset_bits, Field value)
  | BitField SizeBitsV value =>
      do (result, buffer, offset_bits, value) <-
         decode_BitField SizeBitsV buffer offset_bits value;
      Some (result, buffer, offset_bits, BitField SizeBitsV value)
  | ConstBitField SizeBitsV value =>
      do (result, buffer, offset_bits, value) <-
         decode_ConstBitField SizeBitsV buffer offset_bits value;
      Some (result, buffer, offset_bits, ConstBitField SizeBitsV value)
  | PacketField m_fields =>
      do (result, buffer, offset_bits, m_fields) <-
         decode_Packet (decode_packet_fields_recursive decode) buffer offset_bits m_fields;
      Some (result, buffer, offset_bits, PacketField m_fields)
  end.

(** The two packet-level entry points. *)
Definition encode_packet (packet : list field) (buffer : list Z) (offset_bits : Z)
    : option encoded :=
  encode (PacketField packet) buffer offset_bits.

Definition decode_packet (buffer : list Z) (offset_bits : Z) (packet : list field)
    : option (decoded (list field)) :=
  decode_Packet (decode_packet_fields_recursive decode) buffer offset_bits packet.

End data.

(** ** Core/IO/Session : the typed adapters over a byte session

    [Ingress<T>::Get] and [Egress<T>::Put] talk to their environment: the
    session behind [Inbound]/[Outbound] and the platform clock.  They are
    interaction trees over the calls they make; a call of a virtual method is
    an event whose answer is what the method returns ([Request] also returns
    the bytes it left in the span it was given).  A
    [std::chrono::microseconds] is its count of microseconds. *)

Module session.

Import ITree.ITree.

(** [Inbound]: [InputBytesAvailable()] and [Request(rx, timeout)]. *)
Variant InboundE : Type -> Type :=
| InputBytesAvailable : InboundE Z
| Request (rx : list Z) (timeout : Z) : InboundE (data.BinaryResult * list Z).

(** [Outbound]: [OutputBytesAvailable()] and [Post(tx, timeout)]. *)
Variant OutboundE : Type -> Type :=
| OutputBytesAvailable : OutboundE Z
| Post (tx : list Z) (timeout : Z) : OutboundE data.BinaryResult.

(** [platform::Clock::now().time_since_epoch()], in microseconds. *)
Variant ClockE : Type -> Type :=
| now : ClockE Z.

(** [Ingress<T>::Get(data, timeout)]; [None] is undefined behaviour inside
    the decoder. *)
Definition Get (data : data.field) (timeout : Z)
    : itree InboundE (option (data.BinaryResult * data.field)) :=
  let kDataSizeBytes := data.footprint_size_bytes_of (data.type_of data) in
  ITree.bind (ITree.trigger InputBytesAvailable) (fun available =>
  if available <? kDataSizeBytes then Ret (Some (data.Failure, data))
  else
    let encoded_buffer := mem.zeroed kDataSizeBytes in
    ITree.bind (ITree.trigger (Request encoded_buffer timeout))
      (fun '(request_result, encoded_buffer) =>
    if data.IsFailure request_result then Ret (Some (data.Failure, data))
    else
      let bits_decoded := 0 in
      match data.decode encoded_buffer bits_decoded data with
      | None => Ret None
      | Some (decode_result, _, _, data) =>
          Ret (Some (if data.IsSuccess decode_result
                     then data.Success else data.Failure, data))
      end)).

(** [Ingress<T>::Get(data)]. *)
Definition Get0 (data : data.field)
    : itree InboundE (option (data.BinaryResult * data.field)) :=
  Get data 0.

(** [Egress<T>::Put(data, duration)]. *)
Definition Put (data : data.field) (duration : Z)
    : itree (OutboundE +' ClockE) (option data.BinaryResult) :=
  let kDataSizeBytes := data.footprint_size_bytes_of (data.type_of data) in
  ITree.bind (ITree.trigger (inl1 OutputBytesAvailable)) (fun available =>
  if available <? kDataSizeBytes then Ret (Some data.Failure)
  else
    ITree.bind (ITree.trigger (inr1 now)) (fun start_us =>
    let encoded_buffer := mem.zeroed kDataSizeBytes in
    let bits_encoded := 0 in
    match data.encode data encoded_buffer bits_encoded with
    | None => Ret None
    | Some (encode_result, encoded_buffer, _) =>
        if negb (data.IsSuccess encode_result) then Ret (Some encode_result)
        else
          ITree.bind (ITree.trigger (inr1 now)) (fun encoding_end_us =>
          let encoding_duration := encoding_end_us - start_us in
          let duration :=
            if encoding_duration >? duration then 0
            else duration - encoding_duration in
          ITree.bind (ITree.trigger (inl1 (Post encoded_buffer duration)))
            (fun post_result =>
          Ret (Some (if data.IsSuccess post_result
                     then data.Success else data.Failure))))
    end)).

(** [Egress<T>::Put(data)]. *)
Definition Put0 (data : data.field) : itree (OutboundE +' ClockE) (option data.BinaryResult) :=
  Put data 0.

(** *** Sessions to run the adapters against

    Any deterministic session: a state, what it reports as available and how
    it answers a transfer.  Running an adapter against it also records the
    transfers that were asked for, as a test double does. *)

Record Inbound (St : Type) : Type := {
  inbound_available : St -> Z;
  inbound_request : list Z -> Z -> St -> St * (data.BinaryResult * list Z)
}.

Record Outbound (St : Type) : Type := {
  outbound_available : St -> Z;
  outbound_post : list Z -> Z -> St -> St * data.BinaryResult
}.

Arguments inbound_available {St}.
Arguments inbound_request {St}.
Arguments outbound_available {St}.
Arguments outbound_post {St}.

(** A recorded transfer: the bytes of the span and the timeout. *)
Definition call : Type := list Z * Z.

Definition run_inbound {St : Type} (I : Inbound St)
    : InboundE ~> Monads.stateT (St * list call) (itree void1) :=
  fun T e '(s, calls) =>
    match e in InboundE T return itree void1 ((St * list call) * T) with
    | InputBytesAvailable => Ret ((s, calls), inbound_available I s)
    | Request rx timeout =>
        let '(s', answer) := inbound_request I rx timeout s in
        Ret ((s', calls ++ [(rx, timeout)]), answer)
    end.

(** The environment of [Put]: the session, the number of clock readings
    taken so far and the recorded [Post] calls; [clock k] is the [k]-th
    reading. *)
Definition run_outbound {St : Type} (O : Outbound St) (clock : nat -> Z)
    : (OutboundE +' ClockE) ~> Monads.stateT (St * nat * list call) (itree void1) :=
  fun T e '(s, ticks, calls) =>
    match e with
    | inl1 o =>
        match o in OutboundE T return itree void1 ((St * nat * list call) * T) with
        | OutputBytesAvailable => Ret ((s, ticks, calls), outbound_available O s)
        | Post tx timeout =>
            let '(s', answer) := outbound_post O tx timeout s in
            Ret ((s', ticks, calls ++ [(tx, timeout)]), answer)
        end
    | inr1 k =>
        match k in ClockE T return itree void1 ((St * nat * list call) * T) with
        | now => Ret ((s, S ticks, calls), clock ticks)
        end
    end.

End session.

Import data.

(** * Specification vocabulary *)

(** The ceiling of [z / 8]. *)
Definition ceil8 (z : Z) : Z := (z + 7) / 8.

(** A span whose size in bits is representable in [size_t]; every buffer the
    codec can be handed satisfies it (the bit-field guards compute
    [bits_to_contain(buffer.size())]). *)
Definition span_ok (buffer : list Z) : Prop :=
  8 * Z.of_nat (length buffer) < size_t_modulus.

(** All cells hold [uint8_t] values. *)
Definition bytes_ok (buf : list Z) : Prop := Forall is_uint8 buf.

(** Bit [j] of a byte sequence read as a bit stream: bit [j mod 8] of byte
    [j / 8], bit 0 being the least significant. *)
Definition bit (buf : list Z) (j : Z) : bool :=
  Z.testbit (nth (Z.to_nat (j / 8)) buf 0) (j mod 8).

(** Every bit of the stream from position [c] on is clear. *)
Definition zero_from (buf : list Z) (c : Z) : Prop :=
  forall j, c <= j -> bit buf j = false.

(** [bits_written b0 b p w value q]: [b] is [b0] below stream position [p],
    holds the [w] bits of [value] that start at its bit [q] from [p] on, and is
    clear after them. *)
Definition bits_written (b0 b : list Z) (p w : Z) (value : list Z) (q : Z) : Prop :=
  forall j, 0 <= j ->
    bit b j = if j <? p then bit b0 j
              else if j <? p + w then bit value (q + (j - p))
              else false.

(** [bits_fetched v0 v dest w buffer p]: the cells of [v] from [dest] on that
    are needed for [w] bits hold the [w] bits of [buffer] that start at stream
    position [p], padded with clear bits; every other cell is as in [v0]. *)
Definition bits_fetched (v0 v : list Z) (dest w : Z) (buffer : list Z) (p : Z) : Prop :=
  forall j, 0 <= j ->
    bit v j = if (8 * dest <=? j) && (j <? 8 * (dest + ceil8 w))
              then (if j <? 8 * dest + w then bit buffer (p + (j - 8 * dest)) else false)
              else bit v0 j.

(** *** Layout, in the words of section 4.6 of the specification

    These definitions follow the specification's text, on unbounded
    integers; they are compared with the constants the code computes
    ([kSizeBits], [kSizeBytes]) and with the cursors it returns. *)

(** Cursor after a field of [size] bits and kind [t] placed at cursor [c]:
    an aligned field or a nested packet is pre-aligned, a bit field is not. *)
Definition end_of (size c : Z) (t : field_type) : Z :=
  match t with
  | TField _ | TPacket _ => 8 * ceil8 c + size
  | TBitField _ | TConstBitField _ => c + size
  end.

(** The fold of the contributions of a field list starting from cursor [c]. *)
Definition layout (size : field_type -> Z) : list field_type -> Z -> Z :=
  fix go (ts : list field_type) (c : Z) : Z :=
    match ts with
    | [] => c
    | t :: rest => go rest (end_of (size t) c t)
    end.

(** [size_in_bits]: native footprint, declared width, or, for a packet, the
    next byte boundary of the fold from 0. *)
Fixpoint size_in_bits (t : field_type) : Z :=
  match t with
  | TField sizeof_T => 8 * sizeof_T
  | TBitField n => n
  | TConstBitField n => n
  | TPacket ts => 8 * ceil8 (layout size_in_bits ts 0)
  end.

Definition size_in_bytes (t : field_type) : Z := ceil8 (size_in_bits t).

(** Cursor after the field [f] placed at cursor [c]. *)
Definition next_cursor (c : Z) (f : field) : Z :=
  end_of (size_in_bits (type_of f)) c (type_of f).

(** *** Well-formed schemas and values *)

(** Types the templates accept: [sizeof(T) >= 1] and a bit width the
    [static_assert] of [smallest_unsigned] accepts. *)
Fixpoint wf_type (t : field_type) : bool :=
  match t with
  | TField sizeof_T => 1 <=? sizeof_T
  | TBitField n => (0 <=? n) && (n <=? 64)
  | TConstBitField n => (0 <=? n) && (n <=? 64)
  | TPacket ts => forallb wf_type ts
  end.

(** A schema whose size constant does not overflow [size_t]. *)
Definition schema_ok (t : field_type) : Prop :=
  wf_type t = true /\ size_in_bits t < size_t_modulus.

Definition is_uint8b (v : Z) : bool := (0 <=? v) && (v <? 256).

(** A value whose storage is the object representation of its type: bytes,
    and as many of them as [sizeof(value_type)]. *)
Fixpoint wf_field (f : field) : bool :=
  match f with
  | Field value =>
      (1 <=? Z.of_nat (length value)) && forallb is_uint8b value
  | BitField n value =>
      (0 <=? n) && (n <=? 64)
      && (Z.of_nat (length value) =? smallest_unsigned n) && forallb is_uint8b value
  | ConstBitField n value =>
      (0 <=? n) && (n <=? 64)
      && (Z.of_nat (length value) =? smallest_unsigned n) && forallb is_uint8b value
  | PacketField m_fields => forallb wf_field m_fields
  end.

(** The stream positions [n], [n + 1], ... below [8 * length value]. *)
Definition positions_from (n : Z) (value : list Z) : list Z :=
  map (fun k => n + Z.of_nat k) (seq 0 (Z.to_nat (8 * Z.of_nat (length value) - n))).

(** Every bit of [value] from position [n] on is clear. *)
Definition clear_from (n : Z) (value : list Z) : bool :=
  forallb (fun j => negb (bit value j)) (positions_from n value).

(** The stored value of every [BitField<N>] is below [2 ^ N] (read in the
    cell order the encoder walks). *)
Fixpoint fits (f : field) : bool :=
  match f with
  | Field _ => true
  | BitField n value => clear_from n value
  | ConstBitField _ _ => true
  | PacketField m_fields => forallb fits m_fields
  end.

(** The cells of every [BitField<N>] that the decoder does not write, those
    from cell [ceil (N / 8)] on, are clear: a value-initialised packet. *)
Fixpoint blank_above (f : field) : bool :=
  match f with
  | Field _ => true
  | BitField n value => clear_from (8 * ceil8 n) value
  | ConstBitField _ _ => true
  | PacketField m_fields => forallb blank_above m_fields
  end.

(** Equality of field values, [ConstBitField] values being left out. *)
Definition same_fields (same : field -> field -> Prop) : list field -> list field -> Prop :=
  fix go (l l' : list field) : Prop :=
    match l, l' with
    | [], [] => True
    | f :: r, f' :: r' => same f f' /\ go r r'
    | _, _ => False
    end.

Fixpoint same_value (f f' : field) : Prop :=
  match f, f' with
  | Field v, Field v' => v = v'
  | BitField n v, BitField n' v' => n = n' /\ v = v'
  | ConstBitField n _, ConstBitField n' _ => n = n'
  | PacketField l, PacketField l' => same_fields same_value l l'
  | _, _ => False
  end.

(** The [ConstBitField] values of a field, in declaration order, nested
    packets included. *)
Fixpoint const_values (f : field) : list (list Z) :=
  match f with
  | Field _ => []
  | BitField _ _ => []
  | ConstBitField _ value => [value]
  | PacketField m_fields => flat_map const_values m_fields
  end.

(** [holds buf c f]: the stream [buf] carries the field [f] at cursor [c],
    laid out as section 4.6 prescribes. *)
Definition holds_fields (holds : list Z -> Z -> field -> Prop)
    : list Z -> Z -> list field -> Prop :=
  fix go (buf : list Z) (c : Z) (fs : list field) : Prop :=
    match fs with
    | [] => True
    | f :: rest => holds buf c f /\ go buf (next_cursor c f) rest
    end.

Fixpoint holds (buf : list Z) (c : Z) (f : field) : Prop :=
  match f with
  | Field value =>
      forall j, 0 <= j < 8 * Z.of_nat (length value) ->
                bit buf (8 * ceil8 c + j) = bit value j
  | BitField n value =>
      forall j, 0 <= j < n -> bit buf (c + j) = bit value j
  | ConstBitField n value =>
      forall j, 0 <= j < n -> bit buf (c + j) = bit value j
  | PacketField m_fields => holds_fields holds buf (8 * ceil8 c) m_fields
  end.

(** What an encoder leaves behind when it is run at cursor [c] on a buffer
    that is clear from [c] on: everything below [c] is kept, the stream is
    clear again from the new cursor [next] on, and [content] describes the bits
    in between. *)
Definition encode_post (buffer b' : list Z) (c next : Z) (content : Prop) : Prop :=
  length b' = length buffer /\ bytes_ok b' /\
  (zero_from buffer c ->
   (forall j, 0 <= j < c -> bit b' j = bit buffer j) /\ zero_from b' next /\ content).

(** [f] is encoded successfully wherever it fits, and lands where the
    specification's layout puts it. *)
Definition encodes_well (f : field) : Prop :=
  forall buffer c,
    span_ok buffer -> bytes_ok buffer -> 0 <= c ->
    next_cursor c f <= 8 * Z.of_nat (length buffer) ->
    exists b',
      encode f buffer c = Some (Success, b', next_cursor c f) /\
      encode_post buffer b' c (next_cursor c f) (holds b' c f).

(** [fetched buffer c f0 f']: [f'] is what a decoder makes of the object [f0]
    when it reads the stream [buffer] at cursor [c], described bit by bit. *)
Definition fetched_fields (fetched : list Z -> Z -> field -> field -> Prop)
    : list Z -> Z -> list field -> list field -> Prop :=
  fix go (buffer : list Z) (c : Z) (l0 l' : list field) : Prop :=
    match l0, l' with
    | [], [] => True
    | f0 :: r0, f' :: r' =>
        fetched buffer c f0 f' /\ go buffer (next_cursor c f0) r0 r'
    | _, _ => False
    end.

Fixpoint fetched (buffer : list Z) (c : Z) (f0 f' : field) : Prop :=
  match f0, f' with
  | Field v0, Field v' =>
      length v' = length v0 /\ (bytes_ok buffer -> bytes_ok v') /\
      forall j, 0 <= j < 8 * Z.of_nat (length v0) ->
                bit v' j = bit buffer (8 * ceil8 c + j)
  | BitField n v0, BitField n' v' =>
      n' = n /\ length v' = length v0 /\ bytes_ok v' /\
      bits_fetched v0 v' 0 n buffer c
  | ConstBitField n v0, ConstBitField n' v' => n' = n /\ v' = v0
  | PacketField l0, PacketField l' =>
      fetched_fields fetched buffer (8 * ceil8 c) l0 l'
  | _, _ => False
  end.

(** [f0] is decoded successfully wherever a field of its type fits. *)
Definition decodes_well (f0 : field) : Prop :=
  forall buffer c,
    span_ok buffer -> 0 <= c ->
    next_cursor c f0 <= 8 * Z.of_nat (length buffer) ->
    exists f',
      decode buffer c f0 = Some (Success, buffer, next_cursor c f0, f') /\
      type_of f' = type_of f0 /\
      const_values f' = const_values f0 /\
      fetched buffer c f0 f'.

(** [const_kept f f']: [f'] has the shape of [f] and every [ConstBitField]
    of [f'] holds the value it holds in [f]. *)
Fixpoint const_kept (f f' : field) : Prop :=
  match f, f' with
  | Field _, Field _ => True
  | BitField n _, BitField n' _ => n = n'
  | ConstBitField n v, ConstBitField n' v' => n = n' /\ v = v'
  | PacketField l, PacketField l' => same_fields const_kept l l'
  | _, _ => False
  end.

(** Packets made of [BitField] and [ConstBitField] only. *)
Definition bit_level (f : field) : bool :=
  match f with
  | BitField _ _ | ConstBitField _ _ => true
  | Field _ | PacketField _ => false
  end.

(** Width and storage of a bit-level field. *)
Definition width (f : field) : Z :=
  match f with
  | BitField n _ | ConstBitField n _ => n
  | Field _ | PacketField _ => 0
  end.

Definition storage (f : field) : list Z :=
  match f with
  | Field value | BitField _ value | ConstBitField _ value => value
  | PacketField _ => []
  end.

Definition total_width (fs : list field) : Z :=
  fold_right (fun f acc => width f + acc) 0 fs.

(** The specification's packing of bit-level fields: each field is handed to
    the raw bit transfer at the cursor where the previous one ended. *)
Fixpoint place_bits (fs : list field) (buffer : list Z) (c : Z) : option (list Z) :=
  match fs with
  | [] => Some buffer
  | f :: rest =>
      do buffer <- detail.encode_bits buffer (storage f) c (width f);
      place_bits rest buffer (c + width f)
  end.

(** The stream carries the fields back to back from cursor [c] on. *)
Fixpoint packed_at (buf : list Z) (c : Z) (fs : list field) : Prop :=
  match fs with
  | [] => True
  | f :: rest =>
      (forall j, 0 <= j < width f -> bit buf (c + j) = bit (storage f) j)
      /\ packed_at buf (c + width f) rest
  end.

(** Packets made of [BitField] only. *)
Definition is_BitField (f : field) : bool :=
  match f with
  | BitField _ _ => true
  | Field _ | ConstBitField _ _ | PacketField _ => false
  end.

(** * More of the sources

    The parts of the library around the codec: the view type the codec is
    handed ([Span]), the result envelope, field access on packets, the tuple
    helper next to the bit transfer, and the numeric helpers of
    [shmit::math]. *)

(** ** Core/Span.hpp *)

Module span.

(** A [Span<T>] over an array: [m_data] is the position, in that array, of the
    element the pointer designates, [m_count] the number of elements.
    Dereferencing a position outside the array is undefined behaviour and
    gives [None]. *)
Record Span : Type := { m_data : Z; m_count : Z }.

(** [npos], that is [std::numeric_limits<size_type>::max()]. *)
Definition npos : Z := size_t_modulus - 1.

(** [Span(pointer start, size_type count)]. *)
Definition from_count (start count : Z) : Span :=
  {| m_data := start; m_count := count |}.

(** [Span(iterator start, iterator end)]: the count is
    [static_cast<size_type>(end - start)]. *)
Definition from_range (start end_ : Z) : Span :=
  {| m_data := start; m_count := wrap (end_ - start) |}.

(** [Span(element_type (&arr)[N])]. *)
Definition from_array {A : Type} (arr : list A) : Span :=
  {| m_data := 0; m_count := Z.of_nat (length arr) |}.

(** [*(p)] for a pointer at position [p] of [arr]. *)
Definition deref {A : Type} (arr : list A) (p : Z) : option A :=
  if (0 <=? p) && (p <? Z.of_nat (length arr)) then nth_error arr (Z.to_nat p) else None.

(** [at(i)] and [operator[](i)]: [*(m_data + i)]. *)
Definition at_ {A : Type} (arr : list A) (s : Span) (i : Z) : option A :=
  deref arr (m_data s + i).

Definition index {A : Type} (arr : list A) (s : Span) (i : Z) : option A :=
  at_ arr s i.

(** [front()] is [*m_data], [back()] is [*(m_data + m_count - 1U)]. *)
Definition front {A : Type} (arr : list A) (s : Span) : option A :=
  deref arr (m_data s).


(** [begin()] and [end()], as positions. *)
Definition begin (s : Span) : Z := m_data s.
Definition end_ (s : Span) : Z := m_data s + m_count s.

Definition data (s : Span) : Z := m_data s.
Definition count (s : Span) : Z := m_count s.

(** [size()]: [data::footprint_size_bytes_v<T> * m_count], a size in bytes. *)
Definition size (sizeof_T : Z) (s : Span) : Z :=
  wrap (footprint_size_bytes sizeof_T * m_count s).

(** [subspan(start, count = npos)]. *)
Definition subspan (s : Span) (start count : Z) : Span :=
  let count :=
    if (count =? npos) || (wrap (start + count) >? m_count s)
    then wrap (m_count s - start)
    else count in
  from_count (m_data s + start) count.

(** [span_cast<ValueTypeOut>(span)]: the same pointer and count. *)
Definition span_cast (s : Span) : Span :=
  from_count (m_data s) (m_count s).

(** The elements a span designates, when all of them lie in the array. *)
Definition view {A : Type} (arr : list A) (s : Span) : list A :=
  firstn (Z.to_nat (m_count s)) (skipn (Z.to_nat (m_data s)) arr).

(** The span lies within the array. *)
Definition within {A : Type} (arr : list A) (s : Span) : Prop :=
  0 <= m_data s /\ 0 <= m_count s /\ m_data s + m_count s <= Z.of_nat (length arr).

(** The test helper [byte_spans_match(span1, span2)] of Test/Source/Data/Help.hpp,
    [true] standing for [AssertionSuccess()]: the loop
    [for (i = 0; i < span1.count(); i++)] from position [i]. *)
Fixpoint byte_spans_match_loop (fuel : nat) (arr1 : list Z) (span1 : Span)
    (arr2 : list Z) (span2 : Span) (i : Z) : option bool :=
  match fuel with
  | O => Some true
  | S fuel' =>
      if i <? count span1 then
        do b1 <- index arr1 span1 i;
        do b2 <- index arr2 span2 i;
        if negb (b1 =? b2) then Some false
        else byte_spans_match_loop fuel' arr1 span1 arr2 span2 (wrap (i + 1))
      else Some true
  end.

Definition byte_spans_match (arr1 : list Z) (span1 : Span)
    (arr2 : list Z) (span2 : Span) : option bool :=
  if negb (count span1 =? count span2) then Some false
  else byte_spans_match_loop (Z.to_nat (count span1)) arr1 span1 arr2 span2 0.

End span.

(** ** Core/Result.hpp *)

Module result.

(** [EnumeratedResult<EnumT, SuccessV, FailureV>]: the enumerators are given
    by their underlying values. *)
Record EnumeratedResult : Type := { m_code : Z }.

Section Poles.

Variables SuccessV FailureV : Z.

Definition kFailureCode : Z := FailureV.
Definition kSuccessCode : Z := SuccessV.

Definition Failure : EnumeratedResult := {| m_code := kFailureCode |}.
Definition Success : EnumeratedResult := {| m_code := kSuccessCode |}.

Definition IsFailure (r : EnumeratedResult) : bool := m_code r =? kFailureCode.
Definition IsSuccess (r : EnumeratedResult) : bool := m_code r =? kSuccessCode.

End Poles.

(** [operator Code()] and [operator Underlying()]. *)
Definition to_Code (r : EnumeratedResult) : Z := m_code r.
Definition to_Underlying (r : EnumeratedResult) : Z := m_code r.

(** [operator==] and [operator!=], against a result and against a code. *)
Definition eq (r rhs : EnumeratedResult) : bool := m_code r =? m_code rhs.
Definition eq_code (r : EnumeratedResult) (rhs : Z) : bool := m_code r =? rhs.
Definition ne (r rhs : EnumeratedResult) : bool := negb (eq r rhs).
Definition ne_code (r : EnumeratedResult) (rhs : Z) : bool := negb (eq_code r rhs).

(** [enum class BinaryResultCode : uint8_t]. *)
Definition kFailed : Z := 0.
Definition kSucceeded : Z := 1.

(** [BinaryResult] is [EnumeratedResult<BinaryResultCode, kSucceeded, kFailed>];
    the codec's two-valued [data.BinaryResult] holds one of its two
    enumerators. *)
Definition of_BinaryResult (r : data.BinaryResult) : EnumeratedResult :=
  match r with
  | data.kSuccessCode => Success kSucceeded
  | data.kFailureCode => Failure kFailed
  end.

End result.

(** ** Field access: [packet_field_value<IndexV>] of Packet.hpp *)

(** What [field.value] is: the object representation of an arithmetic value,
    or, for [Field<Packet<...>>], the nested packet. *)
Inductive stored_value : Type :=
| Bytes (obj : list Z)
| Nested (m_fields : list field).

Definition value_of (f : field) : stored_value :=
  match f with
  | Field v | BitField _ v | ConstBitField _ v => Bytes v
  | PacketField m_fields => Nested m_fields
  end.

(** [packet_field_value<IndexV>(packet)]: [std::get<IndexV>(packet.m_fields).value].
    An index that is not below [kNumFields] is rejected by the [static_assert]
    of [fetch_packet_field_type_info]; the model has [None] for it. *)
Definition packet_field_value (IndexV : nat) (packet : list field) : option stored_value :=
  match nth_error packet IndexV with
  | Some fld => Some (value_of fld)
  | None => None
  end.

(** ** Core/Data/_Detail/Tuple.hpp *)

Module tuple.

Section Purge.

(** Types, the test whether two of them are the same type, and
    [std::is_default_constructible]. *)
Context {T : Type} (same : T -> T -> bool) (default_constructible : T -> bool).

(** [remove_type_from_tuple_recursive<std::tuple<...>, ToRemoveT>::type]: the
    three specialisations, the one for a matching head being the more
    specialised.  The last one forms its type as
    [decltype(std::tuple_cat(std::tuple<FirstT> {}, rest {}))]: both tuples
    are value-initialised, which is ill-formed unless the types they hold are
    default-constructible ([ConstBitField<N>], with its const member, is
    not); the model has [None] for a program that does not compile. *)
Fixpoint remove_type_from_tuple_recursive (TupleT : list T) (ToRemoveT : T)
    : option (list T) :=
  match TupleT with
  | [] => Some []
  | FirstT :: RestT =>
      if same FirstT ToRemoveT
      then remove_type_from_tuple_recursive RestT ToRemoveT
      else
        do rest <- remove_type_from_tuple_recursive RestT ToRemoveT;
        if default_constructible FirstT && forallb default_constructible rest
        then Some ([FirstT] ++ rest)
        else None
  end.

(** [purge_tuple_t<TupleT, ToPurgeT>]. *)
Definition purge_tuple (TupleT : list T) (ToPurgeT : T) : option (list T) :=
  remove_type_from_tuple_recursive TupleT ToPurgeT.

End Purge.

End tuple.

(** ** shmit::math::abs and shmit::math::gcd *)

Module numeric.

(** An integral type [T] no narrower than [int]: its signedness and width.
    Arithmetic on a signed type that leaves its range is undefined behaviour
    ([None]); on an unsigned type it wraps. *)
Record int_type : Type := { is_signed : bool; bits : Z }.

Definition min_of (T : int_type) : Z :=
  if is_signed T then - 2 ^ (bits T - 1) else 0.

Definition max_of (T : int_type) : Z :=
  if is_signed T then 2 ^ (bits T - 1) - 1 else 2 ^ bits T - 1.

Definition in_range (T : int_type) (v : Z) : bool :=
  (min_of T <=? v) && (v <=? max_of T).

(** The value of an arithmetic expression of type [T] whose ideal result
    is [v]. *)
Definition arith (T : int_type) (v : Z) : option Z :=
  if is_signed T then (if in_range T v then Some v else None)
  else Some (v mod 2 ^ bits T).

(** [a % b]: undefined for [b == 0] and when the quotient is not
    representable. *)
Definition rem (T : int_type) (a b : Z) : option Z :=
  if b =? 0 then None
  else if is_signed T && (a =? min_of T) && (b =? -1) then None
  else Some (Z.rem a b).

(** [abs<T>(value)], with [R = T]. *)
Definition abs (T : int_type) (value : Z) : option Z :=
  if is_signed T then
    let result := value in
    do result <- (if value <? 0 then arith T (result * -1) else Some result);
    Some result
  else Some value.

(** The [while (remainder > 0)] loop of [gcd]; the remainder decreases
    at every turn, [None] is returned when [fuel] runs out. *)
Fixpoint gcd_loop (T : int_type) (fuel : nat) (a b remainder : Z) : option Z :=
  match fuel with
  | O => None
  | S fuel' =>
      if remainder >? 0 then
        let a := b in
        let b := remainder in
        do r <- rem T a b;
        do remainder <- abs T r;
        gcd_loop T fuel' a b remainder
      else Some b
  end.

(** [gcd<T>(a, b)]: the returned [b] is converted to [size_t]. *)
Definition gcd (T : int_type) (a b : Z) : option Z :=
  do r <- rem T a b;
  do remainder <- abs T r;
  do b <- gcd_loop T (S (Z.to_nat remainder)) a b remainder;
  Some (wrap b).

End numeric.

(** ** Core/Help/RoutineLogic.cpp *)

Module help.

Import ITree.ITree.

(** A call of the [RepeatableCheck] that was passed in. *)
Variant CheckE : Type -> Type :=
| condition : CheckE bool.

(** [WaitForPassCondition(condition)]: [do { ... } while (!condition_passed)]. *)
Definition WaitForPassCondition : itree CheckE unit :=
  ITree.iter (fun _ : unit =>
    ITree.bind (ITree.trigger condition) (fun condition_passed =>
    if negb condition_passed then Ret (inl tt) else Ret (inr tt))) tt.

(** [BlockOnPassCondition(condition)] passes to [WaitForPassCondition]. *)
Definition BlockOnPassCondition : itree CheckE unit :=
  WaitForPassCondition.

(** A check whose answer depends on how often it has been asked. *)
Definition run_check (answer : nat -> bool)
    : CheckE ~> Monads.stateT nat (itree void1) :=
  fun T e asked =>
    match e in CheckE T return itree void1 (nat * T) with
    | condition => Ret (S asked, answer asked)
    end.

End help.

(** ** Core/StringConstant.hpp *)

Module string_constant.

(** A [StringConstant<CharT, Chars...>] is given by its characters, each by
    its code.  [kData] is the array [{Chars..., '\0'}] and [value] the view of
    all [kDataSize] elements of it, the terminator included. *)
Definition kDataSize (Chars : list Z) : Z := wrap (Z.of_nat (length Chars) + 1).
Definition kData (Chars : list Z) : list Z := Chars ++ [0].
Definition value (Chars : list Z) : list Z := kData Chars.

(** [detail::concatenate_raw_string_constants<String1T, String2T>]. *)
Definition concatenate_raw_string_constants (Chars1 Chars2 : list Z) : list Z :=
  Chars1 ++ Chars2.

(** [filter_out_null_character<StringT>]. *)
Fixpoint filter_out_null_character (StringT : list Z) : list Z :=
  match StringT with
  | [] => []
  | Head :: Tail =>
      let FilteredTail := filter_out_null_character Tail in
      if Head =? 0 then FilteredTail
      else concatenate_raw_string_constants [Head] FilteredTail
  end.

(** [concatenate_string_constants<StringConstants...>]: the primary template
    is only declared, so an empty pack has no [type] ([None]). *)
Fixpoint concatenate_string_constants (StringConstants : list (list Z)) : option (list Z) :=
  match StringConstants with
  | [] => None
  | [StringT] => Some StringT
  | StringT :: RestT =>
      do rest <- concatenate_string_constants RestT;
      let ConcatenatedString := concatenate_raw_string_constants StringT rest in
      Some (filter_out_null_character ConcatenatedString)
  end.

(** [value[I]] in a constant expression: an index outside the view is not a
    constant expression and the program is ill-formed ([None]). *)
Definition char_at (view : list Z) (I : nat) : option Z := nth_error view I.

(** [detail::string_compare<I, String1T, String2T>::type]; both arguments
    of [std::conditional] are instantiated. *)
Fixpoint detail_string_compare (I : nat) (value1 value2 : list Z) : option bool :=
  match I with
  | O =>
      do c1 <- char_at value1 0;
      do c2 <- char_at value2 0;
      Some (if c1 =? c2 then true else false)
  | S I' =>
      do c1 <- char_at value1 I;
      do c2 <- char_at value2 I;
      do rest <- detail_string_compare I' value1 value2;
      Some (if c1 =? c2 then rest else false)
  end.

(** [string_compare<String1T, String2T>::value]. *)
Definition string_compare (String1T String2T : list Z) : option bool :=
  let value1 := value String1T in
  let value2 := value String2T in
  do inner <- detail_string_compare (length value1 - 1) value1 value2;
  Some (if Nat.eqb (length value1) (length value2) then inner else false).

End string_constant.

(** ** Time/Timer.hpp : [BasicTimer<Clock>] *)

Module timer.

Import ITree.ITree.


Section Clock.

Variable ns_per_tick : Z.







End Clock.


End timer.

(** * Verification *)

(** ** Arithmetic on [size_t] *)

Section SizeArithmetic.

Lemma size_t_modulus_eq : size_t_modulus = 18446744073709551616.
Proof. reflexivity. Qed.

Lemma wrap_small z : is_size_t z -> wrap z = z.
Proof. unfold wrap, is_size_t. intros H. apply Z.mod_small. exact H. Qed.

Lemma wrap_is_size_t z : is_size_t (wrap z).
Proof.
  unfold wrap, is_size_t. apply Z.mod_pos_bound. rewrite size_t_modulus_eq. lia.
Qed.

Lemma wrap_mod8 z : wrap z mod 8 = z mod 8.
Proof.
  unfold wrap. rewrite size_t_modulus_eq.
  Z.to_euclidean_division_equations. lia.
Qed.

Lemma ceil8_shift k a : ceil8 (8 * k + a) = k + ceil8 a.
Proof. unfold ceil8. Z.to_euclidean_division_equations. lia. Qed.

Lemma ceil8_bounds z : 8 * ceil8 z - 7 <= z <= 8 * ceil8 z.
Proof. unfold ceil8. Z.to_euclidean_division_equations. lia. Qed.

Lemma ceil8_aligned k : ceil8 (8 * k) = k.
Proof. unfold ceil8. Z.to_euclidean_division_equations. lia. Qed.

Lemma ceil8_mono a b : a <= b -> ceil8 a <= ceil8 b.
Proof. unfold ceil8. intros. Z.to_euclidean_division_equations. lia. Qed.

Lemma land7 z : Z.land z 7 = z mod 8.
Proof. change 7 with (Z.ones 3). rewrite Z.land_ones by lia. reflexivity. Qed.

Lemma shiftr3 z : Z.shiftr z 3 = z / 8.
Proof. rewrite Z.shiftr_div_pow2 by lia. reflexivity. Qed.

Lemma shiftl3 z : Z.shiftl z 3 = 8 * z.
Proof. rewrite Z.shiftl_mul_pow2 by lia. change (2 ^ 3) with 8. lia. Qed.

Lemma bytes_to_contain_ceil c :
  is_size_t c -> math.bytes_to_contain c = ceil8 c.
Proof.
  intros Hc. unfold math.bytes_to_contain. cbv zeta.
  rewrite land7, shiftr3. unfold ceil8.
  unfold is_size_t in Hc. rewrite size_t_modulus_eq in Hc.
  destruct (Z.eqb_spec (c mod 8) 0) as [E|E]; cbn [negb];
    rewrite wrap_small
      by (unfold is_size_t; rewrite size_t_modulus_eq;
          Z.to_euclidean_division_equations; lia);
    Z.to_euclidean_division_equations; lia.
Qed.

Lemma bits_to_contain_mul b :
  0 <= b -> 8 * b < size_t_modulus -> math.bits_to_contain b = 8 * b.
Proof.
  intros H0 H1. unfold math.bits_to_contain. cbv zeta. rewrite shiftl3.
  apply wrap_small. unfold is_size_t. lia.
Qed.

Lemma bits_to_contain_aligned b : math.bits_to_contain b mod 8 = 0.
Proof.
  unfold math.bits_to_contain. cbv zeta. rewrite shiftl3, wrap_mod8.
  Z.to_euclidean_division_equations. lia.
Qed.

Lemma bits_to_contain_is_size_t b : is_size_t (math.bits_to_contain b).
Proof. apply wrap_is_size_t. Qed.

Lemma bytes_to_contain_is_size_t c : is_size_t (math.bytes_to_contain c).
Proof. apply wrap_is_size_t. Qed.

Lemma next_boundary_aligned c : math.next_boundary_bit_pos c mod 8 = 0.
Proof. apply bits_to_contain_aligned. Qed.

Lemma next_boundary_ceil c :
  0 <= c -> 8 * ceil8 c < size_t_modulus ->
  math.next_boundary_bit_pos c = 8 * ceil8 c.
Proof.
  intros H0 H1. unfold math.next_boundary_bit_pos. cbv zeta.
  pose proof (ceil8_bounds c).
  rewrite bytes_to_contain_ceil by (unfold is_size_t; lia).
  apply bits_to_contain_mul; lia.
Qed.

End SizeArithmetic.

(** ** Byte buffers and their bit view *)

Section Memory.

Lemma update_length buf n v : length (mem.update buf n v) = length buf.
Proof.
  revert n. induction buf as [|h t IH]; intros [|n]; cbn; auto.
Qed.

Lemma update_nth buf n v k d :
  (n < length buf)%nat ->
  nth k (mem.update buf n v) d = if Nat.eqb k n then v else nth k buf d.
Proof.
  revert n k. induction buf as [|h t IH]; intros n k Hn; cbn in Hn; [lia|].
  destruct n as [|n], k as [|k]; cbn; auto.
  apply IH. lia.
Qed.

Lemma update_bytes_ok buf n v :
  bytes_ok buf -> is_uint8 v -> bytes_ok (mem.update buf n v).
Proof.
  unfold bytes_ok. intros Hb Hv. revert n.
  induction Hb as [|h t Hh Ht IH]; intros [|n]; cbn; constructor; auto.
Qed.

Lemma to_uint8_ok v : is_uint8 (to_uint8 v).
Proof. unfold is_uint8, to_uint8. apply Z.mod_pos_bound. lia. Qed.

Lemma load_some buf i :
  0 <= i < Z.of_nat (length buf) ->
  mem.load buf i = Some (nth (Z.to_nat i) buf 0).
Proof.
  intros H. unfold mem.load.
  replace ((0 <=? i) && (i <? Z.of_nat (length buf))) with true
    by (symmetry; apply andb_true_iff; split; [apply Z.leb_le | apply Z.ltb_lt]; lia).
  apply nth_error_nth'. lia.
Qed.

Lemma store_some buf i v :
  0 <= i < Z.of_nat (length buf) ->
  mem.store buf i v = Some (mem.update buf (Z.to_nat i) (to_uint8 v)).
Proof.
  intros H. unfold mem.store.
  replace ((0 <=? i) && (i <? Z.of_nat (length buf))) with true
    by (symmetry; apply andb_true_iff; split; [apply Z.leb_le | apply Z.ltb_lt]; lia).
  reflexivity.
Qed.

Lemma nth_bytes_ok buf k : bytes_ok buf -> is_uint8 (nth k buf 0).
Proof.
  unfold bytes_ok. intros H. revert k.
  induction H as [|h t Hh Ht IH]; intros [|k]; cbn; auto; unfold is_uint8; lia.
Qed.

Lemma testbit_uint8_high v k : is_uint8 v -> 8 <= k -> Z.testbit v k = false.
Proof.
  intros Hv Hk. unfold is_uint8 in Hv.
  destruct (Z.eq_dec v 0) as [->|Hnz]; [apply Z.testbit_0_l|].
  apply Z.bits_above_log2; [lia|].
  assert (Z.log2 v < 8); [|lia].
  apply Z.log2_lt_pow2; lia.
Qed.

Lemma testbit_to_uint8 v k :
  0 <= k < 8 -> Z.testbit (to_uint8 v) k = Z.testbit v k.
Proof.
  intros Hk. unfold to_uint8. change 256 with (2 ^ 8).
  apply Z.mod_pow2_bits_low. lia.
Qed.

(** Two cells are equal when they agree on their eight bits. *)
Lemma uint8_ext a b :
  is_uint8 a -> is_uint8 b ->
  (forall k, 0 <= k < 8 -> Z.testbit a k = Z.testbit b k) -> a = b.
Proof.
  intros Ha Hb H. apply Z.bits_inj'. intros k Hk.
  destruct (Z_lt_dec k 8) as [Hlt|Hge].
  - apply H. lia.
  - rewrite !testbit_uint8_high by (auto; lia). reflexivity.
Qed.

Lemma bit_beyond buf j : 8 * Z.of_nat (length buf) <= j -> bit buf j = false.
Proof.
  intros H. unfold bit. rewrite nth_overflow; [apply Z.testbit_0_l|].
  assert (Z.of_nat (length buf) <= j / 8)
    by (Z.to_euclidean_division_equations; lia).
  lia.
Qed.

(** The bit view of a buffer after one cell was overwritten. *)
Lemma bit_update buf i v j :
  0 <= i < Z.of_nat (length buf) -> 0 <= j ->
  bit (mem.update buf (Z.to_nat i) (to_uint8 v)) j =
  if j / 8 =? i then Z.testbit v (j mod 8) else bit buf j.
Proof.
  intros Hi Hj. unfold bit. rewrite update_nth by lia.
  assert (0 <= j / 8) by (Z.to_euclidean_division_equations; lia).
  destruct (Z.eqb_spec (j / 8) i) as [E|E].
  - rewrite E, Nat.eqb_refl. apply testbit_to_uint8.
    Z.to_euclidean_division_equations; lia.
  - replace (Nat.eqb (Z.to_nat (j / 8)) (Z.to_nat i)) with false; [reflexivity|].
    symmetry. apply Nat.eqb_neq. lia.
Qed.

(** Buffers of the same length with the same bits are the same buffer. *)
Lemma bit_ext a b :
  bytes_ok a -> bytes_ok b -> length a = length b ->
  (forall j, 0 <= j < 8 * Z.of_nat (length a) -> bit a j = bit b j) -> a = b.
Proof.
  intros Ha Hb Hlen H.
  apply (nth_ext a b 0 0 Hlen). intros n Hn.
  apply uint8_ext; try apply nth_bytes_ok; auto.
  intros k Hk.
  specialize (H (8 * Z.of_nat n + k)).
  unfold bit in H.
  replace ((8 * Z.of_nat n + k) / 8) with (Z.of_nat n) in H
    by (Z.to_euclidean_division_equations; lia).
  replace ((8 * Z.of_nat n + k) mod 8) with k in H
    by (Z.to_euclidean_division_equations; lia).
  rewrite Nat2Z.id in H. apply H. lia.
Qed.

Lemma bit_nth buf j :
  0 <= j -> bit buf j = Z.testbit (nth (Z.to_nat (j / 8)) buf 0) (j mod 8).
Proof. reflexivity. Qed.

Lemma zeroed_length n : 0 <= n -> Z.of_nat (length (mem.zeroed n)) = n.
Proof. intros H. unfold mem.zeroed. rewrite repeat_length. lia. Qed.

Lemma zeroed_bytes_ok n : bytes_ok (mem.zeroed n).
Proof.
  unfold mem.zeroed, bytes_ok. apply Forall_forall. intros x Hx.
  apply repeat_spec in Hx. subst. unfold is_uint8. lia.
Qed.

Lemma zeroed_zero_from n c : zero_from (mem.zeroed n) c.
Proof.
  intros j _. unfold bit, mem.zeroed.
  destruct (Nat.lt_ge_cases (Z.to_nat (j / 8)) (Z.to_nat n)) as [Hlt|Hge].
  - rewrite nth_repeat_lt by exact Hlt. apply Z.testbit_0_l.
  - rewrite nth_overflow by (rewrite repeat_length; lia). apply Z.testbit_0_l.
Qed.

End Memory.

(** ** Raw bit transfer *)

Section BitTransfer.

Lemma load_mask k :
  0 <= k <= 8 -> mem.load detail.kBitMasks k = Some (Z.ones k).
Proof.
  intros H.
  assert (k = 0 \/ k = 1 \/ k = 2 \/ k = 3 \/ k = 4 \/ k = 5 \/ k = 6 \/ k = 7 \/ k = 8)
    as E by lia.
  repeat (destruct E as [-> | E]; [reflexivity|]). subst. reflexivity.
Qed.

(** Bits of the cell after the first store of an iteration of [encode_bits]:
    the low [front] bits of the source cell, shifted by the offset, are or-ed in. *)
Lemma front_cell_bits d s o front k :
  0 <= o -> 0 <= front -> 0 <= k ->
  Z.testbit (Z.lor d (Z.shiftl (Z.land s (Z.ones front)) o)) k =
  Z.testbit d k || (if (o <=? k) && (k <? o + front) then Z.testbit s (k - o) else false).
Proof.
  intros Ho Hf Hk.
  rewrite Z.lor_spec, Z.shiftl_spec by lia. f_equal.
  destruct (Z.leb_spec o k) as [Hle|Hlt]; cbn [andb].
  - rewrite Z.land_spec, Z.testbit_ones_nonneg by lia.
    destruct (Z.ltb_spec (k - o) front), (Z.ltb_spec k (o + front));
      try lia; rewrite ?andb_true_r, ?andb_false_r; reflexivity.
  - apply Z.testbit_neg_r. lia.
Qed.

(** Bits of the cell assigned by the second store of an iteration: the
    [left] bits of the source cell that follow the first [front] ones. *)
Lemma leftover_cell_bits s front left k :
  0 <= front -> 0 <= left -> 0 <= k ->
  Z.testbit (Z.land (Z.shiftr s front) (Z.ones left)) k =
  if k <? left then Z.testbit s (k + front) else false.
Proof.
  intros Hf Hl Hk.
  rewrite Z.land_spec, Z.shiftr_spec, Z.testbit_ones_nonneg by lia.
  destruct (Z.ltb_spec k left); rewrite ?andb_true_r, ?andb_false_r; reflexivity.
Qed.

Lemma bit_cell buf i t :
  0 <= i -> 0 <= t < 8 ->
  bit buf (8 * i + t) = Z.testbit (nth (Z.to_nat i) buf 0) t.
Proof.
  intros Hi Ht. unfold bit.
  replace ((8 * i + t) / 8) with i by (Z.to_euclidean_division_equations; lia).
  replace ((8 * i + t) mod 8) with t by (Z.to_euclidean_division_equations; lia).
  reflexivity.
Qed.

Lemma bit_in_cell buf i j :
  0 <= j -> j / 8 = i ->
  Z.testbit (nth (Z.to_nat i) buf 0) (j mod 8) = bit buf j.
Proof. intros Hj <-. reflexivity. Qed.

Lemma encode_bits_loop_done fuel buffer dest value src o avail size :
  size <= 0 ->
  detail.encode_bits_loop fuel buffer dest value src o avail size = Some buffer.
Proof.
  intros H. destruct fuel; cbn; [reflexivity|].
  destruct (Z.gtb_spec size 0); [lia|reflexivity].
Qed.

Lemma decode_bits_loop_done fuel value dest buffer src o avail size :
  size <= 0 ->
  detail.decode_bits_loop fuel value dest buffer src o avail size = Some value.
Proof.
  intros H. destruct fuel; cbn; [reflexivity|].
  destruct (Z.gtb_spec size 0); [lia|reflexivity].
Qed.

Lemma bits_written_nothing b p value q :
  zero_from b p -> bits_written b b p 0 value q.
Proof.
  intros Hz j Hj.
  destruct (Z.ltb_spec j p); [reflexivity|].
  destruct (Z.ltb_spec j (p + 0)); [lia|]. apply Hz. lia.
Qed.

Lemma bits_written_zero_from b0 b p w value q :
  0 <= p -> 0 <= w -> bits_written b0 b p w value q -> zero_from b (p + w).
Proof.
  intros Hp Hw H j Hj. rewrite H by lia.
  destruct (Z.ltb_spec j p); [lia|].
  destruct (Z.ltb_spec j (p + w)); [lia|]. reflexivity.
Qed.

Lemma bits_written_compose b0 b1 b2 p w w' value q :
  0 <= w -> 0 <= w' ->
  bits_written b0 b1 p w value q ->
  bits_written b1 b2 (p + w) w' value (q + w) ->
  bits_written b0 b2 p (w + w') value q.
Proof.
  intros Hw Hw' H1 H2 j Hj. rewrite H2 by lia.
  destruct (Z.ltb_spec j (p + w)).
  - rewrite H1 by lia.
    destruct (Z.ltb_spec j p); [reflexivity|].
    destruct (Z.ltb_spec j (p + w)); [|lia].
    destruct (Z.ltb_spec j (p + (w + w'))); [reflexivity|lia].
  - destruct (Z.ltb_spec j p); [lia|].
    destruct (Z.ltb_spec j (p + w + w')), (Z.ltb_spec j (p + (w + w')));
      try lia; try reflexivity.
    f_equal. lia.
Qed.

(** The first store of an iteration of [encode_bits]. *)
Lemma encode_front_store buffer dest value src o m :
  0 <= o < 8 -> 0 <= m <= 8 - o -> 0 <= dest < Z.of_nat (length buffer) -> 0 <= src ->
  zero_from buffer (8 * dest + o) ->
  let s := nth (Z.to_nat src) value 0 in
  let d := nth (Z.to_nat dest) buffer 0 in
  bits_written buffer
    (mem.update buffer (Z.to_nat dest)
       (to_uint8 (Z.lor d (Z.shiftl (Z.land s (Z.ones m)) o))))
    (8 * dest + o) m value (8 * src).
Proof.
  intros Ho Hm Hd Hs Hz s d j Hj.
  rewrite bit_update by lia.
  destruct (Z.eqb_spec (j / 8) dest) as [E|E].
  - rewrite front_cell_bits by (Z.to_euclidean_division_equations; lia).
    unfold d. rewrite (bit_in_cell buffer dest j) by lia.
    assert (Hjm : j = 8 * dest + j mod 8) by (Z.to_euclidean_division_equations; lia).
    assert (Hjr : 0 <= j mod 8 < 8) by (apply Z.mod_pos_bound; lia).
    destruct (Z.ltb_spec j (8 * dest + o)).
    + destruct (Z.leb_spec o (j mod 8)); [lia|]. cbn [andb]. apply orb_false_r.
    + rewrite (Hz j) by lia. cbn [orb].
      destruct (Z.leb_spec o (j mod 8)); [|lia]. cbn [andb].
      destruct (Z.ltb_spec (j mod 8) (o + m)), (Z.ltb_spec j (8 * dest + o + m));
        try lia; try reflexivity.
      unfold s.
      replace (j - (8 * dest + o)) with (j mod 8 - o) by lia.
      symmetry. apply bit_cell; lia.
  - destruct (Z.ltb_spec j (8 * dest + o)); [reflexivity|].
    rewrite (Hz j) by lia.
    destruct (Z.ltb_spec j (8 * dest + o + m)); [|reflexivity].
    exfalso. apply E. Z.to_euclidean_division_equations; lia.
Qed.

(** The second store of an iteration, taken when the source cell straddles
    two destination cells. *)
Lemma encode_leftover_store b1 dest value src o left :
  0 < o < 8 -> 0 <= left <= o -> 0 <= dest -> dest + 1 < Z.of_nat (length b1) -> 0 <= src ->
  zero_from b1 (8 * dest + 8) ->
  let s := nth (Z.to_nat src) value 0 in
  bits_written b1
    (mem.update b1 (Z.to_nat (dest + 1))
       (to_uint8 (Z.land (Z.shiftr s (8 - o)) (Z.ones left))))
    (8 * dest + 8) left value (8 * src + (8 - o)).
Proof.
  intros Ho Hl Hd Hd1 Hs Hz s j Hj.
  rewrite bit_update by lia.
  destruct (Z.eqb_spec (j / 8) (dest + 1)) as [E|E].
  - rewrite leftover_cell_bits by (Z.to_euclidean_division_equations; lia).
    assert (Hjm : j = 8 * (dest + 1) + j mod 8) by (Z.to_euclidean_division_equations; lia).
    assert (Hjr : 0 <= j mod 8 < 8) by (apply Z.mod_pos_bound; lia).
    destruct (Z.ltb_spec j (8 * dest + 8)); [lia|].
    destruct (Z.ltb_spec (j mod 8) left), (Z.ltb_spec j (8 * dest + 8 + left));
      try lia; try reflexivity.
    unfold s.
    replace (8 * src + (8 - o) + (j - (8 * dest + 8))) with (8 * src + (j mod 8 + (8 - o))) by lia.
    symmetry. apply bit_cell; lia.
  - destruct (Z.ltb_spec j (8 * dest + 8)); [reflexivity|].
    rewrite (Hz j) by lia.
    destruct (Z.ltb_spec j (8 * dest + 8 + left)); [|reflexivity].
    exfalso. apply E. Z.to_euclidean_division_equations; lia.
Qed.

(** The loop of [encode_bits] started at stream position [8 * dest + o]: no
    access leaves the two objects; when the buffer is clear from that position
    on, the [size] bits of [value] that start at its cell [src] are written. *)
Lemma encode_bits_loop_spec fuel :
  forall buffer dest value src o size,
  (Z.to_nat size <= fuel)%nat -> 0 <= size -> 0 <= o < 8 -> 0 <= dest -> 0 <= src ->
  8 * dest + o + size <= 8 * Z.of_nat (length buffer) ->
  8 * src + size <= 8 * Z.of_nat (length value) ->
  bytes_ok buffer ->
  exists b',
    detail.encode_bits_loop fuel buffer dest value src o (8 - o) size = Some b' /\
    length b' = length buffer /\ bytes_ok b' /\
    (zero_from buffer (8 * dest + o) ->
     bits_written buffer b' (8 * dest + o) size value (8 * src)).
Proof.
  induction fuel as [|fuel IH];
    intros buffer dest value src o size Hfuel Hsz Ho Hd Hs Hbuf Hval Hok.
  { assert (size = 0) by lia. subst size. exists buffer.
    repeat split; auto. apply bits_written_nothing; auto. }
  destruct (Z.eq_dec size 0) as [->|Hnz].
  { exists buffer. rewrite encode_bits_loop_done by lia.
    repeat split; auto. apply bits_written_nothing; auto. }
  (* what is left to do once the iteration has written [min 8 size] bits *)
  assert (Hfin : forall bN,
    length bN = length buffer -> bytes_ok bN ->
    exists b',
      detail.encode_bits_loop fuel bN (dest + 1) value (src + 1) o (8 - o)
        (size - Z.min 8 size) = Some b' /\
      length b' = length buffer /\ bytes_ok b' /\
      (bits_written buffer bN (8 * dest + o) (Z.min 8 size) value (8 * src) ->
       bits_written buffer b' (8 * dest + o) size value (8 * src))).
  { intros bN HlenN HokN.
    destruct (Z_le_gt_dec size 8) as [Hle|Hgt].
    - exists bN. rewrite encode_bits_loop_done by lia.
      repeat split; auto. intros HN.
      replace size with (Z.min 8 size) at 1 by lia. exact HN.
    - replace (Z.min 8 size) with 8 in * by lia.
      destruct (IH bN (dest + 1) value (src + 1) o (size - 8)) as (b' & Hrun & Hlen & Hok' & Hw);
        try lia; auto.
      exists b'. repeat split; auto; [congruence|]. intros HN.
      replace size with (8 + (size - 8)) at 1 by lia.
      apply (bits_written_compose buffer bN b'); try lia; auto.
      replace (8 * dest + o + 8) with (8 * (dest + 1) + o) by lia.
      replace (8 * src + 8) with (8 * (src + 1)) by lia. apply Hw.
      replace (8 * (dest + 1) + o) with (8 * dest + o + 8) by lia.
      apply (bits_written_zero_from buffer bN _ _ value (8 * src)); auto; lia. }
  cbn [detail.encode_bits_loop].
  destruct (Z.gtb_spec size 0) as [_|]; [|lia].
  set (m := Z.min (8 - o) size).
  rewrite (load_some value src) by lia. cbn [obind].
  rewrite (load_mask m) by lia. cbn [obind].
  rewrite (load_some buffer dest) by lia. cbn [obind].
  rewrite store_some by lia. cbn [obind].
  set (s := nth (Z.to_nat src) value 0).
  set (d := nth (Z.to_nat dest) buffer 0).
  set (b1 := mem.update buffer (Z.to_nat dest) _).
  assert (H1 : zero_from buffer (8 * dest + o) ->
               bits_written buffer b1 (8 * dest + o) m value (8 * src))
    by (intros Hz; apply encode_front_store; auto; lia).
  assert (Hlen1 : length b1 = length buffer) by apply update_length.
  assert (Hok1 : bytes_ok b1) by (apply update_bytes_ok; auto using to_uint8_ok).
  destruct ((o >? 0) && (size - m >? 0)) eqn:Hstraddle.
  - apply andb_true_iff in Hstraddle. destruct Hstraddle as [Ho' Hm'].
    apply Z.gtb_lt in Ho'. apply Z.gtb_lt in Hm'.
    assert (Em : m = 8 - o) by lia.
    set (left := Z.min o (size - m)).
    rewrite (load_mask left) by lia. cbn [obind].
    rewrite store_some by lia. cbn [obind].
    set (b2 := mem.update b1 (Z.to_nat (dest + 1)) _).
    replace (size - m - left) with (size - Z.min 8 size) by lia.
    destruct (Hfin b2) as (b' & Hrun & Hlen & Hok' & Hw).
    { unfold b2. rewrite update_length. exact Hlen1. }
    { apply update_bytes_ok; auto using to_uint8_ok. }
    exists b'. repeat split; auto. intros Hz. apply Hw.
    assert (H2 : bits_written b1 b2 (8 * dest + 8) left value (8 * src + (8 - o))).
    { unfold b2. replace (Z.shiftr s m) with (Z.shiftr s (8 - o)) by (f_equal; lia).
      apply encode_leftover_store; auto; try lia.
      replace (8 * dest + 8) with (8 * dest + o + m) by lia.
      apply (bits_written_zero_from buffer b1 _ _ value (8 * src)); auto; lia. }
    replace (Z.min 8 size) with (m + left) by lia.
    apply (bits_written_compose buffer b1 b2); try lia; auto.
    replace (8 * dest + o + m) with (8 * dest + 8) by lia.
    replace (8 * src + m) with (8 * src + (8 - o)) by lia. exact H2.
  - assert (Em : m = Z.min 8 size).
    { apply andb_false_iff in Hstraddle. destruct Hstraddle as [Ho'|Hm'].
      - destruct (Z.gtb_spec o 0); [discriminate|]. lia.
      - destruct (Z.gtb_spec (size - m) 0); [discriminate|]. lia. }
    replace (size - m) with (size - Z.min 8 size) by lia.
    destruct (Hfin b1) as (b' & Hrun & Hlen & Hok' & Hw); auto.
    exists b'. repeat split; auto. intros Hz. apply Hw. rewrite <- Em. auto.
Qed.

Lemma encode_bits_spec buffer value off n :
  is_size_t off -> 0 <= n ->
  off + n <= 8 * Z.of_nat (length buffer) ->
  n <= 8 * Z.of_nat (length value) ->
  bytes_ok buffer ->
  exists b',
    detail.encode_bits buffer value off n = Some b' /\
    length b' = length buffer /\ bytes_ok b' /\
    (zero_from buffer off -> bits_written buffer b' off n value 0).
Proof.
  intros Hoff Hn Hbuf Hval Hok.
  unfold detail.encode_bits. cbv zeta.
  rewrite bytes_to_contain_ceil by exact Hoff.
  rewrite land7. change (math.bits_to_contain 1) with 8.
  assert (Hr : 0 <= off mod 8 < 8) by (apply Z.mod_pos_bound; lia).
  assert (Hdest : 0 + (if (off mod 8 >? 0) && (ceil8 off >? 0)
                       then ceil8 off - 1 else ceil8 off) = off / 8).
  { unfold is_size_t in Hoff. unfold ceil8.
    destruct (Z.gtb_spec (off mod 8) 0), (Z.gtb_spec ((off + 7) / 8) 0); cbn [andb];
      Z.to_euclidean_division_equations; lia. }
  rewrite Hdest.
  assert (Hpos : 8 * (off / 8) + off mod 8 = off)
    by (Z.to_euclidean_division_equations; lia).
  destruct (encode_bits_loop_spec (Z.to_nat n) buffer (off / 8) value 0 (off mod 8) n)
    as (b' & Hrun & Hlen & Hok' & Hw); auto; try lia.
  { unfold is_size_t in Hoff. Z.to_euclidean_division_equations; lia. }
  exists b'. rewrite Hpos in Hw. auto.
Qed.

(** The first store of an iteration of [decode_bits]. *)
Lemma decode_front_store value dest buffer src o m :
  0 <= o < 8 -> 0 < m <= 8 - o -> 0 <= dest < Z.of_nat (length value) -> 0 <= src ->
  let s := nth (Z.to_nat src) buffer 0 in
  bits_fetched value
    (mem.update value (Z.to_nat dest) (to_uint8 (Z.land (Z.shiftr s o) (Z.ones m))))
    dest m buffer (8 * src + o).
Proof.
  intros Ho Hm Hd Hs s j Hj.
  rewrite bit_update by lia.
  assert (Hc : ceil8 m = 1) by (unfold ceil8; Z.to_euclidean_division_equations; lia).
  rewrite Hc.
  assert (Hjr : 0 <= j mod 8 < 8) by (apply Z.mod_pos_bound; lia).
  destruct (Z.eqb_spec (j / 8) dest) as [E|E].
  - assert (Hjm : j = 8 * dest + j mod 8) by (Z.to_euclidean_division_equations; lia).
    rewrite leftover_cell_bits by lia.
    destruct (Z.leb_spec (8 * dest) j); [|lia].
    destruct (Z.ltb_spec j (8 * (dest + 1))); [|lia]. cbn [andb].
    destruct (Z.ltb_spec (j mod 8) m), (Z.ltb_spec j (8 * dest + m));
      try lia; try reflexivity.
    unfold s.
    replace (8 * src + o + (j - 8 * dest)) with (8 * src + (j mod 8 + o)) by lia.
    symmetry. apply bit_cell; lia.
  - destruct (Z.leb_spec (8 * dest) j), (Z.ltb_spec j (8 * (dest + 1)));
      cbn [andb]; try reflexivity.
    exfalso. apply E. Z.to_euclidean_division_equations; lia.
Qed.

(** The second store of an iteration of [decode_bits], which completes the
    destination cell from the next source cell. *)
Lemma decode_leftover_store value v1 dest buffer src o left :
  0 < o < 8 -> 0 < left <= o -> 0 <= dest < Z.of_nat (length v1) -> 0 <= src ->
  bits_fetched value v1 dest (8 - o) buffer (8 * src + o) ->
  let s' := nth (Z.to_nat (src + 1)) buffer 0 in
  let d := nth (Z.to_nat dest) v1 0 in
  bits_fetched value
    (mem.update v1 (Z.to_nat dest)
       (to_uint8 (Z.lor d (Z.shiftl (Z.land s' (Z.ones left)) (8 - o)))))
    dest (8 - o + left) buffer (8 * src + o).
Proof.
  intros Ho Hl Hd Hs H1 s' d j Hj.
  rewrite bit_update by lia.
  assert (Hc : ceil8 (8 - o + left) = 1)
    by (unfold ceil8; Z.to_euclidean_division_equations; lia).
  assert (Hc1 : ceil8 (8 - o) = 1)
    by (unfold ceil8; Z.to_euclidean_division_equations; lia).
  rewrite Hc.
  assert (Hjr : 0 <= j mod 8 < 8) by (apply Z.mod_pos_bound; lia).
  specialize (H1 j Hj). rewrite Hc1 in H1.
  destruct (Z.eqb_spec (j / 8) dest) as [E|E].
  - assert (Hjm : j = 8 * dest + j mod 8) by (Z.to_euclidean_division_equations; lia).
    rewrite front_cell_bits by lia.
    unfold d. rewrite (bit_in_cell v1 dest j) by lia. rewrite H1.
    destruct (Z.leb_spec (8 * dest) j); [|lia].
    destruct (Z.ltb_spec j (8 * (dest + 1))); [|lia]. cbn [andb].
    destruct (Z.ltb_spec j (8 * dest + (8 - o))).
    + destruct (Z.leb_spec (8 - o) (j mod 8)); [lia|]. cbn [andb].
      destruct (Z.ltb_spec j (8 * dest + (8 - o + left))); [|lia].
      apply orb_false_r.
    + cbn [orb].
      destruct (Z.leb_spec (8 - o) (j mod 8)); [|lia]. cbn [andb].
      destruct (Z.ltb_spec (j mod 8) (8 - o + left)),
               (Z.ltb_spec j (8 * dest + (8 - o + left)));
        try lia; try reflexivity.
      unfold s'.
      replace (8 * src + o + (j - 8 * dest))
        with (8 * (src + 1) + (j mod 8 - (8 - o))) by lia.
      symmetry. apply bit_cell; lia.
  - rewrite H1.
    destruct (Z.leb_spec (8 * dest) j), (Z.ltb_spec j (8 * (dest + 1)));
      cbn [andb]; try reflexivity.
    exfalso. apply E. Z.to_euclidean_division_equations; lia.
Qed.

Lemma bits_fetched_nothing v dest buffer p : bits_fetched v v dest 0 buffer p.
Proof.
  intros j Hj. change (ceil8 0) with 0.
  destruct (Z.leb_spec (8 * dest) j), (Z.ltb_spec j (8 * (dest + 0)));
    cbn [andb]; try reflexivity; lia.
Qed.

Lemma bits_fetched_compose v0 v1 v2 dest w' buffer p :
  0 <= w' ->
  bits_fetched v0 v1 dest 8 buffer p ->
  bits_fetched v1 v2 (dest + 1) w' buffer (p + 8) ->
  bits_fetched v0 v2 dest (8 + w') buffer p.
Proof.
  intros Hw H1 H2 j Hj. rewrite H2, H1 by lia.
  change (ceil8 8) with 1.
  replace (ceil8 (8 + w')) with (1 + ceil8 w')
    by (unfold ceil8; Z.to_euclidean_division_equations; lia).
  assert (0 <= ceil8 w') by (unfold ceil8; Z.to_euclidean_division_equations; lia).
  destruct (Z.leb_spec (8 * (dest + 1)) j), (Z.ltb_spec j (8 * (dest + 1 + ceil8 w')));
    cbn [andb];
    destruct (Z.leb_spec (8 * dest) j), (Z.ltb_spec j (8 * (dest + 1)));
    cbn [andb];
    destruct (Z.ltb_spec j (8 * (dest + (1 + ceil8 w')))); try lia;
    try reflexivity.
  - destruct (Z.ltb_spec j (8 * (dest + 1) + w')), (Z.ltb_spec j (8 * dest + (8 + w')));
      try lia; try reflexivity.
    f_equal. lia.
  - destruct (Z.ltb_spec j (8 * dest + 8)), (Z.ltb_spec j (8 * dest + (8 + w')));
      try lia; reflexivity.
Qed.

(** The loop of [decode_bits]: no access leaves the two objects, and the
    destination cells receive [size] bits of the stream. *)
Lemma decode_bits_loop_spec fuel :
  forall value dest buffer src o size,
  (Z.to_nat size <= fuel)%nat -> 0 <= size -> 0 <= o < 8 -> 0 <= dest -> 0 <= src ->
  8 * src + o + size <= 8 * Z.of_nat (length buffer) ->
  8 * dest + size <= 8 * Z.of_nat (length value) ->
  bytes_ok value ->
  exists v',
    detail.decode_bits_loop fuel value dest buffer src o (8 - o) size = Some v' /\
    length v' = length value /\ bytes_ok v' /\
    bits_fetched value v' dest size buffer (8 * src + o).
Proof.
  induction fuel as [|fuel IH];
    intros value dest buffer src o size Hfuel Hsz Ho Hd Hs Hbuf Hval Hok.
  { assert (size = 0) by lia. subst size. exists value.
    repeat split; auto. apply bits_fetched_nothing. }
  destruct (Z.eq_dec size 0) as [->|Hnz].
  { exists value. rewrite decode_bits_loop_done by lia.
    repeat split; auto. apply bits_fetched_nothing. }
  assert (Hfin : forall vN,
    length vN = length value -> bytes_ok vN ->
    bits_fetched value vN dest (Z.min 8 size) buffer (8 * src + o) ->
    exists v',
      detail.decode_bits_loop fuel vN (dest + 1) buffer (src + 1) o (8 - o)
        (size - Z.min 8 size) = Some v' /\
      length v' = length value /\ bytes_ok v' /\
      bits_fetched value v' dest size buffer (8 * src + o)).
  { intros vN HlenN HokN HN.
    destruct (Z_le_gt_dec size 8) as [Hle|Hgt].
    - exists vN. rewrite decode_bits_loop_done by lia.
      repeat split; auto.
      replace size with (Z.min 8 size) at 1 by lia. exact HN.
    - replace (Z.min 8 size) with 8 in * by lia.
      destruct (IH vN (dest + 1) buffer (src + 1) o (size - 8))
        as (v' & Hrun & Hlen & Hok' & Hw); try lia; auto.
      exists v'. repeat split; auto; [congruence|].
      replace size with (8 + (size - 8)) at 1 by lia.
      apply (bits_fetched_compose value vN v'); try lia; auto.
      replace (8 * src + o + 8) with (8 * (src + 1) + o) by lia. exact Hw. }
  cbn [detail.decode_bits_loop].
  destruct (Z.gtb_spec size 0) as [_|]; [|lia].
  set (m := Z.min (8 - o) size).
  rewrite (load_some buffer src) by lia. cbn [obind].
  rewrite (load_mask m) by lia. cbn [obind].
  rewrite store_some by lia. cbn [obind].
  set (s := nth (Z.to_nat src) buffer 0).
  set (v1 := mem.update value (Z.to_nat dest) _).
  assert (H1 : bits_fetched value v1 dest m buffer (8 * src + o))
    by (apply decode_front_store; auto; lia).
  assert (Hlen1 : length v1 = length value) by apply update_length.
  assert (Hok1 : bytes_ok v1) by (apply update_bytes_ok; auto using to_uint8_ok).
  destruct ((o >? 0) && (size - m >? 0)) eqn:Hstraddle.
  - apply andb_true_iff in Hstraddle. destruct Hstraddle as [Ho' Hm'].
    apply Z.gtb_lt in Ho'. apply Z.gtb_lt in Hm'.
    assert (Em : m = 8 - o) by lia.
    set (left := Z.min o (size - m)).
    rewrite (load_some buffer (src + 1)) by lia. cbn [obind].
    rewrite (load_mask left) by lia. cbn [obind].
    rewrite (load_some v1 dest) by lia. cbn [obind].
    rewrite store_some by lia. cbn [obind].
    set (v2 := mem.update v1 (Z.to_nat dest) _).
    replace (size - m - left) with (size - Z.min 8 size) by lia.
    apply Hfin.
    + unfold v2. rewrite update_length. exact Hlen1.
    + apply update_bytes_ok; auto using to_uint8_ok.
    + replace (Z.min 8 size) with (8 - o + left) by lia.
      unfold v2. replace (Z.shiftl (Z.land (nth (Z.to_nat (src + 1)) buffer 0) (Z.ones left)) m)
        with (Z.shiftl (Z.land (nth (Z.to_nat (src + 1)) buffer 0) (Z.ones left)) (8 - o))
        by (f_equal; lia).
      apply decode_leftover_store; auto; try lia.
      rewrite <- Em. exact H1.
  - assert (Em : m = Z.min 8 size).
    { apply andb_false_iff in Hstraddle. destruct Hstraddle as [Ho'|Hm'].
      - destruct (Z.gtb_spec o 0); [discriminate|]. lia.
      - destruct (Z.gtb_spec (size - m) 0); [discriminate|]. lia. }
    replace (size - m) with (size - Z.min 8 size) by lia.
    apply Hfin; auto. rewrite <- Em. exact H1.
Qed.

Lemma decode_bits_spec value buffer off n :
  is_size_t off -> 0 <= n ->
  off + n <= 8 * Z.of_nat (length buffer) ->
  n <= 8 * Z.of_nat (length value) ->
  bytes_ok value ->
  exists v',
    detail.decode_bits value buffer off n = Some v' /\
    length v' = length value /\ bytes_ok v' /\
    bits_fetched value v' 0 n buffer off.
Proof.
  intros Hoff Hn Hbuf Hval Hok.
  unfold detail.decode_bits. cbv zeta.
  rewrite bytes_to_contain_ceil by exact Hoff.
  rewrite land7. change (math.bits_to_contain 1) with 8.
  assert (Hr : 0 <= off mod 8 < 8) by (apply Z.mod_pos_bound; lia).
  assert (Hsrc : 0 + (if (off mod 8 >? 0) && (ceil8 off >? 0)
                      then ceil8 off - 1 else ceil8 off) = off / 8).
  { unfold is_size_t in Hoff. unfold ceil8.
    destruct (Z.gtb_spec (off mod 8) 0), (Z.gtb_spec ((off + 7) / 8) 0); cbn [andb];
      Z.to_euclidean_division_equations; lia. }
  rewrite Hsrc.
  assert (Hpos : 8 * (off / 8) + off mod 8 = off)
    by (Z.to_euclidean_division_equations; lia).
  destruct (decode_bits_loop_spec (Z.to_nat n) value 0 buffer (off / 8) (off mod 8) n)
    as (v' & Hrun & Hlen & Hok' & Hw); auto; try lia.
  { unfold is_size_t in Hoff. Z.to_euclidean_division_equations; lia. }
  exists v'. rewrite Hpos in Hw. auto.
Qed.

End BitTransfer.

(** ** Schemas: the size constants against the specification's layout *)

Section Schemas.

Lemma field_type_ind' (P : field_type -> Prop) :
  (forall sizeof_T, P (TField sizeof_T)) ->
  (forall n, P (TBitField n)) ->
  (forall n, P (TConstBitField n)) ->
  (forall ts, Forall P ts -> P (TPacket ts)) ->
  forall t, P t.
Proof.
  intros HF HB HC HP. fix IH 1.
  intros [sz|n|n|ts]; [apply HF | apply HB | apply HC | ].
  apply HP. induction ts as [|t ts IHts]; constructor; [apply IH | exact IHts].
Qed.

Lemma field_ind' (P : field -> Prop) :
  (forall value, P (Field value)) ->
  (forall n value, P (BitField n value)) ->
  (forall n value, P (ConstBitField n value)) ->
  (forall fs, Forall P fs -> P (PacketField fs)) ->
  forall f, P f.
Proof.
  intros HF HB HC HP. fix IH 1.
  intros [v|n v|n v|fs]; [apply HF | apply HB | apply HC | ].
  apply HP. induction fs as [|f fs IHfs]; constructor; [apply IH | exact IHfs].
Qed.

Lemma end_of_shift size k a t :
  end_of size (8 * k + a) t = 8 * k + end_of size a t.
Proof. destruct t; cbn [end_of]; rewrite ?ceil8_shift; lia. Qed.

Lemma layout_shift size ts : forall k a,
  layout size ts (8 * k + a) = 8 * k + layout size ts a.
Proof.
  induction ts as [|t ts IH]; intros k a; cbn [layout]; [reflexivity|].
  rewrite end_of_shift. apply IH.
Qed.

Lemma end_of_ge size c t :
  0 <= c -> 0 <= size -> c <= end_of size c t /\ size <= end_of size c t.
Proof.
  intros Hc Hs. pose proof (ceil8_bounds c). destruct t; cbn [end_of]; lia.
Qed.

Lemma layout_ge ts : forall c,
  Forall (fun t => 0 <= size_in_bits t) ts -> 0 <= c ->
  c <= layout size_in_bits ts c.
Proof.
  induction ts as [|t ts IH]; intros c H Hc; cbn [layout]; [lia|].
  inversion H as [|? ? Ht Hts]; subst.
  pose proof (end_of_ge (size_in_bits t) c t Hc Ht).
  specialize (IH (end_of (size_in_bits t) c t) Hts). lia.
Qed.

Lemma size_in_bits_nonneg t : wf_type t = true -> 0 <= size_in_bits t.
Proof.
  induction t as [sz|n|n|ts IH] using field_type_ind';
    cbn [size_in_bits wf_type]; intros Hwf.
  - apply Z.leb_le in Hwf. lia.
  - apply andb_true_iff in Hwf. destruct Hwf as [H _]. apply Z.leb_le in H. lia.
  - apply andb_true_iff in Hwf. destruct Hwf as [H _]. apply Z.leb_le in H. lia.
  - assert (Forall (fun t => 0 <= size_in_bits t) ts).
    { rewrite forallb_forall in Hwf. rewrite Forall_forall in *.
      intros t Ht. apply IH; auto. }
    pose proof (layout_ge ts 0 H ltac:(lia)).
    pose proof (ceil8_bounds (layout size_in_bits ts 0)). lia.
Qed.

Lemma sizes_nonneg ts :
  forallb wf_type ts = true -> Forall (fun t => 0 <= size_in_bits t) ts.
Proof.
  intros H. rewrite forallb_forall in H. apply Forall_forall.
  intros t Ht. apply size_in_bits_nonneg. auto.
Qed.

(** One step of the accumulation agrees with the specification's step as
    long as nothing overflows. *)
Lemma add_field_size_bits_end_of size c t :
  0 <= c -> 0 <= size -> end_of size c t < size_t_modulus ->
  add_field_size_bits size c t = end_of size c t.
Proof.
  intros Hc Hs Hlt. pose proof (ceil8_bounds c).
  destruct t; cbn [end_of add_field_size_bits] in *;
    rewrite ?bytes_to_contain_ceil by (unfold is_size_t; lia);
    rewrite ?bits_to_contain_mul by lia;
    apply wrap_small; unfold is_size_t; lia.
Qed.

Lemma accumulate_layout ts : forall c,
  Forall (fun t => wf_type t = true -> size_in_bits t < size_t_modulus ->
                   kSizeBits t = size_in_bits t) ts ->
  forallb wf_type ts = true -> 0 <= c ->
  layout size_in_bits ts c < size_t_modulus ->
  accumulate_packet_field_size_bits_recursive kSizeBits ts c = layout size_in_bits ts c.
Proof.
  induction ts as [|t ts IH]; intros c HF Hwf Hc Hlt;
    cbn [layout accumulate_packet_field_size_bits_recursive]; [reflexivity|].
  inversion HF as [|? ? Ht Hts]; subst.
  cbn [forallb] in Hwf. apply andb_true_iff in Hwf. destruct Hwf as [Hwt Hwts].
  pose proof (size_in_bits_nonneg t Hwt) as Hnn.
  pose proof (end_of_ge (size_in_bits t) c t Hc Hnn) as [Hge1 Hge2].
  pose proof (layout_ge ts (end_of (size_in_bits t) c t) (sizes_nonneg ts Hwts)
                ltac:(lia)) as Hge3.
  cbn [layout] in Hlt.
  rewrite Ht by (auto; lia).
  rewrite add_field_size_bits_end_of by lia.
  apply IH; auto; lia.
Qed.

(** The code's [kSizeBits] is the specification's [size_in_bits]. *)
Lemma kSizeBits_size_in_bits t :
  wf_type t = true -> size_in_bits t < size_t_modulus ->
  kSizeBits t = size_in_bits t.
Proof.
  induction t as [sz|n|n|ts IH] using field_type_ind'; intros Hwf Hlt;
    try reflexivity.
  - cbn [kSizeBits size_in_bits wf_type] in *. unfold footprint_size_bits, kUnitSizeBits.
    apply Z.leb_le in Hwf. rewrite wrap_small by (unfold is_size_t; lia). lia.
  - cbn [kSizeBits size_in_bits wf_type] in *.
    pose proof (layout_ge ts 0 (sizes_nonneg ts Hwf) ltac:(lia)) as Hge.
    pose proof (ceil8_bounds (layout size_in_bits ts 0)) as Hb.
    rewrite accumulate_layout; auto; try lia.
    apply next_boundary_ceil; lia.
Qed.

Lemma kSizeBytes_size_in_bytes ts :
  schema_ok (TPacket ts) ->
  kSizeBytes ts = size_in_bytes (TPacket ts).
Proof.
  intros [Hwf Hlt]. unfold kSizeBytes, packet_size_bits, size_in_bytes.
  rewrite kSizeBits_size_in_bits by auto.
  pose proof (size_in_bits_nonneg _ Hwf).
  apply bytes_to_contain_ceil. unfold is_size_t. lia.
Qed.

Lemma size_in_bits_packet_aligned ts :
  size_in_bits (TPacket ts) = 8 * size_in_bytes (TPacket ts).
Proof.
  unfold size_in_bytes. cbn [size_in_bits]. rewrite ceil8_aligned. reflexivity.
Qed.

End Schemas.

(** ** Well-formed values *)

Section Values.

Lemma is_uint8b_ok v : is_uint8b v = true -> is_uint8 v.
Proof.
  unfold is_uint8b, is_uint8. intros H. apply andb_true_iff in H.
  destruct H as [H1 H2]. apply Z.leb_le in H1. apply Z.ltb_lt in H2. lia.
Qed.

Lemma forallb_bytes_ok value : forallb is_uint8b value = true -> bytes_ok value.
Proof.
  intros H. rewrite forallb_forall in H. apply Forall_forall.
  intros x Hx. apply is_uint8b_ok. auto.
Qed.

Lemma smallest_unsigned_cases n :
  0 <= n <= 64 ->
  smallest_unsigned n = 1 \/ smallest_unsigned n = 2 \/
  smallest_unsigned n = 4 \/ smallest_unsigned n = 8.
Proof.
  intros _. unfold smallest_unsigned.
  repeat match goal with |- context [if ?b then _ else _] => destruct b end; auto.
Qed.

Lemma smallest_unsigned_fits n :
  0 <= n <= 64 -> n <= 8 * smallest_unsigned n.
Proof.
  intros H. unfold smallest_unsigned, check_if_fits.
  change (footprint_size_bits 1) with 8.
  change (footprint_size_bits 2) with 16.
  change (footprint_size_bits 4) with 32.
  destruct (Z.leb_spec n 8); [lia|].
  destruct (Z.leb_spec n 16); [lia|].
  destruct (Z.leb_spec n 32); lia.
Qed.

Lemma wf_BitField_inv n value :
  (0 <=? n) && (n <=? 64)
  && (Z.of_nat (length value) =? smallest_unsigned n) && forallb is_uint8b value = true ->
  0 <= n <= 64 /\ n <= 8 * Z.of_nat (length value) /\ bytes_ok value.
Proof.
  intros H.
  apply andb_true_iff in H. destruct H as [H Hb].
  apply andb_true_iff in H. destruct H as [H Hl].
  apply andb_true_iff in H. destruct H as [H0 H64].
  apply Z.leb_le in H0. apply Z.leb_le in H64. apply Z.eqb_eq in Hl.
  pose proof (smallest_unsigned_fits n ltac:(lia)).
  repeat split; try lia. apply forallb_bytes_ok. assumption.
Qed.

Lemma wf_Field_inv value :
  (1 <=? Z.of_nat (length value)) && forallb is_uint8b value = true ->
  1 <= Z.of_nat (length value) /\ bytes_ok value.
Proof.
  intros H. apply andb_true_iff in H. destruct H as [H1 H2].
  apply Z.leb_le in H1. split; [lia|]. apply forallb_bytes_ok. assumption.
Qed.

Lemma wf_field_type f : wf_field f = true -> wf_type (type_of f) = true.
Proof.
  induction f as [v|n v|n v|fs IH] using field_ind';
    cbn [wf_field type_of wf_type]; intros H.
  - apply andb_true_iff in H. tauto.
  - apply andb_true_iff in H. destruct H as [H _].
    apply andb_true_iff in H. destruct H as [H _]. exact H.
  - apply andb_true_iff in H. destruct H as [H _].
    apply andb_true_iff in H. destruct H as [H _]. exact H.
  - rewrite forallb_forall in *. intros t Ht.
    apply in_map_iff in Ht. destruct Ht as (f & <- & Hf).
    rewrite Forall_forall in IH. auto.
Qed.

Lemma wf_fields_types fs :
  forallb wf_field fs = true -> forallb wf_type (map type_of fs) = true.
Proof. intros H. apply (wf_field_type (PacketField fs)). exact H. Qed.

Lemma next_cursor_ge c f :
  wf_field f = true -> 0 <= c -> c <= next_cursor c f.
Proof.
  intros Hwf Hc. unfold next_cursor.
  apply end_of_ge; auto. apply size_in_bits_nonneg, wf_field_type, Hwf.
Qed.

Lemma layout_fields_ge fs c :
  forallb wf_field fs = true -> 0 <= c ->
  c <= layout size_in_bits (map type_of fs) c.
Proof.
  intros Hwf Hc. apply layout_ge; auto.
  apply sizes_nonneg, wf_fields_types, Hwf.
Qed.

(** Cell [k] of a buffer into which [value] was copied at cell [start]. *)
Lemma nth_spliced (buf value : list Z) (start k : nat) :
  (start + length value <= length buf)%nat ->
  nth k (firstn start buf ++ value ++ skipn (start + length value) buf) 0 =
  if (k <? start)%nat then nth k buf 0
  else if (k <? start + length value)%nat then nth (k - start) value 0
  else nth k buf 0.
Proof.
  intros H.
  assert (Hl : length (firstn start buf) = start) by (rewrite length_firstn; lia).
  destruct (Nat.ltb_spec k start) as [Hk|Hk].
  - rewrite app_nth1 by lia. rewrite nth_firstn.
    apply Nat.ltb_lt in Hk. rewrite Hk. reflexivity.
  - rewrite app_nth2 by lia. rewrite Hl.
    destruct (Nat.ltb_spec k (start + length value)).
    + rewrite app_nth1 by lia. reflexivity.
    + rewrite app_nth2 by lia. rewrite nth_skipn. f_equal. lia.
Qed.

Lemma spliced_length (buf value : list Z) (start : nat) :
  (start + length value <= length buf)%nat ->
  length (firstn start buf ++ value ++ skipn (start + length value) buf) = length buf.
Proof.
  intros H. rewrite !length_app, length_firstn, length_skipn. lia.
Qed.

Lemma spliced_bytes_ok (buf value : list Z) (start n : nat) :
  bytes_ok buf -> bytes_ok value ->
  bytes_ok (firstn start buf ++ value ++ skipn n buf).
Proof.
  unfold bytes_ok. intros Hb Hv.
  pose proof Hb as Hb1. rewrite <- (firstn_skipn start buf) in Hb1.
  pose proof Hb as Hb2. rewrite <- (firstn_skipn n buf) in Hb2.
  apply Forall_app in Hb1. apply Forall_app in Hb2.
  apply Forall_app; split; [tauto|].
  apply Forall_app; split; tauto.
Qed.

End Values.

(** ** The single-value codec *)

Section SingleValue.

Lemma Span_size_length buffer :
  span_ok buffer -> Span_size buffer = Z.of_nat (length buffer).
Proof.
  unfold span_ok, Span_size. rewrite size_t_modulus_eq. intros H.
  rewrite Z.mul_1_l. apply wrap_small. unfold is_size_t.
  rewrite size_t_modulus_eq. lia.
Qed.

Lemma footprint_size_bits_sizeof sizeof_T :
  0 <= sizeof_T -> 8 * sizeof_T < size_t_modulus ->
  footprint_size_bits sizeof_T = 8 * sizeof_T.
Proof.
  intros H0 H1. unfold footprint_size_bits, kUnitSizeBits.
  rewrite wrap_small by (unfold is_size_t; lia). lia.
Qed.

Lemma footprint_size_bytes_sizeof sizeof_T :
  0 <= sizeof_T -> 8 * sizeof_T < size_t_modulus ->
  footprint_size_bytes sizeof_T = sizeof_T.
Proof.
  intros H0 H1. unfold footprint_size_bytes.
  rewrite footprint_size_bits_sizeof by assumption.
  rewrite bytes_to_contain_ceil by (unfold is_size_t; lia).
  apply ceil8_aligned.
Qed.

(** The entry guard of the aligned codecs, on unbounded integers. *)
Lemma aligned_guard c n buffer :
  is_size_t c -> span_ok buffer -> 0 <= n -> 8 * n < size_t_modulus ->
  (wrap (math.bytes_to_contain c + n) >? Span_size buffer)
  = (ceil8 c + n >? Z.of_nat (length buffer)).
Proof.
  intros Hc Hs Hn0 Hn.
  rewrite bytes_to_contain_ceil, Span_size_length by assumption.
  rewrite wrap_small; [reflexivity|].
  unfold is_size_t in *. rewrite size_t_modulus_eq in *.
  pose proof (ceil8_bounds c). lia.
Qed.

Lemma encode_value_spec obj buffer c :
  is_size_t c -> span_ok buffer -> 8 * Z.of_nat (length obj) < size_t_modulus ->
  let start_byte := ceil8 c in
  let n := Z.of_nat (length obj) in
  encode_value obj buffer c =
  Some (if start_byte + n >? Z.of_nat (length buffer)
        then (Failure, buffer, c)
        else (Success,
              firstn (Z.to_nat start_byte) buffer ++ obj
                ++ skipn (Z.to_nat (start_byte + n)) buffer,
              8 * start_byte + 8 * n)).
Proof.
  intros Hc Hs Hobj start_byte n.
  unfold encode_value. cbv zeta.
  rewrite footprint_size_bytes_sizeof, footprint_size_bits_sizeof by lia.
  rewrite aligned_guard by (auto; lia).
  fold start_byte n.
  destruct (Z.gtb_spec (start_byte + n) (Z.of_nat (length buffer))) as [Hgt|Hle];
    [reflexivity|].
  assert (Hs0 : 0 <= start_byte)
    by (unfold start_byte, ceil8, is_size_t in *; Z.to_euclidean_division_equations; lia).
  rewrite bytes_to_contain_ceil by assumption. fold start_byte.
  unfold mem.memcpy_to.
  replace ((0 <=? start_byte) && (0 <=? n)
           && (start_byte + n <=? Z.of_nat (length buffer))
           && (n <=? Z.of_nat (length obj))) with true.
  2:{ symmetry. repeat (apply andb_true_iff; split); apply Z.leb_le; lia. }
  cbn [obind]. replace (Z.to_nat n) with (length obj) by (unfold n; lia).
  rewrite firstn_all.
  unfold span_ok in Hs.
  rewrite bits_to_contain_mul by lia.
  rewrite wrap_small by (unfold is_size_t; lia).
  reflexivity.
Qed.

Lemma decode_value_spec buffer c obj :
  is_size_t c -> span_ok buffer -> 8 * Z.of_nat (length obj) < size_t_modulus ->
  let start_byte := ceil8 c in
  let n := Z.of_nat (length obj) in
  decode_value buffer c obj =
  Some (if start_byte + n >? Z.of_nat (length buffer)
        then (Failure, buffer, c, obj)
        else (Success, buffer, 8 * start_byte + 8 * n,
              firstn (length obj) (skipn (Z.to_nat start_byte) buffer))).
Proof.
  intros Hc Hs Hobj start_byte n.
  unfold decode_value. cbv zeta.
  rewrite footprint_size_bytes_sizeof, footprint_size_bits_sizeof by lia.
  rewrite aligned_guard by (auto; lia).
  fold start_byte n.
  destruct (Z.gtb_spec (start_byte + n) (Z.of_nat (length buffer))) as [Hgt|Hle];
    [reflexivity|].
  assert (Hs0 : 0 <= start_byte)
    by (unfold start_byte, ceil8, is_size_t in *; Z.to_euclidean_division_equations; lia).
  rewrite bytes_to_contain_ceil by assumption. fold start_byte.
  unfold mem.memcpy_from.
  replace ((0 <=? start_byte) && (0 <=? n)
           && (start_byte + n <=? Z.of_nat (length buffer))
           && (n <=? Z.of_nat (length obj))) with true.
  2:{ symmetry. repeat (apply andb_true_iff; split); apply Z.leb_le; lia. }
  cbn [obind]. replace (Z.to_nat n) with (length obj) by (unfold n; lia).
  rewrite skipn_all, app_nil_r.
  unfold span_ok in Hs.
  rewrite bits_to_contain_mul by lia.
  rewrite wrap_small by (unfold is_size_t; lia).
  reflexivity.
Qed.

End SingleValue.

(** ** Encoding a field: success, cursor and layout *)

Section Encoding.

Lemma bitfield_guard c n buffer :
  0 <= c -> 0 <= n -> c + n < size_t_modulus -> span_ok buffer ->
  (wrap (c + n) >? math.bits_to_contain (Span_size buffer))
  = (c + n >? 8 * Z.of_nat (length buffer)).
Proof.
  intros Hc Hn Hlt Hs.
  rewrite Span_size_length by assumption.
  unfold span_ok in Hs.
  rewrite bits_to_contain_mul by lia.
  rewrite wrap_small by (unfold is_size_t; lia). reflexivity.
Qed.

Lemma encode_BitField_ok n value buffer c :
  0 <= n -> n <= 8 * Z.of_nat (length value) ->
  span_ok buffer -> bytes_ok buffer -> 0 <= c ->
  c + n <= 8 * Z.of_nat (length buffer) ->
  exists b',
    encode_BitField n value buffer c = Some (Success, b', c + n) /\
    encode_post buffer b' c (c + n)
      (forall j, 0 <= j < n -> bit b' (c + j) = bit value j).
Proof.
  intros Hn Hval Hs Hok Hc Hfit.
  assert (Hlt : c + n < size_t_modulus) by (unfold span_ok in Hs; lia).
  unfold encode_BitField. cbv zeta.
  rewrite bitfield_guard by assumption.
  destruct (Z.gtb_spec (c + n) (8 * Z.of_nat (length buffer))); [lia|].
  destruct (encode_bits_spec buffer value c n) as (b' & Hrun & Hlen & Hok' & Hw);
    auto; try lia.
  { unfold is_size_t. lia. }
  rewrite Hrun. cbn [obind].
  rewrite wrap_small by (unfold is_size_t; lia).
  exists b'. split; [reflexivity|].
  split; [exact Hlen|]. split; [exact Hok'|].
  intros Hz. specialize (Hw Hz). split; [|split].
  - intros j Hj. rewrite Hw by lia.
    destruct (Z.ltb_spec j c); [reflexivity|lia].
  - apply (bits_written_zero_from buffer b' c n value 0); auto.
  - intros j Hj. rewrite Hw by lia.
    destruct (Z.ltb_spec (c + j) c); [lia|].
    destruct (Z.ltb_spec (c + j) (c + n)); [|lia].
    f_equal. lia.
Qed.

Lemma encode_ConstBitField_eq n value buffer c :
  encode_ConstBitField n value buffer c = encode_BitField n value buffer c.
Proof. reflexivity. Qed.

(** The bits of a buffer into which [value] was copied at cell [start]. *)
Lemma bit_spliced buf value start j :
  0 <= start -> start + Z.of_nat (length value) <= Z.of_nat (length buf) -> 0 <= j ->
  bit (firstn (Z.to_nat start) buf ++ value
         ++ skipn (Z.to_nat (start + Z.of_nat (length value))) buf) j =
  if j <? 8 * start then bit buf j
  else if j <? 8 * start + 8 * Z.of_nat (length value) then bit value (j - 8 * start)
  else bit buf j.
Proof.
  intros Hs Hfit Hj. unfold bit at 1.
  replace (Z.to_nat (start + Z.of_nat (length value)))
    with (Z.to_nat start + length value)%nat by lia.
  rewrite nth_spliced by lia.
  assert (0 <= j / 8) by (Z.to_euclidean_division_equations; lia).
  destruct (Nat.ltb_spec (Z.to_nat (j / 8)) (Z.to_nat start)) as [H1|H1].
  - destruct (Z.ltb_spec j (8 * start)); [reflexivity|].
    exfalso. Z.to_euclidean_division_equations; lia.
  - destruct (Z.ltb_spec j (8 * start));
      [exfalso; Z.to_euclidean_division_equations; lia|].
    destruct (Nat.ltb_spec (Z.to_nat (j / 8)) (Z.to_nat start + length value)) as [H2|H2].
    + destruct (Z.ltb_spec j (8 * start + 8 * Z.of_nat (length value)));
        [|exfalso; Z.to_euclidean_division_equations; lia].
      unfold bit. f_equal.
      * f_equal. Z.to_euclidean_division_equations; lia.
      * Z.to_euclidean_division_equations; lia.
    + destruct (Z.ltb_spec j (8 * start + 8 * Z.of_nat (length value)));
        [exfalso; Z.to_euclidean_division_equations; lia|].
      reflexivity.
Qed.

Lemma encode_Field_ok value buffer c :
  bytes_ok value -> span_ok buffer -> bytes_ok buffer -> 0 <= c ->
  8 * ceil8 c + 8 * Z.of_nat (length value) <= 8 * Z.of_nat (length buffer) ->
  exists b',
    encode_value value buffer c
      = Some (Success, b', 8 * ceil8 c + 8 * Z.of_nat (length value)) /\
    encode_post buffer b' c (8 * ceil8 c + 8 * Z.of_nat (length value))
      (forall j, 0 <= j < 8 * Z.of_nat (length value) ->
                 bit b' (8 * ceil8 c + j) = bit value j).
Proof.
  intros Hv Hs Hok Hc Hfit.
  pose proof (ceil8_bounds c) as Hb.
  assert (Hsz : is_size_t c) by (unfold is_size_t, span_ok in *; lia).
  rewrite encode_value_spec by (auto; unfold span_ok in *; lia).
  cbv zeta.
  destruct (Z.gtb_spec (ceil8 c + Z.of_nat (length value)) (Z.of_nat (length buffer)));
    [lia|].
  eexists. split; [reflexivity|].
  split; [|split].
  - replace (Z.to_nat (ceil8 c + Z.of_nat (length value)))
      with (Z.to_nat (ceil8 c) + length value)%nat by lia.
    apply spliced_length. lia.
  - apply spliced_bytes_ok; assumption.
  - intros Hz. split; [|split].
    + intros j Hj. rewrite bit_spliced by lia.
      destruct (Z.ltb_spec j (8 * ceil8 c)); [reflexivity|lia].
    + intros j Hj. rewrite bit_spliced by lia.
      destruct (Z.ltb_spec j (8 * ceil8 c)); [lia|].
      destruct (Z.ltb_spec j (8 * ceil8 c + 8 * Z.of_nat (length value))); [lia|].
      apply Hz. lia.
    + intros j Hj. rewrite bit_spliced by lia.
      destruct (Z.ltb_spec (8 * ceil8 c + j) (8 * ceil8 c)); [lia|].
      destruct (Z.ltb_spec (8 * ceil8 c + j) (8 * ceil8 c + 8 * Z.of_nat (length value)));
        [|lia].
      f_equal. lia.
Qed.

Lemma holds_fields_frame fs :
  Forall (fun f => wf_field f = true -> forall b1 b2 c, 0 <= c ->
            (forall j, 0 <= j < next_cursor c f -> bit b2 j = bit b1 j) ->
            holds b1 c f -> holds b2 c f) fs ->
  forallb wf_field fs = true ->
  forall b1 b2 c, 0 <= c ->
    (forall j, 0 <= j < layout size_in_bits (map type_of fs) c -> bit b2 j = bit b1 j) ->
    holds_fields holds b1 c fs -> holds_fields holds b2 c fs.
Proof.
  induction 1 as [|f fs Hf Hfs IH]; intros Hwf b1 b2 c Hc Hsame Hh;
    cbn [holds_fields] in *; [exact I|].
  cbn [forallb] in Hwf. apply andb_true_iff in Hwf. destruct Hwf as [Hwf1 Hwf2].
  destruct Hh as [Hh1 Hh2].
  pose proof (next_cursor_ge c f Hwf1 Hc) as Hge.
  pose proof (layout_fields_ge fs (next_cursor c f) Hwf2 ltac:(lia)) as Hge2.
  cbn [map layout] in Hsame. fold (next_cursor c f) in Hsame.
  split.
  - apply (Hf Hwf1 b1 b2 c Hc); auto. intros j Hj. apply Hsame. lia.
  - apply (IH Hwf2 b1 b2); auto. lia.
Qed.

Lemma packet_cursor_layout fs c :
  next_cursor c (PacketField fs)
  = 8 * ceil8 (layout size_in_bits (map type_of fs) (8 * ceil8 c)).
Proof.
  unfold next_cursor. cbn [type_of end_of size_in_bits].
  replace (8 * ceil8 c) with (8 * ceil8 c + 0) at 2 by lia.
  rewrite layout_shift, ceil8_shift. lia.
Qed.

(** Later writes above the end of a field do not disturb it. *)
Lemma holds_frame f :
  wf_field f = true -> forall b1 b2 c, 0 <= c ->
  (forall j, 0 <= j < next_cursor c f -> bit b2 j = bit b1 j) ->
  holds b1 c f -> holds b2 c f.
Proof.
  induction f as [v|n v|n v|fs IH] using field_ind';
    intros Hwf b1 b2 c Hc Hsame Hh.
  - cbn [holds] in *. intros j Hj. rewrite <- Hh by lia. apply Hsame.
    pose proof (ceil8_bounds c). unfold next_cursor. cbn [type_of size_in_bits end_of]. lia.
  - cbn [holds] in *. intros j Hj. rewrite <- Hh by lia. apply Hsame.
    unfold next_cursor. cbn [type_of size_in_bits end_of]. lia.
  - cbn [holds] in *. intros j Hj. rewrite <- Hh by lia. apply Hsame.
    unfold next_cursor. cbn [type_of size_in_bits end_of]. lia.
  - cbn [holds] in *. cbn [wf_field] in Hwf.
    pose proof (ceil8_bounds c).
    apply (holds_fields_frame fs IH Hwf b1 b2); auto; try lia.
    intros j Hj. apply Hsame. rewrite packet_cursor_layout.
    pose proof (ceil8_bounds (layout size_in_bits (map type_of fs) (8 * ceil8 c))). lia.
Qed.

Lemma encode_fields_ok fs :
  Forall (fun f => wf_field f = true -> encodes_well f) fs ->
  forallb wf_field fs = true ->
  forall buffer c,
    span_ok buffer -> bytes_ok buffer -> 0 <= c ->
    layout size_in_bits (map type_of fs) c <= 8 * Z.of_nat (length buffer) ->
    exists b',
      encode_packet_fields_recursive encode fs buffer c
        = Some (Success, b', layout size_in_bits (map type_of fs) c) /\
      encode_post buffer b' c (layout size_in_bits (map type_of fs) c)
        (holds_fields holds b' c fs).
Proof.
  induction 1 as [|f fs Hf Hfs IH]; intros Hwf buffer c Hs Hok Hc Hfit.
  - exists buffer. split; [reflexivity|]. cbn [map layout holds_fields].
    split; [reflexivity|]. split; [assumption|]. intros Hz. auto.
  - cbn [forallb] in Hwf. apply andb_true_iff in Hwf. destruct Hwf as [Hwf1 Hwf2].
    cbn [map layout] in *. fold (next_cursor c f) in *.
    pose proof (next_cursor_ge c f Hwf1 Hc) as Hge.
    pose proof (layout_fields_ge fs (next_cursor c f) Hwf2 ltac:(lia)) as Hge2.
    destruct (Hf Hwf1 buffer c) as (b1 & Hrun1 & Hlen1 & Hok1 & Hpost1); auto; try lia.
    destruct (IH Hwf2 b1 (next_cursor c f)) as (b2 & Hrun2 & Hlen2 & Hok2 & Hpost2);
      auto; try lia.
    { unfold span_ok in *. rewrite Hlen1. assumption. }
    exists b2. split.
    { cbn [encode_packet_fields_recursive]. rewrite Hrun1. cbn [obind IsFailure Success].
      exact Hrun2. }
    split; [congruence|]. split; [assumption|].
    intros Hz. destruct (Hpost1 Hz) as (Hk1 & Hz1 & Hh1).
    destruct (Hpost2 Hz1) as (Hk2 & Hz2 & Hh2).
    split; [|split].
    + intros j Hj. rewrite Hk2 by lia. apply Hk1. lia.
    + exact Hz2.
    + cbn [holds_fields]. split; [|exact Hh2].
      apply (holds_frame f Hwf1 b1 b2 c Hc); auto.
Qed.

Lemma zero_from_mono buf c c' : c <= c' -> zero_from buf c -> zero_from buf c'.
Proof. intros H Hz j Hj. apply Hz. lia. Qed.

(** Every well-formed field is encoded successfully wherever it fits. *)
Lemma encode_field_ok f : wf_field f = true -> encodes_well f.
Proof.
  induction f as [v|n v|n v|fs IH] using field_ind';
    intros Hwf buffer c Hs Hok Hc Hfit.
  - cbn [wf_field] in Hwf. apply wf_Field_inv in Hwf. destruct Hwf as [Hlen Hv].
    unfold next_cursor in *. cbn [type_of size_in_bits end_of encode holds] in *.
    apply encode_Field_ok; auto.
  - cbn [wf_field] in Hwf. apply wf_BitField_inv in Hwf. destruct Hwf as (Hn & Hlen & Hv).
    unfold next_cursor in *. cbn [type_of size_in_bits end_of encode holds] in *.
    apply encode_BitField_ok; auto; lia.
  - cbn [wf_field] in Hwf. apply wf_BitField_inv in Hwf. destruct Hwf as (Hn & Hlen & Hv).
    unfold next_cursor in *. cbn [type_of size_in_bits end_of encode holds] in *.
    rewrite encode_ConstBitField_eq.
    apply encode_BitField_ok; auto; lia.
  - pose proof Hwf as Hwfp. cbn [wf_field] in Hwf.
    pose proof (wf_field_type _ Hwfp) as Hwt. cbn [type_of] in Hwt.
    pose proof (size_in_bits_nonneg _ Hwt) as Hnn.
    pose proof (ceil8_bounds c) as Hb.
    assert (Hnext : next_cursor c (PacketField fs)
                    = 8 * ceil8 c + size_in_bits (TPacket (map type_of fs)))
      by reflexivity.
    assert (Hsok : schema_ok (TPacket (map type_of fs))).
    { split; [exact Hwt|]. unfold span_ok in Hs. lia. }
    pose proof (size_in_bits_packet_aligned (map type_of fs)) as Hal.
    cbn [encode]. unfold encode_Packet. cbv zeta.
    rewrite kSizeBytes_size_in_bytes by exact Hsok.
    assert (Hbytes : 0 <= size_in_bytes (TPacket (map type_of fs))) by lia.
    rewrite aligned_guard; auto;
      try (unfold is_size_t, span_ok in *; lia).
    destruct (Z.gtb_spec (ceil8 c + size_in_bytes (TPacket (map type_of fs)))
                         (Z.of_nat (length buffer))); [lia|].
    rewrite bytes_to_contain_ceil by (unfold is_size_t, span_ok in *; lia).
    rewrite bits_to_contain_mul by (unfold span_ok in *; lia).
    pose proof (ceil8_bounds (layout size_in_bits (map type_of fs) (8 * ceil8 c))) as Hb2.
    pose proof (packet_cursor_layout fs c) as Hpl.
    destruct (encode_fields_ok fs IH Hwf buffer (8 * ceil8 c))
      as (b' & Hrun & Hlen & Hok' & Hpost); auto; try lia.
    rewrite Hrun. cbn [obind IsSuccess Success].
    pose proof (layout_fields_ge fs (8 * ceil8 c) Hwf ltac:(lia)) as Hge.
    rewrite next_boundary_ceil by (unfold span_ok in *; lia).
    rewrite <- Hpl.
    exists b'. split; [reflexivity|].
    split; [assumption|]. split; [assumption|].
    intros Hz.
    assert (Hz8 : zero_from buffer (8 * ceil8 c))
      by (apply (zero_from_mono _ c); [lia|exact Hz]).
    destruct (Hpost Hz8) as (Hk & Hz' & Hh).
    split; [|split].
    + intros j Hj. apply Hk. lia.
    + apply (zero_from_mono _ (layout size_in_bits (map type_of fs) (8 * ceil8 c)));
        [lia|exact Hz'].
    + cbn [holds]. exact Hh.
Qed.

End Encoding.

(** ** Decoding a field: success, cursor and what is fetched *)

Section Decoding.

Lemma bit_firstn_skipn buf start n j :
  0 <= start -> 0 <= j < 8 * Z.of_nat n ->
  bit (firstn n (skipn (Z.to_nat start) buf)) j = bit buf (8 * start + j).
Proof.
  intros Hs Hj. unfold bit.
  rewrite nth_firstn.
  assert (0 <= j / 8 < Z.of_nat n) by (Z.to_euclidean_division_equations; lia).
  replace (Z.to_nat (j / 8) <? n)%nat with true
    by (symmetry; apply Nat.ltb_lt; lia).
  rewrite nth_skipn. f_equal.
  - f_equal. Z.to_euclidean_division_equations; lia.
  - Z.to_euclidean_division_equations; lia.
Qed.

Lemma firstn_skipn_bytes_ok buf start n :
  bytes_ok buf -> bytes_ok (firstn n (skipn start buf)).
Proof.
  unfold bytes_ok. intros Hb.
  rewrite <- (firstn_skipn start buf) in Hb. apply Forall_app in Hb.
  destruct Hb as [_ Hb].
  rewrite <- (firstn_skipn n (skipn start buf)) in Hb. apply Forall_app in Hb.
  tauto.
Qed.

Lemma decode_Field_ok v0 buffer c :
  span_ok buffer -> 0 <= c ->
  8 * ceil8 c + 8 * Z.of_nat (length v0) <= 8 * Z.of_nat (length buffer) ->
  exists v',
    decode_value buffer c v0
      = Some (Success, buffer, 8 * ceil8 c + 8 * Z.of_nat (length v0), v') /\
    fetched buffer c (Field v0) (Field v').
Proof.
  intros Hs Hc Hfit.
  pose proof (ceil8_bounds c) as Hb.
  rewrite decode_value_spec by (unfold is_size_t, span_ok in *; lia).
  cbv zeta.
  destruct (Z.gtb_spec (ceil8 c + Z.of_nat (length v0)) (Z.of_nat (length buffer)));
    [lia|].
  eexists. split; [reflexivity|]. cbn [fetched].
  split; [|split].
  - rewrite length_firstn, length_skipn. lia.
  - apply firstn_skipn_bytes_ok.
  - intros j Hj. apply bit_firstn_skipn; lia.
Qed.

Lemma decode_BitField_ok n v0 buffer c :
  0 <= n -> n <= 8 * Z.of_nat (length v0) -> bytes_ok v0 ->
  span_ok buffer -> 0 <= c -> c + n <= 8 * Z.of_nat (length buffer) ->
  exists v',
    decode_BitField n buffer c v0 = Some (Success, buffer, c + n, v') /\
    fetched buffer c (BitField n v0) (BitField n v').
Proof.
  intros Hn Hval Hok Hs Hc Hfit.
  assert (Hlt : c + n < size_t_modulus) by (unfold span_ok in Hs; lia).
  unfold decode_BitField. cbv zeta.
  rewrite bitfield_guard by assumption.
  destruct (Z.gtb_spec (c + n) (8 * Z.of_nat (length buffer))); [lia|].
  destruct (decode_bits_spec v0 buffer c n) as (v' & Hrun & Hlen & Hok' & Hw);
    auto; try lia.
  { unfold is_size_t. lia. }
  rewrite Hrun. cbn [obind].
  rewrite wrap_small by (unfold is_size_t; lia).
  exists v'. split; [reflexivity|]. cbn [fetched]. auto.
Qed.

Lemma decode_fields_ok fs :
  Forall (fun f => wf_field f = true -> decodes_well f) fs ->
  forallb wf_field fs = true ->
  forall buffer c,
    span_ok buffer -> 0 <= c ->
    layout size_in_bits (map type_of fs) c <= 8 * Z.of_nat (length buffer) ->
    exists fs',
      decode_packet_fields_recursive decode buffer c fs
        = Some (Success, buffer, layout size_in_bits (map type_of fs) c, fs') /\
      map type_of fs' = map type_of fs /\
      flat_map const_values fs' = flat_map const_values fs /\
      fetched_fields fetched buffer c fs fs'.
Proof.
  induction 1 as [|f fs Hf Hfs IH]; intros Hwf buffer c Hs Hc Hfit.
  - exists []. cbn. auto.
  - cbn [forallb] in Hwf. apply andb_true_iff in Hwf. destruct Hwf as [Hwf1 Hwf2].
    cbn [map layout] in *. fold (next_cursor c f) in *.
    pose proof (next_cursor_ge c f Hwf1 Hc) as Hge.
    pose proof (layout_fields_ge fs (next_cursor c f) Hwf2 ltac:(lia)) as Hge2.
    destruct (Hf Hwf1 buffer c) as (f' & Hrun1 & Hty1 & Hcv1 & Hft1); auto; try lia.
    destruct (IH Hwf2 buffer (next_cursor c f)) as (fs' & Hrun2 & Hty2 & Hcv2 & Hft2);
      auto; try lia.
    exists (f' :: fs'). split.
    { cbn [decode_packet_fields_recursive]. rewrite Hrun1.
      cbn [obind IsFailure Success]. rewrite Hrun2. reflexivity. }
    cbn [map flat_map fetched_fields]. rewrite Hty1, Hty2, Hcv1, Hcv2. auto.
Qed.

(** Every well-formed object is decoded successfully wherever it fits. *)
Lemma decode_field_ok f : wf_field f = true -> decodes_well f.
Proof.
  induction f as [v|n v|n v|fs IH] using field_ind';
    intros Hwf buffer c Hs Hc Hfit.
  - unfold next_cursor in *. cbn [type_of size_in_bits end_of decode] in *.
    destruct (decode_Field_ok v buffer c) as (v' & Hrun & Hft); auto.
    rewrite Hrun. cbn [obind].
    exists (Field v'). split; [reflexivity|].
    pose proof Hft as Hft'. cbn [fetched] in Hft'. destruct Hft' as (Hlen & _).
    cbn [type_of const_values]. rewrite Hlen. auto.
  - cbn [wf_field] in Hwf. apply wf_BitField_inv in Hwf. destruct Hwf as (Hn & Hlen & Hv).
    unfold next_cursor in *. cbn [type_of size_in_bits end_of decode] in *.
    destruct (decode_BitField_ok n v buffer c) as (v' & Hrun & Hft); auto; try lia.
    rewrite Hrun. cbn [obind].
    exists (BitField n v'). auto.
  - cbn [wf_field] in Hwf. apply wf_BitField_inv in Hwf. destruct Hwf as (Hn & Hlen & Hv).
    unfold next_cursor in *. cbn [type_of size_in_bits end_of decode] in *.
    unfold decode_ConstBitField. cbv zeta. cbn [obind].
    rewrite wrap_small by (unfold is_size_t, span_ok in *; lia).
    exists (ConstBitField n v). cbn [fetched]. auto.
  - pose proof Hwf as Hwfp. cbn [wf_field] in Hwf.
    pose proof (wf_field_type _ Hwfp) as Hwt. cbn [type_of] in Hwt.
    pose proof (size_in_bits_nonneg _ Hwt) as Hnn.
    pose proof (ceil8_bounds c) as Hb.
    assert (Hnext : next_cursor c (PacketField fs)
                    = 8 * ceil8 c + size_in_bits (TPacket (map type_of fs)))
      by reflexivity.
    assert (Hsok : schema_ok (TPacket (map type_of fs))).
    { split; [exact Hwt|]. unfold span_ok in Hs. lia. }
    pose proof (size_in_bits_packet_aligned (map type_of fs)) as Hal.
    cbn [decode]. unfold decode_Packet. cbv zeta.
    rewrite kSizeBytes_size_in_bytes by exact Hsok.
    assert (Hbytes : 0 <= size_in_bytes (TPacket (map type_of fs))) by lia.
    rewrite aligned_guard; auto;
      try (unfold is_size_t, span_ok in *; lia).
    destruct (Z.gtb_spec (ceil8 c + size_in_bytes (TPacket (map type_of fs)))
                         (Z.of_nat (length buffer))); [lia|].
    rewrite bytes_to_contain_ceil by (unfold is_size_t, span_ok in *; lia).
    rewrite bits_to_contain_mul by (unfold span_ok in *; lia).
    pose proof (ceil8_bounds (layout size_in_bits (map type_of fs) (8 * ceil8 c))) as Hb2.
    pose proof (packet_cursor_layout fs c) as Hpl.
    destruct (decode_fields_ok fs IH Hwf buffer (8 * ceil8 c))
      as (fs' & Hrun & Hty & Hcv & Hft); auto; try lia.
    rewrite Hrun. cbn [obind IsSuccess Success].
    pose proof (layout_fields_ge fs (8 * ceil8 c) Hwf ltac:(lia)) as Hge.
    rewrite next_boundary_ceil by (unfold span_ok in *; lia).
    rewrite <- Hpl.
    exists (PacketField fs'). split; [reflexivity|].
    cbn [type_of const_values fetched]. rewrite Hty. auto.
Qed.

End Decoding.

(** ** Round trip at the level of bits *)

Section RoundTrip.

Lemma clear_from_spec n value j :
  clear_from n value = true -> n <= j -> bit value j = false.
Proof.
  intros H Hj.
  destruct (Z_lt_dec j (8 * Z.of_nat (length value))) as [Hlt|Hge].
  - unfold clear_from in H. rewrite forallb_forall in H.
    specialize (H j). apply negb_true_iff. apply H.
    unfold positions_from. apply in_map_iff.
    exists (Z.to_nat (j - n)). split; [lia|].
    apply in_seq. lia.
  - apply bit_beyond. lia.
Qed.

Lemma same_type_cursor c f f0 :
  type_of f = type_of f0 -> next_cursor c f = next_cursor c f0.
Proof. unfold next_cursor. intros ->. reflexivity. Qed.

Lemma fetched_fields_same fs :
  Forall (fun f => wf_field f = true -> fits f = true ->
            forall f0 f' buffer c,
              wf_field f0 = true -> blank_above f0 = true ->
              type_of f = type_of f0 -> bytes_ok buffer -> 0 <= c ->
              holds buffer c f -> fetched buffer c f0 f' -> same_value f f') fs ->
  forallb wf_field fs = true -> forallb fits fs = true ->
  forall fs0 fs' buffer c,
    forallb wf_field fs0 = true -> forallb blank_above fs0 = true ->
    map type_of fs = map type_of fs0 -> bytes_ok buffer -> 0 <= c ->
    holds_fields holds buffer c fs -> fetched_fields fetched buffer c fs0 fs' ->
    same_fields same_value fs fs'.
Proof.
  induction 1 as [|f fs Hf Hfs IH];
    intros Hwf Hfit fs0 fs' buffer c Hwf0 Hbl Hty Hok Hc Hh Hft.
  - destruct fs0 as [|f0 fs0]; [|discriminate].
    destruct fs' as [|f' fs']; [exact I|contradiction].
  - destruct fs0 as [|f0 fs0]; [discriminate|].
    destruct fs' as [|f' fs']; [contradiction|].
    cbn [forallb] in *.
    apply andb_true_iff in Hwf. destruct Hwf as [Hwf1 Hwf2].
    apply andb_true_iff in Hfit. destruct Hfit as [Hfit1 Hfit2].
    apply andb_true_iff in Hwf0. destruct Hwf0 as [Hwf01 Hwf02].
    apply andb_true_iff in Hbl. destruct Hbl as [Hbl1 Hbl2].
    cbn [map] in Hty. injection Hty as Hty1 Hty2.
    cbn [holds_fields] in Hh. destruct Hh as [Hh1 Hh2].
    cbn [fetched_fields] in Hft. destruct Hft as [Hft1 Hft2].
    cbn [same_fields]. split.
    + apply (Hf Hwf1 Hfit1 f0 f' buffer c); auto.
    + rewrite <- (same_type_cursor c f f0 Hty1) in Hft2.
      apply (IH Hwf2 Hfit2 fs0 fs' buffer (next_cursor c f)); auto.
      pose proof (next_cursor_ge c f Hwf1 Hc). lia.
Qed.

(** What is fetched from a stream that holds [f], into a blank object of the
    type of [f], is [f] again as far as its values fit their widths. *)
Lemma fetched_same f :
  wf_field f = true -> fits f = true ->
  forall f0 f' buffer c,
    wf_field f0 = true -> blank_above f0 = true ->
    type_of f = type_of f0 -> bytes_ok buffer -> 0 <= c ->
    holds buffer c f -> fetched buffer c f0 f' -> same_value f f'.
Proof.
  induction f as [v|n v|n v|fs IH] using field_ind';
    intros Hwf Hfit f0 f' buffer c Hwf0 Hbl Hty Hok Hc Hh Hft;
    destruct f0 as [v0|n0 v0|n0 v0|fs0]; try discriminate;
    destruct f' as [v'|n' v'|n' v'|fs']; try contradiction.
  - cbn [type_of] in Hty. injection Hty as Hty.
    cbn [wf_field] in Hwf. apply wf_Field_inv in Hwf. destruct Hwf as [_ Hv].
    cbn [holds] in Hh. cbn [fetched] in Hft. destruct Hft as (Hlen & Hok' & Hbits).
    cbn [same_value]. apply bit_ext; auto.
    + lia.
    + intros j Hj. rewrite Hbits by lia. symmetry. apply Hh. lia.
  - cbn [type_of] in Hty. injection Hty as Hty. subst n0.
    cbn [wf_field] in Hwf, Hwf0.
    assert (Hl : length v = length v0).
    { apply andb_true_iff in Hwf. destruct Hwf as [Hwf _].
      apply andb_true_iff in Hwf. destruct Hwf as [_ Hwf].
      apply andb_true_iff in Hwf0. destruct Hwf0 as [Hwf0 _].
      apply andb_true_iff in Hwf0. destruct Hwf0 as [_ Hwf0].
      apply Z.eqb_eq in Hwf, Hwf0. lia. }
    apply wf_BitField_inv in Hwf. destruct Hwf as (Hn & Hlen & Hv).
    cbn [holds] in Hh. cbn [fetched] in Hft. destruct Hft as (-> & Hlen' & Hok' & Hbits).
    cbn [fits] in Hfit. cbn [blank_above] in Hbl.
    cbn [same_value]. split; [reflexivity|]. apply bit_ext; auto.
    + lia.
    + intros j Hj. rewrite Hbits by lia.
      pose proof (ceil8_bounds n) as Hb.
      destruct (Z.leb_spec (8 * 0) j); [|lia].
      destruct (Z.ltb_spec j (8 * (0 + ceil8 n))); cbn [andb].
      * destruct (Z.ltb_spec j (8 * 0 + n)).
        -- rewrite <- Hh by lia. f_equal; lia.
        -- apply (clear_from_spec n v j); auto; lia.
      * rewrite (clear_from_spec (8 * ceil8 n) v0 j) by (auto; lia).
        apply (clear_from_spec n v j); auto; lia.
  - cbn [type_of] in Hty. injection Hty as Hty. subst n0.
    cbn [fetched] in Hft. destruct Hft as (-> & _). reflexivity.
  - cbn [type_of] in Hty. injection Hty as Hty.
    cbn [wf_field fits blank_above holds fetched same_value] in *.
    pose proof (ceil8_bounds c).
    apply (fetched_fields_same fs IH Hwf Hfit fs0 fs' buffer (8 * ceil8 c)); auto. lia.
Qed.

Lemma decode_PacketField buffer c p :
  decode buffer c (PacketField p) =
  (do (result, buffer', offset_bits, m_fields) <- decode_packet buffer c p;
   Some (result, buffer', offset_bits, PacketField m_fields)).
Proof. reflexivity. Qed.

End RoundTrip.

(** ** The packet codec: the entry guard decides *)

Section PacketCodec.

Variable p : list field.
Variable buffer : list Z.
Variable c : Z.

Hypothesis p_wf : forallb wf_field p = true.
Hypothesis p_schema : schema_ok (TPacket (map type_of p)).
Hypothesis buffer_span : span_ok buffer.
Hypothesis c_size_t : is_size_t c.

Lemma packet_guard :
  (wrap (math.bytes_to_contain c + kSizeBytes (map type_of p)) >? Span_size buffer)
  = (ceil8 c + size_in_bytes (TPacket (map type_of p)) >? Z.of_nat (length buffer)).
Proof.
  rewrite kSizeBytes_size_in_bytes by exact p_schema.
  destruct p_schema as [Hwt Hlt].
  pose proof (size_in_bits_nonneg _ Hwt).
  pose proof (size_in_bits_packet_aligned (map type_of p)).
  apply aligned_guard; auto; lia.
Qed.

Lemma packet_cursor_fits :
  ceil8 c + size_in_bytes (TPacket (map type_of p)) <= Z.of_nat (length buffer) ->
  next_cursor c (PacketField p) <= 8 * Z.of_nat (length buffer).
Proof.
  intros H. unfold next_cursor. cbn [type_of end_of].
  rewrite size_in_bits_packet_aligned. lia.
Qed.

Lemma packet_cursor_value :
  ceil8 c + size_in_bytes (TPacket (map type_of p)) <= Z.of_nat (length buffer) ->
  next_cursor c (PacketField p)
  = math.next_boundary_bit_pos c + packet_size_bits (map type_of p).
Proof.
  intros H. destruct p_schema as [Hwt Hlt].
  pose proof (size_in_bits_nonneg _ Hwt).
  pose proof (size_in_bits_packet_aligned (map type_of p)).
  unfold packet_size_bits. rewrite kSizeBits_size_in_bits by assumption.
  unfold is_size_t in c_size_t. unfold span_ok in buffer_span.
  rewrite next_boundary_ceil by lia. reflexivity.
Qed.

(** The packet encoder fails exactly when its entry guard does, and then it
    has not touched the buffer. *)
Lemma encode_packet_cases :
  bytes_ok buffer ->
  if ceil8 c + size_in_bytes (TPacket (map type_of p)) >? Z.of_nat (length buffer)
  then encode_packet p buffer c = Some (Failure, buffer, c)
  else exists b',
         encode_packet p buffer c
           = Some (Success, b', next_cursor c (PacketField p)) /\
         encode_post buffer b' c (next_cursor c (PacketField p))
           (holds b' c (PacketField p)).
Proof.
  intros Hok.
  destruct (Z.gtb_spec (ceil8 c + size_in_bytes (TPacket (map type_of p)))
                       (Z.of_nat (length buffer))) as [Hgt|Hle].
  - unfold encode_packet. cbn [encode]. unfold encode_Packet. cbv zeta.
    rewrite packet_guard.
    destruct (Z.gtb_spec (ceil8 c + size_in_bytes (TPacket (map type_of p)))
                         (Z.of_nat (length buffer))); [reflexivity|lia].
  - unfold encode_packet.
    apply (encode_field_ok (PacketField p)); auto.
    + unfold is_size_t in c_size_t. lia.
    + apply packet_cursor_fits. exact Hle.
Qed.

Lemma decode_packet_cases :
  if ceil8 c + size_in_bytes (TPacket (map type_of p)) >? Z.of_nat (length buffer)
  then decode_packet buffer c p = Some (Failure, buffer, c, p)
  else exists p',
         decode_packet buffer c p
           = Some (Success, buffer, next_cursor c (PacketField p), p') /\
         map type_of p' = map type_of p /\
         fetched buffer c (PacketField p) (PacketField p').
Proof.
  destruct (Z.gtb_spec (ceil8 c + size_in_bytes (TPacket (map type_of p)))
                       (Z.of_nat (length buffer))) as [Hgt|Hle].
  - unfold decode_packet, decode_Packet. cbv zeta.
    rewrite packet_guard.
    destruct (Z.gtb_spec (ceil8 c + size_in_bytes (TPacket (map type_of p)))
                         (Z.of_nat (length buffer))); [reflexivity|lia].
  - destruct (decode_field_ok (PacketField p) p_wf buffer c)
      as (f' & Hrun & Hty & _ & Hft); auto.
    + unfold is_size_t in c_size_t. lia.
    + apply packet_cursor_fits. exact Hle.
    + rewrite decode_PacketField in Hrun.
      destruct (decode_packet buffer c p) as [[[[r b] c'] p']|]; [|discriminate].
      cbn [obind] in Hrun. injection Hrun as -> -> -> <-.
      exists p'. split; [reflexivity|]. split; [|exact Hft].
      cbn [type_of] in Hty. injection Hty as Hty. exact Hty.
Qed.

End PacketCodec.

(** ** Decoders never write the stream nor a [ConstBitField] *)

Section ConstFrame.

Lemma const_kept_refl f : const_kept f f.
Proof.
  induction f as [v|n v|n v|fs IH] using field_ind'; cbn [const_kept]; auto.
  induction IH as [|f fs Hf _ IHfs]; cbn [same_fields]; auto.
Qed.

Lemma const_kept_fields_refl fs : same_fields const_kept fs fs.
Proof. apply (const_kept_refl (PacketField fs)). Qed.

Lemma decode_value_keeps buffer c obj r b' c' obj' :
  decode_value buffer c obj = Some (r, b', c', obj') -> b' = buffer.
Proof.
  unfold decode_value. cbv zeta.
  destruct (_ >? _); [intros H; injection H; auto|].
  destruct (mem.memcpy_from _ _ _ _); cbn [obind]; [|discriminate].
  intros H; injection H; auto.
Qed.

Lemma decode_BitField_keeps n buffer c v r b' c' v' :
  decode_BitField n buffer c v = Some (r, b', c', v') -> b' = buffer.
Proof.
  unfold decode_BitField. cbv zeta.
  destruct (_ >? _); [intros H; injection H; auto|].
  destruct (detail.decode_bits _ _ _ _); cbn [obind]; [|discriminate].
  intros H; injection H; auto.
Qed.

Lemma decode_fields_keep fs :
  Forall (fun f => forall buffer c r b' c' f',
            decode buffer c f = Some (r, b', c', f') ->
            b' = buffer /\ const_kept f f') fs ->
  forall buffer c r b' c' fs',
    decode_packet_fields_recursive decode buffer c fs = Some (r, b', c', fs') ->
    b' = buffer /\ same_fields const_kept fs fs'.
Proof.
  induction 1 as [|f fs Hf _ IH]; intros buffer c r b' c' fs' Hrun.
  - cbn in Hrun. injection Hrun as <- <- <- <-. cbn. auto.
  - cbn [decode_packet_fields_recursive] in Hrun.
    destruct (decode buffer c f) as [[[[r1 b1] c1] f1]|] eqn:E1; [|discriminate].
    apply Hf in E1. destruct E1 as [-> Hk1]. cbn [obind] in Hrun.
    destruct (IsFailure r1).
    + injection Hrun as <- <- <- <-. split; [reflexivity|].
      cbn [same_fields]. split; [exact Hk1|apply const_kept_fields_refl].
    + destruct (decode_packet_fields_recursive decode buffer c1 fs)
        as [[[[r2 b2] c2] fs2]|] eqn:E2; [|discriminate].
      apply IH in E2. destruct E2 as [-> Hk2].
      cbn [obind] in Hrun. injection Hrun as <- <- <- <-.
      cbn [same_fields]. auto.
Qed.

(** Whatever a decoder returns, the stream is as it was and every
    [ConstBitField] of the object holds its value. *)
Lemma decode_keeps f :
  forall buffer c r b' c' f',
    decode buffer c f = Some (r, b', c', f') ->
    b' = buffer /\ const_kept f f'.
Proof.
  induction f as [v|n v|n v|fs IH] using field_ind';
    intros buffer c r b' c' f' Hrun; cbn [decode] in Hrun.
  - destruct (decode_value buffer c v) as [[[[r1 b1] c1] v1]|] eqn:E; [|discriminate].
    apply decode_value_keeps in E. cbn [obind] in Hrun.
    injection Hrun as <- <- <- <-. cbn. auto.
  - destruct (decode_BitField n buffer c v) as [[[[r1 b1] c1] v1]|] eqn:E; [|discriminate].
    apply decode_BitField_keeps in E. cbn [obind] in Hrun.
    injection Hrun as <- <- <- <-. cbn. auto.
  - unfold decode_ConstBitField in Hrun. cbv zeta in Hrun. cbn [obind] in Hrun.
    injection Hrun as <- <- <- <-. cbn. auto.
  - unfold decode_Packet in Hrun. cbv zeta in Hrun.
    destruct (_ >? _).
    + cbn [obind] in Hrun. injection Hrun as <- <- <- <-.
      split; [reflexivity|]. apply const_kept_refl.
    + destruct (decode_packet_fields_recursive decode buffer _ fs)
        as [[[[r1 b1] c1] fs1]|] eqn:E; [|discriminate].
      apply (decode_fields_keep fs IH) in E. destruct E as [-> Hk].
      cbn [obind] in Hrun. injection Hrun as <- <- <- <-.
      cbn [const_kept]. auto.
Qed.

End ConstFrame.

(** * The claims *)

(** ** Cursor discipline *)

Section CursorOnFailure.

(** C3. Whenever an encoder or a decoder returns failure, the caller's
    cursor is what it was on entry.  [f] ranges over every field kind: an
    aligned value ([Field]), a [BitField], a [ConstBitField] and a (nested or
    top-level) packet; no assumption is made on the field, the buffer or the
    cursor. *)
Theorem failure_leaves_cursor (f : field) (buffer : list Z) (offset_bits : Z) :
  (forall r b' c',
     encode f buffer offset_bits = Some (r, b', c') ->
     IsFailure r = true -> c' = offset_bits) /\
  (forall r b' c' f',
     decode buffer offset_bits f = Some (r, b', c', f') ->
     IsFailure r = true -> c' = offset_bits).
Proof.
  split.
  - intros r b' c' Hrun Hfail. destruct f as [v|n v|n v|fs]; cbn [encode] in Hrun.
    + unfold encode_value in Hrun. cbv zeta in Hrun.
      destruct (_ >? _); [injection Hrun as <- <- <-; reflexivity|].
      destruct (mem.memcpy_to _ _ _ _); cbn [obind] in Hrun; [|discriminate].
      injection Hrun as <- <- <-. discriminate.
    + unfold encode_BitField in Hrun. cbv zeta in Hrun.
      destruct (_ >? _); [injection Hrun as <- <- <-; reflexivity|].
      destruct (detail.encode_bits _ _ _ _); cbn [obind] in Hrun; [|discriminate].
      injection Hrun as <- <- <-. discriminate.
    + unfold encode_ConstBitField in Hrun. cbv zeta in Hrun.
      destruct (_ >? _); [injection Hrun as <- <- <-; reflexivity|].
      destruct (detail.encode_bits _ _ _ _); cbn [obind] in Hrun; [|discriminate].
      injection Hrun as <- <- <-. discriminate.
    + unfold encode_Packet in Hrun. cbv zeta in Hrun.
      destruct (_ >? _); [injection Hrun as <- <- <-; reflexivity|].
      destruct (encode_packet_fields_recursive encode fs buffer _)
        as [[[r1 b1] c1]|]; cbn [obind] in Hrun; [|discriminate].
      injection Hrun as <- <- <-. destruct r1; [discriminate|reflexivity].
  - intros r b' c' f' Hrun Hfail. destruct f as [v|n v|n v|fs]; cbn [decode] in Hrun.
    + unfold decode_value in Hrun. cbv zeta in Hrun.
      destruct (_ >? _); cbn [obind] in Hrun;
        [injection Hrun as <- <- <- <-; reflexivity|].
      destruct (mem.memcpy_from _ _ _ _); cbn [obind] in Hrun; [|discriminate].
      injection Hrun as <- <- <- <-. discriminate.
    + unfold decode_BitField in Hrun. cbv zeta in Hrun.
      destruct (_ >? _); cbn [obind] in Hrun;
        [injection Hrun as <- <- <- <-; reflexivity|].
      destruct (detail.decode_bits _ _ _ _); cbn [obind] in Hrun; [|discriminate].
      injection Hrun as <- <- <- <-. discriminate.
    + unfold decode_ConstBitField in Hrun. cbv zeta in Hrun. cbn [obind] in Hrun.
      injection Hrun as <- <- <- <-. discriminate.
    + unfold decode_Packet in Hrun. cbv zeta in Hrun.
      destruct (_ >? _); cbn [obind] in Hrun;
        [injection Hrun as <- <- <- <-; reflexivity|].
      destruct (decode_packet_fields_recursive decode buffer _ fs)
        as [[[[r1 b1] c1] fs1]|]; cbn [obind] in Hrun; [|discriminate].
      injection Hrun as <- <- <- <-. destruct r1; [discriminate|reflexivity].
Qed.

(** A [uint32_t] does not fit in the byte left of a two-byte buffer (the test
    [Encode.avoids_overflow]), and a [BitField<14>] does not fit at bit 3 of
    it: both calls fail and the cursor stays. *)
Lemma failure_leaves_cursor_witness :
  (exists r b' c',
     encode (Field [255; 255; 255; 255]) [255; 0] 8 = Some (r, b', c') /\
     IsFailure r = true /\ c' = 8) /\
  (exists r b' c' f',
     decode [255; 0] 3 (BitField 14 [0; 0]) = Some (r, b', c', f') /\
     IsFailure r = true /\ c' = 3).
Proof.
  split.
  - exists Failure, [255; 0], 8. split; [reflexivity|]. split; [reflexivity|].
    apply (proj1 (failure_leaves_cursor (Field [255; 255; 255; 255]) [255; 0] 8)
             Failure [255; 0] 8); reflexivity.
  - exists Failure, [255; 0], 3, (BitField 14 [0; 0]).
    split; [reflexivity|]. split; [reflexivity|].
    apply (proj2 (failure_leaves_cursor (BitField 14 [0; 0]) [255; 0] 3)
             Failure [255; 0] 3 (BitField 14 [0; 0])); reflexivity.
Defined.

End CursorOnFailure.

(** ** The single-value codec *)

Section SingleValueClaim.

(** C5. [encode<T>] and [decode<T>] for a value of an arithmetic or pointer
    type [T], given by its object representation [obj] of [sizeof(T)] bytes:
    with [start_byte = ceil (c / 8)], the call fails, leaving buffer, cursor
    and object as they were, exactly when
    [start_byte + size_in_bytes(T) > buffer.size()]; otherwise the encoder
    overwrites the [sizeof(T)] cells from [start_byte] on with [obj] and nothing
    else, the decoder reads these cells into the object, and both set the
    cursor to [8 * start_byte + size_in_bits(T)] and succeed. *)
Theorem single_value_codec (obj : list Z) (buffer : list Z) (c : Z) :
  is_size_t c -> span_ok buffer -> 8 * Z.of_nat (length obj) < size_t_modulus ->
  let start_byte := ceil8 c in
  let n := Z.of_nat (length obj) in
  math.bytes_to_contain c = start_byte /\
  footprint_size_bytes n = n /\ footprint_size_bits n = 8 * n /\
  encode_value obj buffer c =
    Some (if start_byte + n >? Span_size buffer
          then (Failure, buffer, c)
          else (Success,
                firstn (Z.to_nat start_byte) buffer ++ obj
                  ++ skipn (Z.to_nat (start_byte + n)) buffer,
                8 * start_byte + 8 * n)) /\
  decode_value buffer c obj =
    Some (if start_byte + n >? Span_size buffer
          then (Failure, buffer, c, obj)
          else (Success, buffer, 8 * start_byte + 8 * n,
                firstn (length obj) (skipn (Z.to_nat start_byte) buffer))).
Proof.
  intros Hc Hs Hobj start_byte n.
  rewrite Span_size_length by assumption.
  split; [apply bytes_to_contain_ceil; assumption|].
  split; [apply footprint_size_bytes_sizeof; unfold n; lia|].
  split; [apply footprint_size_bits_sizeof; unfold n; lia|].
  split.
  - apply encode_value_spec; assumption.
  - apply decode_value_spec; assumption.
Qed.

(** The test [Encode.at_offset]: a [uint8_t] encoded at cursor 3 of a
    two-byte buffer lands in the second byte, the cursor becomes 16. *)
Lemma single_value_codec_witness :
  encode_value [255] [0; 0] 3 = Some (Success, [0; 255], 16) /\
  decode_value [0; 255] 3 [0] = Some (Success, [0; 255], 16, [255]).
Proof.
  destruct (single_value_codec [255] [0; 0] 3) as (_ & _ & _ & He & _);
    [vm_compute; split; [discriminate|reflexivity] | reflexivity | reflexivity |].
  destruct (single_value_codec [0] [0; 255] 3) as (_ & _ & _ & _ & Hd);
    [vm_compute; split; [discriminate|reflexivity] | reflexivity | reflexivity |].
  split; [exact He | exact Hd].
Defined.

End SingleValueClaim.

(** ** [ConstBitField] under the decoder *)

Section ConstBitFieldClaims.

(** C6. Decoding a [ConstBitField<N>] leaves its stored value and the source
    buffer as they are and adds [N] to the cursor (in [size_t] arithmetic);
    this holds for the stand-alone call, for the field met inside a packet
    (the recursion goes on with the rest of the fields at the advanced
    cursor), and, whatever a decoder of any field or packet returns, success or
    failure, the buffer and every [ConstBitField] of the object are
    unchanged. *)
Theorem const_bitfield_decode_is_skip :
  (forall N value buffer c,
     decode buffer c (ConstBitField N value)
       = Some (Success, buffer, wrap (c + N), ConstBitField N value) /\
     (is_size_t (c + N) -> wrap (c + N) = c + N)) /\
  (forall N value rest buffer c,
     decode_packet_fields_recursive decode buffer c (ConstBitField N value :: rest)
     = (do (result, buffer', c', rest') <-
          decode_packet_fields_recursive decode buffer (wrap (c + N)) rest;
        Some (result, buffer', c', ConstBitField N value :: rest'))) /\
  (forall f buffer c r b' c' f',
     decode buffer c f = Some (r, b', c', f') ->
     b' = buffer /\ const_kept f f').
Proof.
  split; [|split].
  - intros N value buffer c. split; [reflexivity|]. apply wrap_small.
  - intros N value rest buffer c. reflexivity.
  - intros f. apply decode_keeps.
Qed.

(** A packet [ConstBitField<4>; BitField<4>] decoded from the byte [0xA5]:
    the reserved field keeps its stored 3, the other receives the high
    nibble. *)
Lemma const_bitfield_decode_is_skip_witness :
  decode [0xA5] 0 (PacketField [ConstBitField 4 [3]; BitField 4 [0]])
    = Some (Success, [0xA5], 8, PacketField [ConstBitField 4 [3]; BitField 4 [0xA]]) /\
  ([0xA5] = [0xA5] /\
   const_kept (PacketField [ConstBitField 4 [3]; BitField 4 [0]])
              (PacketField [ConstBitField 4 [3]; BitField 4 [0xA]])) /\
  wrap (0 + 4) = 0 + 4.
Proof.
  split; [reflexivity|]. split.
  - apply (proj2 (proj2 const_bitfield_decode_is_skip)
             (PacketField [ConstBitField 4 [3]; BitField 4 [0]]) [0xA5] 0
             Success [0xA5] 8). reflexivity.
  - apply (proj1 const_bitfield_decode_is_skip 4 [3] [0xA5] 0).
    vm_compute. split; [discriminate|reflexivity].
Defined.

(** C8. Stand-alone [decode] of a [ConstBitField<N>] succeeds and adds [N] to
    the cursor (in [size_t] arithmetic) for every buffer and every cursor:
    the buffer is not consulted, so the result is the one obtained on the
    empty buffer.  A [BitField<N>] decoded where fewer than [N] bits remain is
    refused by its guard. *)
Theorem const_bitfield_decode_unchecked (N : Z) (value : list Z) (buffer : list Z) (c : Z) :
  decode_ConstBitField N buffer c value = Some (Success, buffer, wrap (c + N), value) /\
  decode_ConstBitField N [] c value = Some (Success, [], wrap (c + N), value) /\
  (is_size_t (c + N) -> wrap (c + N) = c + N) /\
  (span_ok buffer -> 0 <= c -> 0 <= N -> is_size_t (c + N) ->
   8 * Z.of_nat (length buffer) < c + N ->
   decode_BitField N buffer c value = Some (Failure, buffer, c, value)).
Proof.
  split; [reflexivity|]. split; [reflexivity|]. split; [apply wrap_small|].
  intros Hs Hc HN Hsz Hshort. unfold decode_BitField. cbv zeta.
  unfold is_size_t in Hsz.
  rewrite bitfield_guard by (auto; lia).
  destruct (Z.gtb_spec (c + N) (8 * Z.of_nat (length buffer))); [reflexivity|lia].
Qed.

(** One byte of buffer, cursor at bit 5, sixteen bits asked for. *)
Lemma const_bitfield_decode_unchecked_witness :
  decode_ConstBitField 16 [0xFF] 5 [0x34; 0x12] = Some (Success, [0xFF], 21, [0x34; 0x12]) /\
  decode_BitField 16 [0xFF] 5 [0x34; 0x12] = Some (Failure, [0xFF], 5, [0x34; 0x12]).
Proof.
  destruct (const_bitfield_decode_unchecked 16 [0x34; 0x12] [0xFF] 5)
    as (H1 & _ & _ & H4).
  split; [exact H1|].
  apply H4; vm_compute; try (split; [discriminate|reflexivity]);
    try discriminate; reflexivity.
Defined.

End ConstBitFieldClaims.

(** ** The packet codec *)

Section PacketClaims.

(** The claim fails as written: a one-bit packet encoded from cursor 3 of a
    two-byte buffer succeeds and returns cursor 16, so the cursor moved by 13
    bits, not by the 8 bits of the packet. *)
Lemma cursor_delta_counterexample :
  encode_packet [BitField 1 [1]] [0; 0] 3 = Some (Success, [0; 1], 16) /\
  packet_size_bits (map type_of [BitField 1 [1]]) = 8 /\
  16 - 3 <> packet_size_bits (map type_of [BitField 1 [1]]).
Proof. vm_compute. repeat split; discriminate. Qed.

(** C2, amended. When a packet-level [encode] or [decode] succeeds, the
    cursor it returns is the next byte boundary of the entry cursor plus
    [size_in_bits(Packet)], and it is a multiple of 8; from a byte-aligned
    entry cursor the cursor therefore moves by exactly
    [size_in_bits(Packet)]. *)
Theorem success_cursor (p : list field) (buffer : list Z) (c : Z) :
  forallb wf_field p = true -> schema_ok (TPacket (map type_of p)) ->
  span_ok buffer -> bytes_ok buffer -> is_size_t c ->
  (forall r b' c',
     encode_packet p buffer c = Some (r, b', c') -> IsSuccess r = true ->
     c' = math.next_boundary_bit_pos c + packet_size_bits (map type_of p) /\
     c' mod 8 = 0 /\
     (c mod 8 = 0 -> c' - c = packet_size_bits (map type_of p))) /\
  (forall r b' c' p',
     decode_packet buffer c p = Some (r, b', c', p') -> IsSuccess r = true ->
     c' = math.next_boundary_bit_pos c + packet_size_bits (map type_of p) /\
     c' mod 8 = 0 /\
     (c mod 8 = 0 -> c' - c = packet_size_bits (map type_of p))).
Proof.
  intros Hwf Hsok Hs Hok Hc.
  assert (Hgoal : forall c',
    ceil8 c + size_in_bytes (TPacket (map type_of p)) <= Z.of_nat (length buffer) ->
    c' = next_cursor c (PacketField p) ->
    c' = math.next_boundary_bit_pos c + packet_size_bits (map type_of p) /\
    c' mod 8 = 0 /\
    (c mod 8 = 0 -> c' - c = packet_size_bits (map type_of p))).
  { intros c' Hle ->.
    pose proof (packet_cursor_value p buffer c Hsok Hs Hc Hle) as Hv.
    split; [exact Hv|].
    assert (Hn : next_cursor c (PacketField p)
                 = 8 * ceil8 c + 8 * size_in_bytes (TPacket (map type_of p))).
    { unfold next_cursor. cbn [type_of end_of].
      rewrite size_in_bits_packet_aligned. reflexivity. }
    split.
    - rewrite Hn. Z.to_euclidean_division_equations; lia.
    - intros Hal.
      assert (8 * ceil8 c = c)
        by (unfold ceil8; Z.to_euclidean_division_equations; lia).
      unfold packet_size_bits. destruct Hsok as [Hwt Hlt].
      rewrite kSizeBits_size_in_bits by assumption.
      unfold next_cursor. cbn [type_of end_of]. lia. }
  split.
  - intros r b' c' Hrun Hsucc.
    pose proof (encode_packet_cases p buffer c Hwf Hsok Hs Hc Hok) as Hcases.
    destruct (Z.gtb_spec (ceil8 c + size_in_bytes (TPacket (map type_of p)))
                         (Z.of_nat (length buffer))) as [Hgt|Hle].
    + rewrite Hcases in Hrun. injection Hrun as <- <- <-. discriminate.
    + destruct Hcases as (b1 & Hrun1 & _). rewrite Hrun1 in Hrun.
      injection Hrun as <- <- <-. apply Hgoal; auto.
  - intros r b' c' p' Hrun Hsucc.
    pose proof (decode_packet_cases p buffer c Hwf Hsok Hs Hc) as Hcases.
    destruct (Z.gtb_spec (ceil8 c + size_in_bytes (TPacket (map type_of p)))
                         (Z.of_nat (length buffer))) as [Hgt|Hle].
    + rewrite Hcases in Hrun. injection Hrun as <- <- <- <-. discriminate.
    + destruct Hcases as (p1 & Hrun1 & _). rewrite Hrun1 in Hrun.
      injection Hrun as <- <- <- <-. apply Hgoal; auto.
Qed.

(** The one-bit packet again, from cursor 3 and from the aligned cursor 8 of
    a two-byte buffer. *)
Lemma success_cursor_witness :
  (exists r b' c',
     encode_packet [BitField 1 [1]] [0; 0] 3 = Some (r, b', c') /\
     IsSuccess r = true /\
     c' = math.next_boundary_bit_pos 3 + packet_size_bits [TBitField 1] /\
     c' mod 8 = 0) /\
  (exists r b' c' p',
     decode_packet [0; 1] 8 [BitField 1 [0]] = Some (r, b', c', p') /\
     IsSuccess r = true /\ c' - 8 = packet_size_bits [TBitField 1]).
Proof.
  split.
  - exists Success, [0; 1], 16. split; [reflexivity|]. split; [reflexivity|].
    destruct (success_cursor [BitField 1 [1]] [0; 0] 3) as [He _].
    + reflexivity.
    + split; [reflexivity|vm_compute; reflexivity].
    + vm_compute; reflexivity.
    + apply forallb_bytes_ok. reflexivity.
    + vm_compute. split; [discriminate|reflexivity].
    + destruct (He Success [0; 1] 16) as (H1 & H2 & _); [reflexivity|reflexivity|].
      split; assumption.
  - exists Success, [0; 1], 16, [BitField 1 [1]].
    split; [reflexivity|]. split; [reflexivity|].
    destruct (success_cursor [BitField 1 [0]] [0; 1] 8) as [_ Hd].
    + reflexivity.
    + split; [reflexivity|vm_compute; reflexivity].
    + vm_compute; reflexivity.
    + apply forallb_bytes_ok. reflexivity.
    + vm_compute. split; [discriminate|reflexivity].
    + destruct (Hd Success [0; 1] 16 [BitField 1 [1]]) as (_ & _ & H3);
        [reflexivity|reflexivity|].
      apply H3. reflexivity.
Defined.

Lemma layout_app size l1 l2 c :
  layout size (l1 ++ l2) c = layout size l2 (layout size l1 c).
Proof.
  revert c. induction l1 as [|t l1 IH]; intros c; cbn [app layout]; auto.
Qed.

Lemma split_wf pre f post :
  forallb wf_field (pre ++ f :: post) = true ->
  forallb wf_field pre = true /\ wf_field f = true /\ forallb wf_field post = true.
Proof.
  rewrite forallb_app. cbn [forallb]. intros H.
  apply andb_true_iff in H. destruct H as [H1 H2].
  apply andb_true_iff in H2. tauto.
Qed.

Lemma split_layout pre f post c :
  forallb wf_field (pre ++ f :: post) = true -> 0 <= c ->
  let c1 := layout size_in_bits (map type_of pre) c in
  0 <= c1 /\
  next_cursor c1 f <= layout size_in_bits (map type_of (pre ++ f :: post)) c.
Proof.
  intros Hwf Hc c1. apply split_wf in Hwf. destruct Hwf as (Hw1 & Hw2 & Hw3).
  pose proof (layout_fields_ge pre c Hw1 Hc) as H1. fold c1 in H1.
  pose proof (next_cursor_ge c1 f Hw2 ltac:(lia)) as H2.
  pose proof (layout_fields_ge post (next_cursor c1 f) Hw3 ltac:(lia)) as H3.
  rewrite map_app, layout_app. cbn [map layout]. fold c1. fold (next_cursor c1 f).
  lia.
Qed.

(** Once the whole packet fits from cursor [c0], the sub-call for each of its
    fields is reached and succeeds. *)
Lemma encode_subcalls_succeed p buffer c0 :
  forallb wf_field p = true -> span_ok buffer -> bytes_ok buffer -> 0 <= c0 ->
  layout size_in_bits (map type_of p) c0 <= 8 * Z.of_nat (length buffer) ->
  forall pre f post, p = pre ++ f :: post ->
  exists b1 c1 b2 c2,
    encode_packet_fields_recursive encode pre buffer c0 = Some (Success, b1, c1) /\
    encode f b1 c1 = Some (Success, b2, c2).
Proof.
  intros Hwf Hs Hok Hc Hfit pre f post ->.
  destruct (split_layout pre f post c0 Hwf Hc) as [Hc1 Hle].
  apply split_wf in Hwf. destruct Hwf as (Hw1 & Hw2 & Hw3).
  pose proof (next_cursor_ge (layout size_in_bits (map type_of pre) c0) f Hw2 Hc1).
  destruct (encode_fields_ok pre) with (buffer := buffer) (c := c0)
    as (b1 & Hrun1 & Hlen1 & Hok1 & _); auto; try lia.
  { apply Forall_forall. intros g _. apply encode_field_ok. }
  destruct (encode_field_ok f Hw2 b1 (layout size_in_bits (map type_of pre) c0))
    as (b2 & Hrun2 & _); auto; try lia.
  { unfold span_ok in *. rewrite Hlen1. assumption. }
  eauto 8.
Qed.

Lemma decode_subcalls_succeed p buffer c0 :
  forallb wf_field p = true -> span_ok buffer -> 0 <= c0 ->
  layout size_in_bits (map type_of p) c0 <= 8 * Z.of_nat (length buffer) ->
  forall pre f post, p = pre ++ f :: post ->
  exists c1 pre' c2 f',
    decode_packet_fields_recursive decode buffer c0 pre = Some (Success, buffer, c1, pre') /\
    decode buffer c1 f = Some (Success, buffer, c2, f').
Proof.
  intros Hwf Hs Hc Hfit pre f post ->.
  destruct (split_layout pre f post c0 Hwf Hc) as [Hc1 Hle].
  apply split_wf in Hwf. destruct Hwf as (Hw1 & Hw2 & Hw3).
  pose proof (next_cursor_ge (layout size_in_bits (map type_of pre) c0) f Hw2 Hc1).
  destruct (decode_fields_ok pre) with (buffer := buffer) (c := c0)
    as (pre' & Hrun1 & _); auto; try lia.
  { apply Forall_forall. intros g _. apply decode_field_ok. }
  destruct (decode_field_ok f Hw2 buffer (layout size_in_bits (map type_of pre) c0))
    as (f' & Hrun2 & _); auto; try lia.
  eauto 8.
Qed.

(** C7. With [guard] the entry test of the packet codec,
    [ceil (cursor / 8) + size_in_bytes(Packet) > buffer.size()]: when it is
    false, the sub-call for every field is reached and succeeds, and so do
    packet [encode] and [decode]; when it is true, both fail, and [encode]
    returns the buffer exactly as it received it.  Failure is therefore
    decided by the guard alone and is never preceded by a write. *)
Theorem failure_is_upfront (p : list field) (buffer : list Z) (c : Z) :
  forallb wf_field p = true -> schema_ok (TPacket (map type_of p)) ->
  span_ok buffer -> bytes_ok buffer -> is_size_t c ->
  let guard :=
    wrap (math.bytes_to_contain c + kSizeBytes (map type_of p)) >? Span_size buffer in
  let start := math.bits_to_contain (math.bytes_to_contain c) in
  guard = (ceil8 c + size_in_bytes (TPacket (map type_of p)) >? Z.of_nat (length buffer)) /\
  (guard = false ->
     (forall pre f post, p = pre ++ f :: post ->
        exists b1 c1 b2 c2,
          encode_packet_fields_recursive encode pre buffer start = Some (Success, b1, c1) /\
          encode f b1 c1 = Some (Success, b2, c2)) /\
     (forall pre f post, p = pre ++ f :: post ->
        exists c1 pre' c2 f',
          decode_packet_fields_recursive decode buffer start pre
            = Some (Success, buffer, c1, pre') /\
          decode buffer c1 f = Some (Success, buffer, c2, f')) /\
     (exists b' c', encode_packet p buffer c = Some (Success, b', c')) /\
     (exists c' p', decode_packet buffer c p = Some (Success, buffer, c', p'))) /\
  (guard = true ->
     encode_packet p buffer c = Some (Failure, buffer, c) /\
     decode_packet buffer c p = Some (Failure, buffer, c, p)).
Proof.
  intros Hwf Hsok Hs Hok Hc guard start.
  assert (Hg : guard = (ceil8 c + size_in_bytes (TPacket (map type_of p))
                        >? Z.of_nat (length buffer)))
    by (apply packet_guard; assumption).
  split; [exact Hg|].
  pose proof (encode_packet_cases p buffer c Hwf Hsok Hs Hc Hok) as He.
  pose proof (decode_packet_cases p buffer c Hwf Hsok Hs Hc) as Hd.
  rewrite <- Hg in He, Hd.
  split.
  - intros Hpass. rewrite Hpass in He, Hd.
    rewrite Hg in Hpass.
    destruct (Z.gtb_spec (ceil8 c + size_in_bytes (TPacket (map type_of p)))
                         (Z.of_nat (length buffer))) as [|Hle]; [discriminate|].
    pose proof (ceil8_bounds c) as Hb.
    pose proof (packet_cursor_fits p buffer c Hle) as Hfit.
    rewrite packet_cursor_layout in Hfit.
    pose proof (ceil8_bounds (layout size_in_bits (map type_of p) (8 * ceil8 c))) as Hb2.
    assert (Hc0 : 0 <= c) by (unfold is_size_t in Hc; lia).
    pose proof (layout_fields_ge p (8 * ceil8 c) Hwf ltac:(lia)) as Hge.
    assert (Hstart : start = 8 * ceil8 c).
    { unfold start. unfold span_ok in Hs.
      rewrite bytes_to_contain_ceil by assumption.
      apply bits_to_contain_mul; lia. }
    rewrite Hstart.
    split; [|split; [|split]].
    + apply (encode_subcalls_succeed p buffer (8 * ceil8 c)); auto; lia.
    + apply (decode_subcalls_succeed p buffer (8 * ceil8 c)); auto; lia.
    + destruct He as (b' & Hrun & _). eauto.
    + destruct Hd as (p' & Hrun & _). eauto.
  - intros Hfail. rewrite Hfail in He, Hd. split; assumption.
Qed.

(** The loosely packed packet of the test suite, seven bytes long: into
    seven bytes from cursor 0 it goes through, into six it is refused with the
    buffer untouched. *)
Lemma failure_is_upfront_witness :
  let p := [BitField 1 [0]; Field [255]; Field [1]; BitField 14 [0xFF; 0x1F];
            Field [0x5A; 0xA5]] in
  (exists b' c', encode_packet p (mem.zeroed 7) 0 = Some (Success, b', c')) /\
  encode_packet p [1; 2; 3; 4; 5; 6] 0 = Some (Failure, [1; 2; 3; 4; 5; 6], 0).
Proof.
  intros p. split.
  - destruct (failure_is_upfront p (mem.zeroed 7) 0) as (_ & Hpass & _).
    + reflexivity.
    + split; [reflexivity|vm_compute; reflexivity].
    + vm_compute; reflexivity.
    + apply forallb_bytes_ok. reflexivity.
    + vm_compute. split; [discriminate|reflexivity].
    + destruct (Hpass eq_refl) as (_ & _ & He & _). exact He.
  - destruct (failure_is_upfront p [1; 2; 3; 4; 5; 6] 0) as (_ & _ & Hfail).
    + reflexivity.
    + split; [reflexivity|vm_compute; reflexivity].
    + vm_compute; reflexivity.
    + apply forallb_bytes_ok. reflexivity.
    + vm_compute. split; [discriminate|reflexivity].
    + destruct (Hfail eq_refl) as [He _]. exact He.
Defined.

End PacketClaims.

(** ** Round trip *)

Section RoundTripClaim.

(** The claim fails as written: [BitField<3>] stores a [uint8_t], the
    encoder keeps the low three bits of it only, so the stored value [0xFF]
    comes back as [0x07]. *)
Lemma round_trip_counterexample :
  let v := [BitField 3 [0xFF]] in
  let p0 := [BitField 3 [0]] in
  forallb wf_field v = true /\
  encode_packet v (mem.zeroed (kSizeBytes (map type_of v))) 0 = Some (Success, [7], 8) /\
  decode_packet [7] 0 p0 = Some (Success, [7], 8, [BitField 3 [7]]) /\
  ~ same_fields same_value v [BitField 3 [7]].
Proof.
  cbv zeta. split; [reflexivity|]. split; [reflexivity|]. split; [reflexivity|].
  cbn. intros [[_ H] _]. discriminate H.
Qed.

(** C1, amended. Let [v] be a value of a packet schema in which every
    [BitField<N>] holds a value below [2 ^ N], and let [p0] be an object of the
    same schema whose [BitField] storage is clear in the cells the decoder
    does not write (a value-initialised packet).  Encoding [v] into a zeroed
    buffer of [size_in_bytes] bytes from cursor 0 succeeds, decoding that
    buffer into [p0] from cursor 0 succeeds, both return the cursor
    [8 * size_in_bytes], and the decoded packet has the field values of [v],
    [ConstBitField] values left out. *)
Theorem packet_round_trip (v p0 : list field) :
  forallb wf_field v = true -> forallb wf_field p0 = true ->
  map type_of p0 = map type_of v ->
  schema_ok (TPacket (map type_of v)) ->
  forallb fits v = true -> forallb blank_above p0 = true ->
  let n := kSizeBytes (map type_of v) in
  exists buf p',
    encode_packet v (mem.zeroed n) 0 = Some (Success, buf, 8 * n) /\
    decode_packet buf 0 p0 = Some (Success, buf, 8 * n, p') /\
    same_fields same_value v p'.
Proof.
  intros Hwf Hwf0 Hty Hsok Hfit Hbl n.
  assert (Hn : n = size_in_bytes (TPacket (map type_of v)))
    by (apply kSizeBytes_size_in_bytes; exact Hsok).
  pose proof Hsok as [Hwt Hlt].
  pose proof (size_in_bits_nonneg _ Hwt) as Hnn.
  pose proof (size_in_bits_packet_aligned (map type_of v)) as Hal.
  assert (Hn0 : 0 <= n) by lia.
  assert (Hlen : Z.of_nat (length (mem.zeroed n)) = n) by (apply zeroed_length; lia).
  assert (Hs : span_ok (mem.zeroed n)) by (unfold span_ok; lia).
  assert (Hc : is_size_t 0) by (vm_compute; split; [discriminate|reflexivity]).
  assert (Hnext : next_cursor 0 (PacketField v) = 8 * n).
  { unfold next_cursor. cbn [type_of end_of]. change (ceil8 0) with 0. lia. }
  pose proof (encode_packet_cases v (mem.zeroed n) 0 Hwf Hsok Hs Hc
                (zeroed_bytes_ok n)) as He.
  change (ceil8 0) with 0 in He. rewrite <- Hn, Hlen in He.
  destruct (Z.gtb_spec (0 + n) n) as [|_]; [lia|].
  destruct He as (buf & Hrun & Hlen' & Hok' & Hpost).
  destruct (Hpost (zeroed_zero_from n 0)) as (_ & _ & Hh).
  rewrite Hnext in Hrun.
  assert (Hsok0 : schema_ok (TPacket (map type_of p0))) by (rewrite Hty; exact Hsok).
  assert (Hs' : span_ok buf) by (unfold span_ok in *; rewrite Hlen'; exact Hs).
  pose proof (decode_packet_cases p0 buf 0 Hwf0 Hsok0 Hs' Hc) as Hd.
  change (ceil8 0) with 0 in Hd. rewrite Hty, <- Hn, Hlen', Hlen in Hd.
  destruct (Z.gtb_spec (0 + n) n) as [|_]; [lia|].
  destruct Hd as (p' & Hrun' & _ & Hft).
  assert (Hnext0 : next_cursor 0 (PacketField p0) = 8 * n).
  { rewrite <- Hnext. apply same_type_cursor. cbn [type_of]. rewrite Hty. reflexivity. }
  rewrite Hnext0 in Hrun'.
  exists buf, p'. split; [exact Hrun|]. split; [exact Hrun'|].
  apply (fetched_same (PacketField v) Hwf Hfit (PacketField p0) (PacketField p') buf 0);
    auto.
  - cbn [type_of]. rewrite Hty. reflexivity.
  - lia.
Qed.

(** The tightly packed packet of the test suite,
    [uint8_t; BitField<7>; Bit; uint16_t; BitField<20>; BitField<36>], decoded
    into a value-initialised packet. *)
Lemma packet_round_trip_witness :
  let v := [Field [0xA5]; BitField 7 [127]; BitField 1 [0]; Field [0xAA; 0x55];
            BitField 20 [0xBA; 0xDC; 0x0E; 0];
            BitField 36 [0xEF; 0xCD; 0xAB; 0x21; 0x03; 0; 0; 0]] in
  let p0 := [Field [0]; BitField 7 [0]; BitField 1 [0]; Field [0; 0];
             BitField 20 [0; 0; 0; 0]; BitField 36 [0; 0; 0; 0; 0; 0; 0; 0]] in
  exists buf p',
    encode_packet v (mem.zeroed 11) 0 = Some (Success, buf, 88) /\
    decode_packet buf 0 p0 = Some (Success, buf, 88, p') /\
    same_fields same_value v p'.
Proof.
  intros v p0.
  apply (packet_round_trip v p0); try reflexivity.
  split; [reflexivity|vm_compute; reflexivity].
Defined.

End RoundTripClaim.

(** ** Bit packing *)

Section PackingClaim.

Lemma bit_level_cursor f c :
  bit_level f = true -> next_cursor c f = c + width f.
Proof. destruct f; cbn; intros H; try discriminate; reflexivity. Qed.

Lemma bit_level_layout fs : forall c,
  forallb bit_level fs = true ->
  layout size_in_bits (map type_of fs) c = c + total_width fs.
Proof.
  induction fs as [|f fs IH]; intros c H; cbn [map layout total_width fold_right].
  - lia.
  - cbn [forallb] in H. apply andb_true_iff in H. destruct H as [H1 H2].
    fold (next_cursor c f). rewrite bit_level_cursor by assumption.
    rewrite IH by assumption. unfold total_width. lia.
Qed.

Lemma bit_level_holds buf fs : forall c,
  forallb bit_level fs = true ->
  holds_fields holds buf c fs -> packed_at buf c fs.
Proof.
  induction fs as [|f fs IH]; intros c H Hh; cbn [packed_at]; [exact I|].
  cbn [forallb] in H. apply andb_true_iff in H. destruct H as [H1 H2].
  cbn [holds_fields] in Hh. destruct Hh as [Hh1 Hh2].
  rewrite bit_level_cursor in Hh2 by assumption.
  split; [|apply IH; assumption].
  destruct f; try discriminate; exact Hh1.
Qed.

Lemma encode_BitField_bits n v buffer c r b' c' :
  encode_BitField n v buffer c = Some (r, b', c') -> IsSuccess r = true ->
  detail.encode_bits buffer v c n = Some b'.
Proof.
  unfold encode_BitField. cbv zeta.
  destruct (_ >? _); [intros H; injection H as <- <- <-; discriminate|].
  destruct (detail.encode_bits buffer v c n); cbn [obind]; [|discriminate].
  intros H _. injection H as _ <- _. reflexivity.
Qed.

Lemma total_width_nonneg fs :
  forallb bit_level fs = true -> forallb wf_field fs = true -> 0 <= total_width fs.
Proof.
  intros Hb Hwf.
  pose proof (layout_fields_ge fs 0 Hwf ltac:(lia)) as H.
  rewrite bit_level_layout in H by assumption. lia.
Qed.

(** On bit-level fields the recursion of the packet encoder is the
    specification's back-to-back placement. *)
Lemma encode_bit_level fs :
  forallb bit_level fs = true -> forallb wf_field fs = true ->
  forall buffer c,
    span_ok buffer -> bytes_ok buffer -> 0 <= c ->
    c + total_width fs <= 8 * Z.of_nat (length buffer) ->
    exists b',
      place_bits fs buffer c = Some b' /\
      encode_packet_fields_recursive encode fs buffer c
        = Some (Success, b', c + total_width fs).
Proof.
  induction fs as [|f fs IH]; intros Hb Hwf buffer c Hs Hok Hc Hfit.
  - exists buffer. cbn. rewrite Z.add_0_r. auto.
  - cbn [forallb] in Hb, Hwf.
    apply andb_true_iff in Hb. destruct Hb as [Hb1 Hb2].
    apply andb_true_iff in Hwf. destruct Hwf as [Hw1 Hw2].
    pose proof (total_width_nonneg fs Hb2 Hw2) as Hnn.
    cbn [total_width fold_right] in Hfit. fold (total_width fs) in Hfit.
    assert (Hf : exists b1,
      encode f buffer c = Some (Success, b1, c + width f) /\
      detail.encode_bits buffer (storage f) c (width f) = Some b1 /\
      length b1 = length buffer /\ bytes_ok b1 /\ 0 <= width f).
    { destruct f as [v|n v|n v|l]; try discriminate;
        cbn [wf_field] in Hw1; apply wf_BitField_inv in Hw1;
        destruct Hw1 as (Hn & Hlen & Hv); cbn [width storage encode] in *;
        rewrite ?encode_ConstBitField_eq;
        destruct (encode_BitField_ok n v buffer c) as (b1 & Hrun & Hl & Hk & _);
        auto; try lia;
        exists b1; (split; [exact Hrun|]);
        (split; [apply (encode_BitField_bits _ _ _ _ _ _ _ Hrun); reflexivity|]);
        repeat split; auto; lia. }
    destruct Hf as (b1 & Hrun1 & Hbits & Hl1 & Hk1 & Hw).
    destruct (IH Hb2 Hw2 b1 (c + width f)) as (b' & Hplace & Hrun2); auto; try lia.
    { unfold span_ok in *. rewrite Hl1. assumption. }
    exists b'. cbn [place_bits encode_packet_fields_recursive].
    rewrite Hbits, Hrun1. cbn [obind IsFailure Success].
    split; [exact Hplace|]. rewrite Hrun2.
    cbn [total_width fold_right]. fold (total_width fs). f_equal. f_equal. lia.
Qed.

(** C4. For a packet made of bit fields of widths [N1 .. Nk] only, [BitField]
    and [ConstBitField] alike: [size_in_bits(Packet)] is the next byte boundary
    of [N1 + ... + Nk], [size_in_bytes(Packet)] is [ceil ((N1 + ... + Nk) / 8)],
    and [encode] from cursor 0 succeeds exactly when the buffer has that many
    bytes.  A successful encode hands field [i] to the raw bit transfer at
    cursor [N1 + ... + N(i-1)] and returns the cursor at the packet's end: with
    the destination cleared beforehand, the stream carries the [Ni] bits of
    field [i] right after those of field [i - 1], and only clear padding after
    the last one. *)
Theorem bit_fields_are_packed (p : list field) :
  forallb bit_level p = true -> forallb wf_field p = true ->
  schema_ok (TPacket (map type_of p)) ->
  let total := total_width p in
  packet_size_bits (map type_of p) = math.next_boundary_bit_pos total /\
  kSizeBytes (map type_of p) = ceil8 total /\
  forall buffer,
    span_ok buffer -> bytes_ok buffer ->
    (Z.of_nat (length buffer) < ceil8 total ->
     encode_packet p buffer 0 = Some (Failure, buffer, 0)) /\
    (ceil8 total <= Z.of_nat (length buffer) ->
     exists b',
       encode_packet p buffer 0 = Some (Success, b', 8 * ceil8 total) /\
       place_bits p buffer 0 = Some b' /\
       length b' = length buffer /\
       (zero_from buffer 0 -> packed_at b' 0 p /\ zero_from b' total)) /\
    (forall b' c',
       encode_packet p buffer 0 = Some (Success, b', c') ->
       place_bits p buffer 0 = Some b' /\
       c' = 8 * ceil8 total /\
       (zero_from buffer 0 -> packed_at b' 0 p /\ zero_from b' total)).
Proof.
  intros Hb Hwf Hsok total. subst total.
  set (total := total_width p).
  pose proof Hsok as [Hwt Hlt].
  pose proof (total_width_nonneg p Hb Hwf) as Hnn. fold total in Hnn.
  assert (Hbits : size_in_bits (TPacket (map type_of p)) = 8 * ceil8 total).
  { cbn [size_in_bits]. rewrite bit_level_layout by assumption. reflexivity. }
  assert (Hbytes : size_in_bytes (TPacket (map type_of p)) = ceil8 total).
  { unfold size_in_bytes. rewrite Hbits. apply ceil8_aligned. }
  split; [|split].
  - unfold packet_size_bits. rewrite kSizeBits_size_in_bits by assumption.
    rewrite next_boundary_ceil by lia. exact Hbits.
  - rewrite kSizeBytes_size_in_bytes by assumption. exact Hbytes.
  - intros buffer Hs Hok.
    assert (Hc : is_size_t 0) by (vm_compute; split; [discriminate|reflexivity]).
    pose proof (encode_packet_cases p buffer 0 Hwf Hsok Hs Hc Hok) as Hcases.
    change (ceil8 0) with 0 in Hcases. rewrite Hbytes in Hcases.
    assert (Hshort : Z.of_nat (length buffer) < ceil8 total ->
                     encode_packet p buffer 0 = Some (Failure, buffer, 0)).
    { intros Hlen.
      destruct (Z.gtb_spec (0 + ceil8 total) (Z.of_nat (length buffer))) as [_|Hle];
        [exact Hcases|lia]. }
    assert (Hroom : ceil8 total <= Z.of_nat (length buffer) ->
      exists b',
        encode_packet p buffer 0 = Some (Success, b', 8 * ceil8 total) /\
        place_bits p buffer 0 = Some b' /\
        length b' = length buffer /\
        (zero_from buffer 0 -> packed_at b' 0 p /\ zero_from b' total)).
    { intros Hle. clear Hcases.
      pose proof (ceil8_bounds total) as Hcb.
      destruct (encode_bit_level p Hb Hwf buffer 0) as (b1 & Hplace & Hrec);
        auto; try lia.
      destruct (encode_fields_ok p) with (buffer := buffer) (c := 0)
        as (b2 & Hrec2 & Hlen2 & _ & Hpost); auto; try lia.
      { apply Forall_forall. intros g _. apply encode_field_ok. }
      { rewrite bit_level_layout by assumption. lia. }
      rewrite bit_level_layout in Hrec2, Hpost by assumption.
      rewrite Hrec in Hrec2. injection Hrec2 as <-.
      exists b1. split; [|split; [exact Hplace|split; [exact Hlen2|]]].
      - unfold encode_packet. cbn [encode].
        unfold encode_Packet. cbv zeta.
        rewrite packet_guard by assumption.
        change (ceil8 0) with 0. rewrite Hbytes.
        destruct (Z.gtb_spec (0 + ceil8 total) (Z.of_nat (length buffer))); [lia|].
        change (math.bits_to_contain (math.bytes_to_contain 0)) with 0.
        rewrite Hrec. cbn [obind IsSuccess Success].
        rewrite Z.add_0_l. fold total.
        unfold span_ok in Hs.
        rewrite next_boundary_ceil by lia. reflexivity.
      - intros Hz. destruct (Hpost Hz) as (_ & Hz' & Hh).
        rewrite Z.add_0_l in Hz'.
        split; [|exact Hz'].
        apply bit_level_holds; assumption. }
    split; [exact Hshort|]. split; [exact Hroom|].
    intros b' c' Hrun.
    destruct (Z_lt_le_dec (Z.of_nat (length buffer)) (ceil8 total)) as [Hlen|Hlen].
    + rewrite (Hshort Hlen) in Hrun. discriminate.
    + destruct (Hroom Hlen) as (b1 & Hrun1 & Hplace & _ & Hpacked).
      rewrite Hrun1 in Hrun. injection Hrun as <- <-.
      split; [exact Hplace|]. split; [reflexivity|exact Hpacked].
Qed.

(** A sixteen-bit header with a reserved part in the middle,
    [BitField<3>; ConstBitField<7>; BitField<6>] with the values 5, 0x55 and
    0x2A: two bytes, [0xAD 0xAA], the reserved bits lying across the byte
    boundary; one byte is not enough for it. *)
Lemma bit_fields_are_packed_witness :
  let p := [BitField 3 [5]; ConstBitField 7 [0x55]; BitField 6 [0x2A]] in
  kSizeBytes (map type_of p) = 2 /\
  encode_packet p [0] 0 = Some (Failure, [0], 0) /\
  encode_packet p [0; 0] 0 = Some (Success, [0xAD; 0xAA], 16) /\
  place_bits p [0; 0] 0 = Some [0xAD; 0xAA] /\
  packed_at [0xAD; 0xAA] 0 p.
Proof.
  intros p.
  destruct (bit_fields_are_packed p) as (_ & Hbytes & Henc).
  - reflexivity.
  - reflexivity.
  - split; [reflexivity|vm_compute; reflexivity].
  - split; [exact Hbytes|]. split.
    + destruct (Henc [0]) as (Hshort & _).
      * vm_compute; reflexivity.
      * apply forallb_bytes_ok. reflexivity.
      * apply Hshort. vm_compute. reflexivity.
    + destruct (Henc [0; 0]) as (_ & Hroom & _).
      * vm_compute; reflexivity.
      * apply forallb_bytes_ok. reflexivity.
      * destruct Hroom as (b' & Hrun & Hplace & _ & Hpacked);
          [vm_compute; discriminate|].
        assert (Hb : b' = [0xAD; 0xAA]).
        { assert (Hrun' : encode_packet p [0; 0] 0 = Some (Success, [0xAD; 0xAA], 16))
            by (vm_compute; reflexivity).
          rewrite Hrun in Hrun'. injection Hrun' as ->. reflexivity. }
        subst b'.
        split; [exact Hrun|]. split; [exact Hplace|].
        apply Hpacked. apply (zeroed_zero_from 2 0).
Defined.

End PackingClaim.

(** ** The typed adapters *)

Section SessionClaims.

Import ITree.ITree ITree.ITreeFacts ITree.Events.State ITree.Events.StateFacts.
Import session.

Context {St : Type}.

(** [Get] run against any inbound session. *)
Lemma Get_run (I : Inbound St) (data : field) (timeout : Z) (s : St) (calls : list call) :
  let size := footprint_size_bytes_of (type_of data) in
  interp_state (run_inbound I) (Get data timeout) (s, calls) ≈
  Ret (if inbound_available I s <? size
       then ((s, calls), Some (Failure, data))
       else
         let '(s', (request_result, rx)) :=
           inbound_request I (mem.zeroed size) timeout s in
         ((s', calls ++ [(mem.zeroed size, timeout)]),
          if IsFailure request_result then Some (Failure, data)
          else match decode rx 0 data with
               | None => None
               | Some (decode_result, _, _, data') =>
                   Some (if IsSuccess decode_result then Success else Failure, data')
               end)).
Proof.
  intros size. unfold Get. fold size.
  rewrite interp_state_bind, interp_state_trigger.
  cbn [run_inbound]. rewrite bind_ret_l. cbn [fst snd].
  destruct (inbound_available I s <? size).
  - rewrite interp_state_ret. reflexivity.
  - rewrite interp_state_bind, interp_state_trigger. cbn [run_inbound].
    destruct (inbound_request I (mem.zeroed size) timeout s) as [s' [res rx]].
    rewrite bind_ret_l. cbn [fst snd].
    destruct (IsFailure res).
    + rewrite interp_state_ret. reflexivity.
    + destruct (decode rx 0 data) as [[[[r b] c'] d]|];
        rewrite interp_state_ret; reflexivity.
Qed.

(** [Put] run against any outbound session and any clock. *)
Lemma Put_run (O : Outbound St) (clock : nat -> Z) (data : field) (duration : Z)
    (s : St) (ticks : nat) (calls : list call) :
  let size := footprint_size_bytes_of (type_of data) in
  interp_state (run_outbound O clock) (Put data duration) (s, ticks, calls) ≈
  Ret (if outbound_available O s <? size
       then ((s, ticks, calls), Some Failure)
       else
         match encode data (mem.zeroed size) 0 with
         | None => ((s, S ticks, calls), None)
         | Some (encode_result, encoded, _) =>
             if negb (IsSuccess encode_result)
             then ((s, S ticks, calls), Some encode_result)
             else
               let elapsed := clock (S ticks) - clock ticks in
               let passed := if elapsed >? duration then 0 else duration - elapsed in
               let '(s', post_result) := outbound_post O encoded passed s in
               ((s', S (S ticks), calls ++ [(encoded, passed)]),
                Some (if IsSuccess post_result then Success else Failure))
         end).
Proof.
  intros size. unfold Put. fold size.
  rewrite interp_state_bind, interp_state_trigger.
  cbn [run_outbound]. rewrite bind_ret_l. cbn [fst snd].
  destruct (outbound_available O s <? size).
  - rewrite interp_state_ret. reflexivity.
  - rewrite interp_state_bind, interp_state_trigger. cbn [run_outbound].
    rewrite bind_ret_l. cbn [fst snd].
    destruct (encode data (mem.zeroed size) 0) as [[[r encoded] c']|].
    + destruct (negb (IsSuccess r)).
      * rewrite interp_state_ret. reflexivity.
      * rewrite interp_state_bind, interp_state_trigger. cbn [run_outbound].
        rewrite bind_ret_l. cbn [fst snd].
        rewrite interp_state_bind, interp_state_trigger. cbn [run_outbound].
        cbv zeta.
        destruct (outbound_post O encoded _ s) as [s' answer].
        rewrite bind_ret_l. cbn [fst snd].
        rewrite interp_state_ret. reflexivity.
    + rewrite interp_state_ret. reflexivity.
Qed.

(** C9. [Ingress<T>::Get] run against any inbound session.  When the session
    reports fewer bytes than [size_in_bytes(T)], the result is failure, the
    output value is untouched and no [Request] has been made.  Otherwise
    exactly one [Request] is made, with a zeroed buffer of [size_in_bytes(T)]
    bytes and the caller's timeout; the result is failure when the request
    fails, and otherwise that of decoding the received bytes from cursor 0 into
    the output value. *)
Theorem ingress_get (I : Inbound St) (data : field) (timeout : Z)
    (s : St) (calls : list call) :
  let size := footprint_size_bytes_of (type_of data) in
  (inbound_available I s < size ->
   interp_state (run_inbound I) (Get data timeout) (s, calls)
   ≈ Ret ((s, calls), Some (Failure, data))) /\
  (size <= inbound_available I s ->
   forall s' request_result rx,
     inbound_request I (mem.zeroed size) timeout s = (s', (request_result, rx)) ->
     Z.of_nat (length (mem.zeroed size)) = Z.max 0 size /\
     Forall (fun b => b = 0) (mem.zeroed size) /\
     interp_state (run_inbound I) (Get data timeout) (s, calls)
     ≈ Ret ((s', calls ++ [(mem.zeroed size, timeout)]),
            if IsFailure request_result then Some (Failure, data)
            else match decode rx 0 data with
                 | None => None
                 | Some (decode_result, _, _, data') =>
                     Some (if IsSuccess decode_result then Success else Failure, data')
                 end)).
Proof.
  intros size. split.
  - intros Hlt. rewrite Get_run. fold size.
    destruct (Z.ltb_spec (inbound_available I s) size); [reflexivity|lia].
  - intros Hge s' res rx Hreq. split; [|split].
    + unfold mem.zeroed. rewrite repeat_length. lia.
    + apply Forall_forall. intros b Hb. apply repeat_spec in Hb. exact Hb.
    + rewrite Get_run. fold size.
      destruct (Z.ltb_spec (inbound_available I s) size); [lia|].
      rewrite Hreq. reflexivity.
Qed.


End SessionClaims.

Section SessionExamples.

Import ITree.ITree ITree.ITreeFacts ITree.Events.State ITree.Events.StateFacts.
Import session.

(** A session with nothing to read against [Ingress<int>::Get], and one
    that answers with the bytes of 42. *)
Lemma ingress_get_witness :
  let empty := {| inbound_available := fun _ : unit => 0;
                  inbound_request := fun rx _ s => (s, (Success, rx)) |} in
  let serve := {| inbound_available := fun _ : unit => 4;
                  inbound_request := fun _ _ s => (s, (Success, [42; 0; 0; 0])) |} in
  interp_state (run_inbound empty) (Get (Field [0; 0; 0; 0]) 500) (tt, [])
  ≈ Ret ((tt, []), Some (Failure, Field [0; 0; 0; 0])) /\
  interp_state (run_inbound serve) (Get (Field [0; 0; 0; 0]) 500) (tt, [])
  ≈ Ret ((tt, [([0; 0; 0; 0], 500)]), Some (Success, Field [42; 0; 0; 0])).
Proof.
  intros empty serve. split.
  - apply (proj1 (ingress_get empty (Field [0; 0; 0; 0]) 500 tt [])).
    reflexivity.
  - destruct (proj2 (ingress_get serve (Field [0; 0; 0; 0]) 500 tt [])
                (fun H => match H with eq_refl => I end)
                tt Success [42; 0; 0; 0] eq_refl) as (_ & _ & Hrun).
    exact Hrun.
Defined.



End SessionExamples.

(** * Further properties of the code *)

(** ** Core/Math/Memory.hpp *)

Section MemoryMath.

Lemma bits_to_contain_value k :
  math.bits_to_contain k = (8 * k) mod size_t_modulus.
Proof. unfold math.bits_to_contain. cbv zeta. rewrite shiftl3. reflexivity. Qed.

Lemma next_boundary_value n :
  is_size_t n -> math.next_boundary_bit_pos n = (8 * ceil8 n) mod size_t_modulus.
Proof.
  intros Hn. unfold math.next_boundary_bit_pos. cbv zeta.
  rewrite bits_to_contain_value, bytes_to_contain_ceil by assumption. reflexivity.
Qed.

(** X1. [bytes_to_contain] is the exact ceiling of [n / 8] for every [size_t]
    value, never wrapping; [bits_to_contain] is [8 * k] reduced modulo [2^64],
    hence exact below [2^61]; and the two are inverse to each other on byte
    counts below [2^61]. *)
Theorem byte_bit_conversions :
  (forall n, is_size_t n ->
     math.bytes_to_contain n = ceil8 n /\
     8 * math.bytes_to_contain n - 7 <= n <= 8 * math.bytes_to_contain n) /\
  (forall k, math.bits_to_contain k = (8 * k) mod size_t_modulus) /\
  (forall k, 0 <= k -> 8 * k < size_t_modulus ->
     math.bits_to_contain k = 8 * k /\
     math.bytes_to_contain (math.bits_to_contain k) = k).
Proof.
  split; [|split].
  - intros n Hn. rewrite bytes_to_contain_ceil by assumption.
    split; [reflexivity|apply ceil8_bounds].
  - apply bits_to_contain_value.
  - intros k Hk Hlt. rewrite bits_to_contain_mul by assumption.
    split; [reflexivity|].
    rewrite bytes_to_contain_ceil by (unfold is_size_t; lia).
    apply ceil8_aligned.
Qed.

Lemma byte_bit_conversions_witness :
  math.bytes_to_contain 13 = 2 /\ math.bits_to_contain 2 = 16 /\
  math.bytes_to_contain (math.bits_to_contain 2) = 2.
Proof.
  destruct byte_bit_conversions as (Hbytes & _ & Hinv).
  destruct (Hbytes 13) as [H1 _]; [vm_compute; split; [discriminate|reflexivity]|].
  destruct (Hinv 2) as [H2 H3]; [lia|reflexivity|].
  split; [exact H1|]. split; [exact H2|exact H3].
Defined.

(** X2. [next_boundary_bit_pos n] is a multiple of 8 and a fixed point of the
    function.  For [n <= 2^64 - 8] it is the least multiple of 8 that is not
    below [n]; for the seven values above, the byte count [2^61] does not
    survive the shift and the result wraps to 0. *)
Theorem next_boundary_rounds_up (n : Z) :
  is_size_t n ->
  let r := math.next_boundary_bit_pos n in
  r mod 8 = 0 /\ math.next_boundary_bit_pos r = r /\
  (n <= size_t_modulus - 8 -> n <= r < n + 8 /\ (r = n <-> n mod 8 = 0)) /\
  (size_t_modulus - 8 < n -> r = 0).
Proof.
  intros Hn r. pose proof size_t_modulus_eq as Hm.
  assert (Hr : r = (8 * ceil8 n) mod size_t_modulus) by (apply next_boundary_value; exact Hn).
  pose proof (ceil8_bounds n) as Hb. unfold is_size_t in Hn.
  assert (Hlow : n <= size_t_modulus - 8 -> r = 8 * ceil8 n).
  { intros Hle. rewrite Hr. apply Z.mod_small. lia. }
  assert (Hhigh : size_t_modulus - 8 < n -> r = 0).
  { intros Hgt. rewrite Hr.
    assert (ceil8 n = 2305843009213693952)
      by (unfold ceil8; Z.to_euclidean_division_equations; lia).
    rewrite H, Hm. reflexivity. }
  split; [apply next_boundary_aligned|]. split; [|split].
  - destruct (Z_le_gt_dec n (size_t_modulus - 8)) as [Hle|Hgt].
    + rewrite next_boundary_value by (unfold is_size_t; rewrite (Hlow Hle); lia).
      rewrite (Hlow Hle), ceil8_aligned. apply Z.mod_small. lia.
    + rewrite (Hhigh ltac:(lia)). reflexivity.
  - intros Hle. rewrite (Hlow Hle). split; [lia|].
    split; intros H; Z.to_euclidean_division_equations; lia.
  - exact Hhigh.
Qed.

Lemma next_boundary_rounds_up_witness :
  math.next_boundary_bit_pos 13 = 16 /\
  math.next_boundary_bit_pos (size_t_modulus - 1) = 0.
Proof.
  split.
  - destruct (next_boundary_rounds_up 13) as (H8 & _ & Hlow & _);
      [vm_compute; split; [discriminate|reflexivity]|].
    destruct Hlow as [Hr _]; [vm_compute; discriminate|].
    cbv zeta in *. Z.to_euclidean_division_equations; lia.
  - apply (next_boundary_rounds_up (size_t_modulus - 1)).
    + vm_compute; split; [discriminate|reflexivity].
    + vm_compute; reflexivity.
Defined.

End MemoryMath.

(** ** Core/Data/_Detail/Field.hpp : the raw bit transfer on any destination *)

Section BitTransferFrame.

Lemma load_inv buf i x :
  mem.load buf i = Some x ->
  0 <= i < Z.of_nat (length buf) /\ x = nth (Z.to_nat i) buf 0.
Proof.
  unfold mem.load. intros H.
  destruct (Z.leb_spec 0 i), (Z.ltb_spec i (Z.of_nat (length buf)));
    cbn [andb] in H; try discriminate.
  split; [lia|]. symmetry. apply nth_error_nth. exact H.
Qed.

Lemma store_inv buf i v b :
  mem.store buf i v = Some b ->
  0 <= i < Z.of_nat (length buf) /\ b = mem.update buf (Z.to_nat i) (to_uint8 v).
Proof.
  unfold mem.store. intros H.
  destruct (Z.leb_spec 0 i), (Z.ltb_spec i (Z.of_nat (length buf)));
    cbn [andb] in H; try discriminate.
  injection H as <-. split; [lia|reflexivity].
Qed.

Lemma nth_update_other buf i v k :
  0 <= i < Z.of_nat (length buf) -> 0 <= k -> k <> i ->
  nth (Z.to_nat k) (mem.update buf (Z.to_nat i) v) 0 = nth (Z.to_nat k) buf 0.
Proof.
  intros Hi Hk Hne. rewrite update_nth by lia.
  destruct (Nat.eqb_spec (Z.to_nat k) (Z.to_nat i)); [lia|reflexivity].
Qed.

Lemma nth_update_same buf i v :
  0 <= i < Z.of_nat (length buf) ->
  nth (Z.to_nat i) (mem.update buf (Z.to_nat i) v) 0 = v.
Proof.
  intros Hi. rewrite update_nth by lia. rewrite Nat.eqb_refl. reflexivity.
Qed.

Lemma front_store_low_bits d s fm o t :
  0 <= t < o -> o < 8 ->
  Z.testbit (to_uint8 (Z.lor d (Z.shiftl (Z.land s fm) o))) t = Z.testbit d t.
Proof.
  intros Ht Ho. rewrite testbit_to_uint8 by lia.
  rewrite Z.lor_spec, Z.shiftl_spec_low by lia. apply orb_false_r.
Qed.

(** The loop of [encode_bits] on any destination: cells outside the window
    are not written, and in the first cell the bits below the offset stay. *)
Lemma encode_bits_loop_frame fuel :
  forall buffer dest value src o size b',
  0 <= o < 8 -> 0 <= dest -> 0 <= size ->
  detail.encode_bits_loop fuel buffer dest value src o (8 - o) size = Some b' ->
  length b' = length buffer /\
  (forall k, 0 <= k -> k < dest \/ dest + ceil8 (o + size) <= k ->
     nth (Z.to_nat k) b' 0 = nth (Z.to_nat k) buffer 0) /\
  (forall t, 0 <= t < o ->
     Z.testbit (nth (Z.to_nat dest) b' 0) t = Z.testbit (nth (Z.to_nat dest) buffer 0) t).
Proof.
  induction fuel as [|fuel IH]; intros buffer dest value src o size b' Ho Hd Hs Hrun.
  - cbn [detail.encode_bits_loop] in Hrun. injection Hrun as <-. auto.
  - cbn [detail.encode_bits_loop] in Hrun.
    destruct (Z.gtb_spec size 0) as [Hpos|]; [|injection Hrun as <-; auto].
    cbv zeta in Hrun.
    destruct (mem.load value src) as [s|]; cbn [obind] in Hrun; [|discriminate].
    destruct (mem.load detail.kBitMasks (Z.min (8 - o) size)) as [fm|];
      cbn [obind] in Hrun; [|discriminate].
    destruct (mem.load buffer dest) as [d|] eqn:Hd1; cbn [obind] in Hrun; [|discriminate].
    destruct (mem.store buffer dest _) as [buffer1|] eqn:Hst1;
      cbn [obind] in Hrun; [|discriminate].
    apply store_inv in Hst1 as [Hr1 Hb1]. apply load_inv in Hd1 as [_ Hdv].
    assert (Hlen1 : length buffer1 = length buffer) by (rewrite Hb1; apply update_length).
    assert (Hlow1 : forall t, 0 <= t < o ->
              Z.testbit (nth (Z.to_nat dest) buffer1 0) t
              = Z.testbit (nth (Z.to_nat dest) buffer 0) t).
    { intros t Ht. rewrite Hb1, nth_update_same by lia.
      rewrite front_store_low_bits by lia. rewrite Hdv. reflexivity. }
    assert (Hoth1 : forall k, 0 <= k -> k <> dest ->
              nth (Z.to_nat k) buffer1 0 = nth (Z.to_nat k) buffer 0).
    { intros k Hk Hne. rewrite Hb1. apply nth_update_other; assumption. }
    set (front := Z.min (8 - o) size) in *.
    destruct (Z.gtb_spec o 0) as [Ho0|Ho0], (Z.gtb_spec (size - front) 0) as [Hrest|Hrest];
      cbn [andb] in Hrun.
    + (* a leftover store follows *)
      destruct (mem.load detail.kBitMasks _) as [lm|]; cbn [obind] in Hrun; [|discriminate].
      destruct (mem.store buffer1 (dest + 1) _) as [buffer2|] eqn:Hst2;
        cbn [obind] in Hrun; [|discriminate].
      apply store_inv in Hst2 as [Hr2 Hb2].
      assert (Hlen2 : length buffer2 = length buffer)
        by (rewrite Hb2, update_length; exact Hlen1).
      assert (Hoth2 : forall k, 0 <= k -> k <> dest -> k <> dest + 1 ->
                nth (Z.to_nat k) buffer2 0 = nth (Z.to_nat k) buffer 0).
      { intros k Hk Hne Hne'. rewrite Hb2, nth_update_other by lia. apply Hoth1; lia. }
      assert (Hsame2 : nth (Z.to_nat dest) buffer2 0 = nth (Z.to_nat dest) buffer1 0).
      { rewrite Hb2. apply nth_update_other; lia. }
      set (size' := size - front - Z.min o (size - front)) in *.
      assert (Hfront : front = 8 - o) by (unfold front; lia).
      destruct (Z.eq_dec size' 0) as [Hz|Hnz].
      * rewrite encode_bits_loop_done in Hrun by lia. injection Hrun as <-.
        split; [exact Hlen2|]. split.
        -- intros k Hk Hout. apply Hoth2; try lia; unfold ceil8 in Hout; Z.to_euclidean_division_equations; lia.
        -- intros t Ht. rewrite Hsame2. apply Hlow1; exact Ht.
      * apply IH in Hrun as (Hlen & Hframe & _); try lia.
        split; [congruence|]. split.
        -- intros k Hk Hout. rewrite Hframe.
           ++ apply Hoth2; try lia; unfold ceil8 in Hout; Z.to_euclidean_division_equations; lia.
           ++ lia.
           ++ unfold ceil8 in *. unfold size' in *.
              Z.to_euclidean_division_equations; lia.
        -- intros t Ht. rewrite Hframe by lia. rewrite Hsame2. apply Hlow1; exact Ht.
    + (* the value ends in this cell *)
      rewrite encode_bits_loop_done in Hrun by lia. injection Hrun as <-.
      split; [exact Hlen1|]. split.
      * intros k Hk Hout. apply Hoth1; try lia; unfold ceil8 in Hout; Z.to_euclidean_division_equations; lia.
      * exact Hlow1.
    + (* aligned, more to come *)
      assert (Hfront : front = 8) by (unfold front; lia).
      apply IH in Hrun as (Hlen & Hframe & _); try lia.
      split; [congruence|]. split.
      * intros k Hk Hout. rewrite Hframe.
        -- apply Hoth1; try lia; unfold ceil8 in Hout; Z.to_euclidean_division_equations; lia.
        -- lia.
        -- unfold ceil8 in *. Z.to_euclidean_division_equations; lia.
      * intros t Ht. lia.
    + rewrite encode_bits_loop_done in Hrun by lia. injection Hrun as <-.
      split; [exact Hlen1|]. split.
      * intros k Hk Hout. apply Hoth1; try lia; unfold ceil8 in Hout; Z.to_euclidean_division_equations; lia.
      * exact Hlow1.
Qed.

Lemma encode_bits_unfold buffer value off n :
  is_size_t off ->
  detail.encode_bits buffer value off n
  = detail.encode_bits_loop (Z.to_nat n) buffer (off / 8) value 0
      (off mod 8) (8 - off mod 8) n.
Proof.
  intros Hoff. unfold detail.encode_bits. cbv zeta.
  rewrite bytes_to_contain_ceil by exact Hoff.
  rewrite land7. change (math.bits_to_contain 1) with 8.
  assert (Hdest : 0 + (if (off mod 8 >? 0) && (ceil8 off >? 0)
                       then ceil8 off - 1 else ceil8 off) = off / 8).
  { unfold is_size_t in Hoff. unfold ceil8.
    destruct (Z.gtb_spec (off mod 8) 0), (Z.gtb_spec ((off + 7) / 8) 0); cbn [andb];
      Z.to_euclidean_division_equations; lia. }
  rewrite Hdest. reflexivity.
Qed.

(** X3. [encode_bits] on a destination with any contents: when the [n] bits
    fit between the offset and the end of the destination, the call is
    defined, keeps the length of the destination, leaves every bit below the
    offset as it was, and writes no cell outside the cells
    [off / 8 .. ceil ((off + n) / 8) - 1] that the bits span; with [n = 0]
    nothing is written at all. *)
Theorem encode_bits_stays_in_window (buffer value : list Z) (off n : Z) :
  is_size_t off -> 0 <= n ->
  off + n <= 8 * Z.of_nat (length buffer) ->
  n <= 8 * Z.of_nat (length value) ->
  bytes_ok buffer ->
  exists b',
    detail.encode_bits buffer value off n = Some b' /\
    length b' = length buffer /\ bytes_ok b' /\
    (forall j, 0 <= j < off -> bit b' j = bit buffer j) /\
    (forall k, 0 <= k -> k < off / 8 \/ ceil8 (off + n) <= k ->
       nth (Z.to_nat k) b' 0 = nth (Z.to_nat k) buffer 0) /\
    (n = 0 -> b' = buffer).
Proof.
  intros Hoff Hn Hbuf Hval Hok.
  destruct (encode_bits_spec buffer value off n) as (b' & Hrun & Hlen & Hok' & _);
    try assumption.
  exists b'. split; [exact Hrun|]. split; [exact Hlen|]. split; [exact Hok'|].
  rewrite encode_bits_unfold in Hrun by exact Hoff.
  assert (Hr : 0 <= off mod 8 < 8) by (apply Z.mod_pos_bound; lia).
  assert (Hq : 0 <= off / 8) by (unfold is_size_t in Hoff; apply Z.div_pos; lia).
  pose proof Hrun as Hrun'.
  apply encode_bits_loop_frame in Hrun' as (_ & Hframe & Hlow); try lia.
  assert (Hwin : off / 8 + ceil8 (off mod 8 + n) = ceil8 (off + n))
    by (unfold ceil8; Z.to_euclidean_division_equations; lia).
  split; [|split].
  - intros j Hj. unfold bit.
    destruct (Z.eq_dec (j / 8) (off / 8)) as [He|Hne].
    + rewrite He. apply Hlow. Z.to_euclidean_division_equations; lia.
    + rewrite Hframe; [reflexivity| |left].
      * apply Z.div_pos; lia.
      * Z.to_euclidean_division_equations; lia.
  - intros k Hk Hout. apply Hframe; [exact Hk|]. rewrite Hwin. exact Hout.
  - intros ->. cbn [Z.to_nat detail.encode_bits_loop] in Hrun. congruence.
Qed.

(** A byte-sized value written at bit 4 of three set cells: the third cell, and
    the low four bits of the first, stay as they were. *)
Lemma encode_bits_stays_in_window_witness :
  exists b',
    detail.encode_bits [0xFF; 0xFF; 0xFF] [0] 4 8 = Some b' /\
    nth 2 b' 0 = 0xFF /\ bit b' 3 = true.
Proof.
  destruct (encode_bits_stays_in_window [0xFF; 0xFF; 0xFF] [0] 4 8)
    as (b' & Hrun & _ & _ & Hlow & Hframe & _).
  - vm_compute. split; [discriminate|reflexivity].
  - lia.
  - vm_compute. discriminate.
  - vm_compute. discriminate.
  - apply forallb_bytes_ok. reflexivity.
  - exists b'. split; [exact Hrun|]. split.
    + apply (Hframe 2); [lia|]. right. vm_compute. discriminate.
    + rewrite Hlow by lia. reflexivity.
Defined.

(** X4. What [encode_bits] writes at any offset of a destination that is
    clear from that offset on, [decode_bits] reads back from the same offset:
    the first [ceil (n / 8)] cells of the target receive the low [n] bits of
    the value padded with clear bits, the other cells of the target are
    kept. *)
Theorem raw_bits_round_trip (buffer value target : list Z) (off n : Z) :
  is_size_t off -> 0 <= n ->
  off + n <= 8 * Z.of_nat (length buffer) ->
  n <= 8 * Z.of_nat (length value) -> n <= 8 * Z.of_nat (length target) ->
  bytes_ok buffer -> bytes_ok target -> zero_from buffer off ->
  exists b' v',
    detail.encode_bits buffer value off n = Some b' /\
    detail.decode_bits target b' off n = Some v' /\
    length v' = length target /\
    forall j, 0 <= j ->
      bit v' j = if j <? n then bit value j
                 else if j <? 8 * ceil8 n then false else bit target j.
Proof.
  intros Hoff Hn Hbuf Hval Htgt Hok Hokt Hz.
  destruct (encode_bits_spec buffer value off n) as (b' & Hrun & Hlen & Hok' & Hw);
    try assumption.
  specialize (Hw Hz).
  destruct (decode_bits_spec target b' off n) as (v' & Hrun' & Hlen' & _ & Hf);
    try assumption; [rewrite Hlen; exact Hbuf|].
  exists b', v'. split; [exact Hrun|]. split; [exact Hrun'|]. split; [exact Hlen'|].
  intros j Hj. rewrite (Hf j Hj).
  pose proof (ceil8_bounds n) as Hb.
  unfold is_size_t in Hoff.
  destruct (Z.leb_spec (8 * 0) j), (Z.ltb_spec j (8 * (0 + ceil8 n))); cbn [andb]; try lia.
  - replace (8 * 0 + n) with n by lia.
    destruct (Z.ltb_spec j n), (Z.ltb_spec j (8 * ceil8 n)); try lia; try reflexivity.
    rewrite (Hw (off + (j - 8 * 0))) by lia.
    destruct (Z.ltb_spec (off + (j - 8 * 0)) off), (Z.ltb_spec (off + (j - 8 * 0)) (off + n));
      try lia.
    f_equal. lia.
  - destruct (Z.ltb_spec j n), (Z.ltb_spec j (8 * ceil8 n)); try lia; reflexivity.
Qed.

(** Eleven bits moved through bit 5 of a clear three-cell destination. *)
Lemma raw_bits_round_trip_witness :
  exists b' v',
    detail.encode_bits [0; 0; 0] [0xAB; 0xFD] 5 11 = Some b' /\
    detail.decode_bits [0xFF; 0xFF; 0xFF; 0xFF] b' 5 11 = Some v' /\
    length v' = 4%nat /\
    forall j, 0 <= j ->
      bit v' j = if j <? 11 then bit [0xAB; 0xFD] j
                 else if j <? 8 * ceil8 11 then false
                 else bit [0xFF; 0xFF; 0xFF; 0xFF] j.
Proof.
  apply (raw_bits_round_trip [0; 0; 0] [0xAB; 0xFD] [0xFF; 0xFF; 0xFF; 0xFF] 5 11).
  - vm_compute. split; [discriminate|reflexivity].
  - lia.
  - vm_compute. discriminate.
  - vm_compute. discriminate.
  - vm_compute. discriminate.
  - apply forallb_bytes_ok. reflexivity.
  - apply forallb_bytes_ok. reflexivity.
  - apply (zeroed_zero_from 3 5).
Defined.

(** A run of the loop of [encode_bits] that is defined has stored into every
    cell the bits span: a transfer that reaches past the end of the destination
    is an access outside it. *)
Lemma encode_bits_loop_reach fuel :
  forall buffer dest value src o size b',
  0 <= o < 8 -> 0 < size -> (Z.to_nat size <= fuel)%nat ->
  detail.encode_bits_loop fuel buffer dest value src o (8 - o) size = Some b' ->
  0 <= dest /\ dest + ceil8 (o + size) <= Z.of_nat (length buffer).
Proof.
  induction fuel as [|fuel IH]; intros buffer dest value src o size b' Ho Hs Hfuel Hrun;
    [lia|].
  cbn [detail.encode_bits_loop] in Hrun.
  destruct (Z.gtb_spec size 0) as [_|]; [|lia].
  cbv zeta in Hrun.
  destruct (mem.load value src) as [s|]; cbn [obind] in Hrun; [|discriminate].
  destruct (mem.load detail.kBitMasks (Z.min (8 - o) size)) as [fm|];
    cbn [obind] in Hrun; [|discriminate].
  destruct (mem.load buffer dest) as [d|]; cbn [obind] in Hrun; [|discriminate].
  destruct (mem.store buffer dest _) as [buffer1|] eqn:Hst1;
    cbn [obind] in Hrun; [|discriminate].
  apply store_inv in Hst1 as [Hr1 Hb1].
  assert (Hlen1 : length buffer1 = length buffer) by (rewrite Hb1; apply update_length).
  set (front := Z.min (8 - o) size) in *.
  destruct (Z.gtb_spec o 0) as [Ho0|Ho0], (Z.gtb_spec (size - front) 0) as [Hrest|Hrest];
    cbn [andb] in Hrun.
  - destruct (mem.load detail.kBitMasks _) as [lm|]; cbn [obind] in Hrun; [|discriminate].
    destruct (mem.store buffer1 (dest + 1) _) as [buffer2|] eqn:Hst2;
      cbn [obind] in Hrun; [|discriminate].
    apply store_inv in Hst2 as [Hr2 Hb2].
    assert (Hlen2 : length buffer2 = length buffer)
      by (rewrite Hb2, update_length; exact Hlen1).
    set (size' := size - front - Z.min o (size - front)) in *.
    assert (Hfront : front = 8 - o) by (unfold front; lia).
    destruct (Z_le_gt_dec size' 0) as [Hz|Hnz].
    + split; [lia|]. unfold ceil8. unfold size' in Hz.
      Z.to_euclidean_division_equations; lia.
    + apply IH in Hrun; try lia.
      rewrite Hlen2 in Hrun. split; [lia|].
      unfold ceil8 in *. unfold size' in *.
      Z.to_euclidean_division_equations; lia.
  - split; [lia|]. unfold ceil8. Z.to_euclidean_division_equations; lia.
  - apply IH in Hrun; try lia.
    rewrite Hlen1 in Hrun. split; [lia|].
    unfold ceil8 in *. unfold front in *.
    Z.to_euclidean_division_equations; lia.
  - split; [lia|]. unfold ceil8. unfold front in *.
    Z.to_euclidean_division_equations; lia.
Qed.

(** The same for the loop of [decode_bits] and the cells it reads. *)
Lemma decode_bits_loop_reach fuel :
  forall value dest buffer src o size v',
  0 <= o < 8 -> 0 < size -> (Z.to_nat size <= fuel)%nat ->
  detail.decode_bits_loop fuel value dest buffer src o (8 - o) size = Some v' ->
  0 <= src /\ src + ceil8 (o + size) <= Z.of_nat (length buffer).
Proof.
  induction fuel as [|fuel IH]; intros value dest buffer src o size v' Ho Hs Hfuel Hrun;
    [lia|].
  cbn [detail.decode_bits_loop] in Hrun.
  destruct (Z.gtb_spec size 0) as [_|]; [|lia].
  cbv zeta in Hrun.
  destruct (mem.load buffer src) as [s|] eqn:Hl1; cbn [obind] in Hrun; [|discriminate].
  apply load_inv in Hl1 as [Hr1 _].
  destruct (mem.load detail.kBitMasks (Z.min (8 - o) size)) as [fm|];
    cbn [obind] in Hrun; [|discriminate].
  destruct (mem.store value dest _) as [value1|]; cbn [obind] in Hrun; [|discriminate].
  set (front := Z.min (8 - o) size) in *.
  destruct (Z.gtb_spec o 0) as [Ho0|Ho0], (Z.gtb_spec (size - front) 0) as [Hrest|Hrest];
    cbn [andb] in Hrun.
  - destruct (mem.load buffer (src + 1)) as [s'|] eqn:Hl2; cbn [obind] in Hrun;
      [|discriminate].
    apply load_inv in Hl2 as [Hr2 _].
    destruct (mem.load detail.kBitMasks _) as [lm|]; cbn [obind] in Hrun; [|discriminate].
    destruct (mem.load value1 dest) as [d|]; cbn [obind] in Hrun; [|discriminate].
    destruct (mem.store value1 dest _) as [value2|]; cbn [obind] in Hrun; [|discriminate].
    set (size' := size - front - Z.min o (size - front)) in *.
    assert (Hfront : front = 8 - o) by (unfold front; lia).
    destruct (Z_le_gt_dec size' 0) as [Hz|Hnz].
    + split; [lia|]. unfold ceil8. unfold size' in Hz.
      Z.to_euclidean_division_equations; lia.
    + apply IH in Hrun; try lia.
      split; [lia|].
      unfold ceil8 in *. unfold size' in *.
      Z.to_euclidean_division_equations; lia.
  - split; [lia|]. unfold ceil8. Z.to_euclidean_division_equations; lia.
  - apply IH in Hrun; try lia.
    split; [lia|].
    unfold ceil8 in *. unfold front in *.
    Z.to_euclidean_division_equations; lia.
  - split; [lia|]. unfold ceil8. unfold front in *.
    Z.to_euclidean_division_equations; lia.
Qed.

Lemma decode_bits_unfold value buffer off n :
  is_size_t off ->
  detail.decode_bits value buffer off n
  = detail.decode_bits_loop (Z.to_nat n) value 0 buffer (off / 8)
      (off mod 8) (8 - off mod 8) n.
Proof.
  intros Hoff. unfold detail.decode_bits. cbv zeta.
  rewrite bytes_to_contain_ceil by exact Hoff.
  rewrite land7. change (math.bits_to_contain 1) with 8.
  assert (Hsrc : 0 + (if (off mod 8 >? 0) && (ceil8 off >? 0)
                      then ceil8 off - 1 else ceil8 off) = off / 8).
  { unfold is_size_t in Hoff. unfold ceil8.
    destruct (Z.gtb_spec (off mod 8) 0), (Z.gtb_spec ((off + 7) / 8) 0); cbn [andb];
      Z.to_euclidean_division_equations; lia. }
  rewrite Hsrc. reflexivity.
Qed.

(** Bits that do not lie within the buffer are not transferred: the call is
    an access outside the buffer. *)
Lemma bits_outside_undefined (buffer value : list Z) (off n : Z) :
  is_size_t off -> 0 < n -> 8 * Z.of_nat (length buffer) < off + n ->
  detail.encode_bits buffer value off n = None /\
  detail.decode_bits value buffer off n = None.
Proof.
  intros Hoff Hn Hout.
  assert (Hr : 0 <= off mod 8 < 8) by (apply Z.mod_pos_bound; lia).
  assert (Hwin : off / 8 + ceil8 (off mod 8 + n) = ceil8 (off + n))
    by (unfold ceil8; Z.to_euclidean_division_equations; lia).
  assert (Hpast : Z.of_nat (length buffer) < ceil8 (off + n))
    by (unfold ceil8; Z.to_euclidean_division_equations; lia).
  split.
  - rewrite encode_bits_unfold by exact Hoff.
    destruct (detail.encode_bits_loop _ _ _ _ _ _ _ _) as [b'|] eqn:Hrun; [|reflexivity].
    apply encode_bits_loop_reach in Hrun; lia.
  - rewrite decode_bits_unfold by exact Hoff.
    destruct (detail.decode_bits_loop _ _ _ _ _ _ _ _) as [v'|] eqn:Hrun; [|reflexivity].
    apply decode_bits_loop_reach in Hrun; lia.
Qed.

End BitTransferFrame.

(** ** Field.hpp, Encode.hpp, Decode.hpp : the codecs of single fields *)

Section FieldCodecs.

Lemma window_read (buffer obj : list Z) (start : nat) :
  (start + length obj <= length buffer)%nat ->
  firstn (length obj)
    (skipn start (firstn start buffer ++ obj ++ skipn (start + length obj) buffer)) = obj.
Proof.
  intros Hle.
  rewrite skipn_app, length_firstn, Nat.min_l by lia.
  rewrite skipn_all2 by (rewrite length_firstn; lia).
  rewrite Nat.sub_diag. cbn [skipn app].
  rewrite firstn_app, Nat.sub_diag, firstn_all. cbn [firstn]. apply app_nil_r.
Qed.

(** X5. The guard of the bit-field codecs.  As long as [offset_bits + N]
    does not overflow [size_t], [encode] of a [BitField<N>] or
    [ConstBitField<N>] and [decode] of a [BitField<N>] return failure, with
    buffer, cursor and object as they were, exactly when
    [offset_bits + N > 8 * buffer.size()]; otherwise they succeed on any
    buffer contents and return the cursor [offset_bits + N], which need not
    be byte aligned.  When [offset_bits + N] overflows [size_t], the guard
    compares the sum reduced modulo [2^64] (for [N <= 64] that is
    [offset_bits + N - 2^64]): the calls return failure when the reduced sum
    exceeds [8 * buffer.size()], and otherwise the guard passes and the
    transfer is an access outside the buffer. *)
Theorem bit_field_codec_guard (n : Z) (value buffer : list Z) (c : Z) :
  0 <= n -> n <= 8 * Z.of_nat (length value) -> bytes_ok value ->
  span_ok buffer -> bytes_ok buffer -> is_size_t c ->
  (c + n < size_t_modulus ->
     (8 * Z.of_nat (length buffer) < c + n ->
        encode_BitField n value buffer c = Some (Failure, buffer, c) /\
        encode_ConstBitField n value buffer c = Some (Failure, buffer, c) /\
        decode_BitField n buffer c value = Some (Failure, buffer, c, value)) /\
     (c + n <= 8 * Z.of_nat (length buffer) ->
        exists b' v',
          encode_BitField n value buffer c = Some (Success, b', c + n) /\
          encode_ConstBitField n value buffer c = Some (Success, b', c + n) /\
          decode_BitField n buffer c value = Some (Success, buffer, c + n, v') /\
          length b' = length buffer /\ length v' = length value)) /\
  (size_t_modulus <= c + n ->
     (8 * Z.of_nat (length buffer) < wrap (c + n) ->
        encode_BitField n value buffer c = Some (Failure, buffer, c) /\
        encode_ConstBitField n value buffer c = Some (Failure, buffer, c) /\
        decode_BitField n buffer c value = Some (Failure, buffer, c, value)) /\
     (wrap (c + n) <= 8 * Z.of_nat (length buffer) ->
        encode_BitField n value buffer c = None /\
        encode_ConstBitField n value buffer c = None /\
        decode_BitField n buffer c value = None)).
Proof.
  intros Hn Hval Hokv Hs Hok Hc.
  pose proof Hc as [Hc0 Hcm].
  assert (Hsize : math.bits_to_contain (Span_size buffer) = 8 * Z.of_nat (length buffer)).
  { rewrite Span_size_length by assumption. unfold span_ok in Hs.
    apply bits_to_contain_mul; lia. }
  split.
  - intros Hlt. split.
    + intros Hshort.
      assert (He : encode_BitField n value buffer c = Some (Failure, buffer, c)).
      { unfold encode_BitField. cbv zeta. rewrite bitfield_guard by assumption.
        destruct (Z.gtb_spec (c + n) (8 * Z.of_nat (length buffer))); [reflexivity|lia]. }
      split; [exact He|]. split; [exact He|].
      unfold decode_BitField. cbv zeta. rewrite bitfield_guard by assumption.
      destruct (Z.gtb_spec (c + n) (8 * Z.of_nat (length buffer))); [reflexivity|lia].
    + intros Hfit.
      destruct (encode_BitField_ok n value buffer c) as (b' & He & Hlen & _);
        try assumption.
      destruct (decode_BitField_ok n value buffer c) as (v' & Hd & Hf); try assumption.
      cbn [fetched] in Hf. destruct Hf as (_ & Hlen' & _).
      exists b', v'. repeat split; assumption.
  - intros Hover.
    assert (Hn0 : 0 < n) by lia.
    assert (Hnone : detail.encode_bits buffer value c n = None /\
                    detail.decode_bits value buffer c n = None).
    { apply bits_outside_undefined; try assumption.
      unfold span_ok in Hs. lia. }
    destruct Hnone as [Hne Hnd].
    split.
    + intros Hshort.
      assert (He : encode_BitField n value buffer c = Some (Failure, buffer, c)).
      { unfold encode_BitField. cbv zeta. rewrite Hsize.
        destruct (Z.gtb_spec (wrap (c + n)) (8 * Z.of_nat (length buffer)));
          [reflexivity|lia]. }
      split; [exact He|]. split; [exact He|].
      unfold decode_BitField. cbv zeta. rewrite Hsize.
      destruct (Z.gtb_spec (wrap (c + n)) (8 * Z.of_nat (length buffer)));
        [reflexivity|lia].
    + intros Hpass.
      assert (He : encode_BitField n value buffer c = None).
      { unfold encode_BitField. cbv zeta. rewrite Hsize.
        destruct (Z.gtb_spec (wrap (c + n)) (8 * Z.of_nat (length buffer)));
          [lia|].
        rewrite Hne. reflexivity. }
      split; [exact He|]. split; [exact He|].
      unfold decode_BitField. cbv zeta. rewrite Hsize.
      destruct (Z.gtb_spec (wrap (c + n)) (8 * Z.of_nat (length buffer)));
        [lia|].
      rewrite Hnd. reflexivity.
Qed.

(** A [BitField<14>] at bit 3 of a two-cell and of a three-cell buffer, and at
    the last cursor of [size_t]: the sum wraps to 13, which a one-cell buffer
    turns down and a two-cell buffer lets through. *)
Lemma bit_field_codec_guard_witness :
  encode_BitField 14 [0xFF; 0x1F] [0; 0] 3 = Some (Failure, [0; 0], 3) /\
  (exists b' v',
    encode_BitField 14 [0xFF; 0x1F] [0; 0; 0] 3 = Some (Success, b', 3 + 14) /\
    decode_BitField 14 [0; 0; 0] 3 [0xFF; 0x1F] = Some (Success, [0; 0; 0], 3 + 14, v')) /\
  encode_BitField 14 [0xFF; 0x1F] [0] (size_t_modulus - 1)
  = Some (Failure, [0], size_t_modulus - 1) /\
  encode_BitField 14 [0xFF; 0x1F] [0; 0] (size_t_modulus - 1) = None /\
  decode_BitField 14 [0; 0] (size_t_modulus - 1) [0xFF; 0x1F] = None.
Proof.
  assert (Hokv : bytes_ok [0xFF; 0x1F]) by (apply forallb_bytes_ok; reflexivity).
  assert (Hok1 : bytes_ok [0]) by (apply forallb_bytes_ok; reflexivity).
  assert (Hok2 : bytes_ok [0; 0]) by (apply forallb_bytes_ok; reflexivity).
  assert (Hok3 : bytes_ok [0; 0; 0]) by (apply forallb_bytes_ok; reflexivity).
  assert (Hc3 : is_size_t 3) by (vm_compute; split; [discriminate|reflexivity]).
  assert (Hcm : is_size_t (size_t_modulus - 1))
    by (vm_compute; split; [discriminate|reflexivity]).
  split; [|split; [|split; [|split]]].
  - apply (proj1 (proj1 (bit_field_codec_guard 14 [0xFF; 0x1F] [0; 0] 3
                    ltac:(lia) ltac:(vm_compute; discriminate) Hokv
                    ltac:(vm_compute; reflexivity) Hok2 Hc3)
                    ltac:(vm_compute; reflexivity))).
    vm_compute. reflexivity.
  - destruct (proj2 (proj1 (bit_field_codec_guard 14 [0xFF; 0x1F] [0; 0; 0] 3
                    ltac:(lia) ltac:(vm_compute; discriminate) Hokv
                    ltac:(vm_compute; reflexivity) Hok3 Hc3)
                    ltac:(vm_compute; reflexivity)))
      as (b' & v' & He & _ & Hd & _); [vm_compute; discriminate|].
    exists b', v'. split; assumption.
  - apply (proj1 (proj2 (bit_field_codec_guard 14 [0xFF; 0x1F] [0] (size_t_modulus - 1)
                    ltac:(lia) ltac:(vm_compute; discriminate) Hokv
                    ltac:(vm_compute; reflexivity) Hok1 Hcm)
                    ltac:(vm_compute; discriminate))).
    vm_compute. reflexivity.
  - apply (proj2 (proj2 (bit_field_codec_guard 14 [0xFF; 0x1F] [0; 0] (size_t_modulus - 1)
                    ltac:(lia) ltac:(vm_compute; discriminate) Hokv
                    ltac:(vm_compute; reflexivity) Hok2 Hcm)
                    ltac:(vm_compute; discriminate))).
    vm_compute. discriminate.
  - apply (proj2 (proj2 (bit_field_codec_guard 14 [0xFF; 0x1F] [0; 0] (size_t_modulus - 1)
                    ltac:(lia) ltac:(vm_compute; discriminate) Hokv
                    ltac:(vm_compute; reflexivity) Hok2 Hcm)
                    ltac:(vm_compute; discriminate))).
    vm_compute. discriminate.
Defined.

(** X6. A value of an arithmetic or pointer type written by [encode<T>] is
    read back unchanged by [decode<T>] from the same entry cursor, whatever
    the buffer held before and whatever the target object held; both calls
    return the same cursor, and the cells of the buffer outside the
    [sizeof(T)] cells from [ceil (c / 8)] on are not written. *)
Theorem value_round_trip (obj target buffer : list Z) (c : Z) :
  is_size_t c -> span_ok buffer -> length target = length obj ->
  ceil8 c + Z.of_nat (length obj) <= Z.of_nat (length buffer) ->
  let next := 8 * ceil8 c + 8 * Z.of_nat (length obj) in
  exists b',
    encode_value obj buffer c = Some (Success, b', next) /\
    decode_value b' c target = Some (Success, b', next, obj) /\
    length b' = length buffer /\
    forall k, (k < Z.to_nat (ceil8 c))%nat
              \/ (Z.to_nat (ceil8 c) + length obj <= k)%nat ->
              nth k b' 0 = nth k buffer 0.
Proof.
  intros Hc Hs Hlen Hfit next.
  pose proof (ceil8_bounds c) as Hb.
  assert (Hc0 : 0 <= ceil8 c) by (unfold is_size_t in Hc; lia).
  assert (Hsz : 8 * Z.of_nat (length obj) < size_t_modulus)
    by (unfold span_ok in Hs; lia).
  set (b' := firstn (Z.to_nat (ceil8 c)) buffer ++ obj
               ++ skipn (Z.to_nat (ceil8 c + Z.of_nat (length obj))) buffer).
  assert (Hsplit : Z.to_nat (ceil8 c + Z.of_nat (length obj))
                   = (Z.to_nat (ceil8 c) + length obj)%nat) by lia.
  assert (Hlen' : length b' = length buffer).
  { unfold b'. rewrite Hsplit. apply spliced_length. lia. }
  exists b'. split; [|split; [|split]].
  - rewrite encode_value_spec by assumption. cbv zeta.
    destruct (Z.gtb_spec (ceil8 c + Z.of_nat (length obj)) (Z.of_nat (length buffer)));
      [lia|reflexivity].
  - rewrite decode_value_spec; try assumption.
    + cbv zeta. rewrite Hlen, Hlen'.
      destruct (Z.gtb_spec (ceil8 c + Z.of_nat (length obj)) (Z.of_nat (length buffer)));
        [lia|].
      unfold b'. rewrite Hsplit, window_read by lia. reflexivity.
    + unfold span_ok in *. rewrite Hlen'. exact Hs.
    + rewrite Hlen. exact Hsz.
  - exact Hlen'.
  - intros k Hk. unfold b'. rewrite Hsplit, nth_spliced by lia.
    destruct Hk as [Hk|Hk].
    + destruct (Nat.ltb_spec k (Z.to_nat (ceil8 c))); [reflexivity|lia].
    + destruct (Nat.ltb_spec k (Z.to_nat (ceil8 c))); [reflexivity|].
      destruct (Nat.ltb_spec k (Z.to_nat (ceil8 c) + length obj)); [lia|reflexivity].
Qed.

(** A [uint16_t] written at cursor 3 of a buffer that is not clear and read
    into an object that is not clear either. *)
Lemma value_round_trip_witness :
  exists b',
    encode_value [0x5A; 0xA5] [1; 2; 3; 4] 3 = Some (Success, b', 24) /\
    decode_value b' 3 [0xFF; 0xFF] = Some (Success, b', 24, [0x5A; 0xA5]) /\
    nth 0 b' 0 = 1 /\ nth 3 b' 0 = 4.
Proof.
  destruct (value_round_trip [0x5A; 0xA5] [0xFF; 0xFF] [1; 2; 3; 4] 3)
    as (b' & He & Hd & _ & Hframe).
  - vm_compute. split; [discriminate|reflexivity].
  - vm_compute. reflexivity.
  - reflexivity.
  - vm_compute. discriminate.
  - exists b'. split; [exact He|]. split; [exact Hd|]. split.
    + apply (Hframe 0%nat). left. vm_compute. lia.
    + apply (Hframe 3%nat). right. vm_compute. lia.
Defined.

End FieldCodecs.

(** ** Packet.hpp : fields and packets anywhere in a buffer *)

Section Anywhere.

(** X7. Round trip at any cursor, for any field kind (an aligned value, a
    bit field at an unaligned cursor, a nested or top-level packet): when the
    buffer is clear from the entry cursor on and the field fits, [encode]
    succeeds, keeps every bit below the entry cursor, leaves the buffer clear
    from the returned cursor on, and [decode] from the same entry cursor
    succeeds with the same returned cursor and yields the values of the
    encoded field.  As for a whole packet, every [BitField<N>] value has to be
    below [2^N] and the target clear above the cells the decoder writes. *)
Theorem round_trip_anywhere (f f0 : field) (buffer : list Z) (c : Z) :
  wf_field f = true -> wf_field f0 = true -> type_of f = type_of f0 ->
  fits f = true -> blank_above f0 = true ->
  span_ok buffer -> bytes_ok buffer -> 0 <= c -> zero_from buffer c ->
  next_cursor c f <= 8 * Z.of_nat (length buffer) ->
  exists b' f',
    encode f buffer c = Some (Success, b', next_cursor c f) /\
    decode b' c f0 = Some (Success, b', next_cursor c f, f') /\
    same_value f f' /\
    (forall j, 0 <= j < c -> bit b' j = bit buffer j) /\
    zero_from b' (next_cursor c f).
Proof.
  intros Hwf Hwf0 Hty Hfit Hbl Hs Hok Hc Hz Hroom.
  destruct (encode_field_ok f Hwf buffer c) as (b' & He & Hlen & Hok' & Hpost);
    try assumption.
  destruct (Hpost Hz) as (Hkeep & Hz' & Hh).
  assert (Hs' : span_ok b') by (unfold span_ok in *; rewrite Hlen; exact Hs).
  assert (Hnext : next_cursor c f0 = next_cursor c f)
    by (apply same_type_cursor; symmetry; exact Hty).
  destruct (decode_field_ok f0 Hwf0 b' c) as (f' & Hd & _ & _ & Hf); try assumption.
  { rewrite Hnext, Hlen. exact Hroom. }
  rewrite Hnext in Hd.
  exists b', f'. split; [exact He|]. split; [exact Hd|]. split; [|split; assumption].
  apply (fetched_same f Hwf Hfit f0 f' b' c); assumption.
Qed.

(** A [BitField<11>] at bit 5 of a clear three-cell buffer. *)
Lemma round_trip_anywhere_witness :
  exists b' f',
    encode (BitField 11 [0xAB; 0x05]) [0; 0; 0] 5 = Some (Success, b', 16) /\
    decode b' 5 (BitField 11 [0; 0]) = Some (Success, b', 16, f') /\
    same_value (BitField 11 [0xAB; 0x05]) f'.
Proof.
  destruct (round_trip_anywhere (BitField 11 [0xAB; 0x05]) (BitField 11 [0; 0]) [0; 0; 0] 5)
    as (b' & f' & He & Hd & Hsame & _).
  - reflexivity.
  - reflexivity.
  - reflexivity.
  - reflexivity.
  - reflexivity.
  - vm_compute. reflexivity.
  - apply forallb_bytes_ok. reflexivity.
  - lia.
  - apply (zeroed_zero_from 3 5).
  - vm_compute. discriminate.
  - exists b', f'. split; [exact He|]. split; [exact Hd|exact Hsame].
Defined.

(** X8. Calls compose through the cursor: two fields or packets encoded one
    after the other into a buffer that is clear from the first entry cursor
    on and has room for both, the second from the cursor the first returned,
    are both recovered by decoding the final buffer, the first from the first
    entry cursor and the second from the cursor in between; the second
    [encode] does not disturb what the first one wrote.  As for a single
    round trip, every [BitField<N>] value that is encoded has to be below
    [2^N], the two targets have to be clear above the cells the decoder
    writes, and the values compared leave the [ConstBitField] values out. *)
Theorem back_to_back_round_trip (f1 f2 g1 g2 : field) (buffer : list Z) (c : Z) :
  wf_field f1 = true -> wf_field f2 = true ->
  wf_field g1 = true -> wf_field g2 = true ->
  type_of f1 = type_of g1 -> type_of f2 = type_of g2 ->
  fits f1 = true -> fits f2 = true ->
  blank_above g1 = true -> blank_above g2 = true ->
  span_ok buffer -> bytes_ok buffer -> 0 <= c -> zero_from buffer c ->
  let c1 := next_cursor c f1 in
  let c2 := next_cursor c1 f2 in
  c2 <= 8 * Z.of_nat (length buffer) ->
  exists b1 b2 f1' f2',
    encode f1 buffer c = Some (Success, b1, c1) /\
    encode f2 b1 c1 = Some (Success, b2, c2) /\
    decode b2 c g1 = Some (Success, b2, c1, f1') /\
    decode b2 c1 g2 = Some (Success, b2, c2, f2') /\
    same_value f1 f1' /\ same_value f2 f2'.
Proof.
  intros Hw1 Hw2 Hv1 Hv2 Ht1 Ht2 Hfit1 Hfit2 Hbl1 Hbl2 Hs Hok Hc Hz c1 c2 Hroom.
  assert (Hc1 : c <= c1) by (apply next_cursor_ge; assumption).
  assert (Hc2 : c1 <= c2) by (apply next_cursor_ge; [assumption|lia]).
  destruct (encode_field_ok f1 Hw1 buffer c) as (b1 & He1 & Hlen1 & Hok1 & Hpost1);
    try assumption; [fold c1; lia|].
  destruct (Hpost1 Hz) as (_ & Hz1 & Hh1).
  assert (Hs1 : span_ok b1) by (unfold span_ok in *; rewrite Hlen1; exact Hs).
  destruct (encode_field_ok f2 Hw2 b1 c1) as (b2 & He2 & Hlen2 & Hok2 & Hpost2);
    try assumption; [lia|fold c2; rewrite Hlen1; exact Hroom|].
  destruct (Hpost2 Hz1) as (Hkeep2 & _ & Hh2).
  assert (Hs2 : span_ok b2) by (unfold span_ok in *; rewrite Hlen2; exact Hs1).
  assert (Hh1' : holds b2 c f1).
  { apply (holds_frame f1 Hw1 b1 b2 c Hc); [|exact Hh1].
    intros j Hj. apply Hkeep2. fold c1 in Hj. lia. }
  assert (Hn1 : next_cursor c g1 = c1) by (apply same_type_cursor; symmetry; exact Ht1).
  assert (Hn2 : next_cursor c1 g2 = c2) by (apply same_type_cursor; symmetry; exact Ht2).
  destruct (decode_field_ok g1 Hv1 b2 c) as (f1' & Hd1 & _ & _ & Hf1); try assumption.
  { rewrite Hn1, Hlen2, Hlen1. lia. }
  destruct (decode_field_ok g2 Hv2 b2 c1) as (f2' & Hd2 & _ & _ & Hf2); try assumption.
  { lia. }
  { rewrite Hn2, Hlen2, Hlen1. exact Hroom. }
  rewrite Hn1 in Hd1. rewrite Hn2 in Hd2.
  exists b1, b2, f1', f2'.
  split; [exact He1|]. split; [exact He2|]. split; [exact Hd1|]. split; [exact Hd2|].
  split.
  - apply (fetched_same f1 Hw1 Hfit1 g1 f1' b2 c); assumption.
  - apply (fetched_same f2 Hw2 Hfit2 g2 f2' b2 c1); try assumption. lia.
Qed.

(** A three-bit header packet followed by a [uint16_t] payload packet in a
    clear three-cell buffer. *)
Lemma back_to_back_round_trip_witness :
  exists b1 b2 f1' f2',
    encode (PacketField [BitField 3 [5]]) [0; 0; 0] 0 = Some (Success, b1, 8) /\
    encode (PacketField [Field [0x5A; 0xA5]]) b1 8 = Some (Success, b2, 24) /\
    decode b2 0 (PacketField [BitField 3 [0]]) = Some (Success, b2, 8, f1') /\
    decode b2 8 (PacketField [Field [0; 0]]) = Some (Success, b2, 24, f2') /\
    same_value (PacketField [BitField 3 [5]]) f1' /\
    same_value (PacketField [Field [0x5A; 0xA5]]) f2'.
Proof.
  apply (back_to_back_round_trip
           (PacketField [BitField 3 [5]]) (PacketField [Field [0x5A; 0xA5]])
           (PacketField [BitField 3 [0]]) (PacketField [Field [0; 0]]) [0; 0; 0] 0);
    try reflexivity.
  - apply forallb_bytes_ok. reflexivity.
  - apply (zeroed_zero_from 3 0).
Defined.

End Anywhere.

(** ** Packet.hpp : nesting and sizes *)

Section PacketShapes.

Lemma next_boundary_fixed r :
  is_size_t r -> r mod 8 = 0 -> math.next_boundary_bit_pos r = r.
Proof.
  intros Hr Hal. rewrite next_boundary_value by exact Hr.
  assert (8 * ceil8 r = r) by (unfold ceil8; Z.to_euclidean_division_equations; lia).
  rewrite H. apply Z.mod_small. exact Hr.
Qed.

Lemma packet_size_bits_shape ts :
  is_size_t (packet_size_bits ts) /\ packet_size_bits ts mod 8 = 0.
Proof.
  unfold packet_size_bits. cbn [kSizeBits]. cbv zeta.
  split; [apply bits_to_contain_is_size_t|apply next_boundary_aligned].
Qed.

Lemma nested_packet_size ts :
  packet_size_bits [TPacket ts] = packet_size_bits ts.
Proof.
  destruct (packet_size_bits_shape ts) as [Hsz Hal].
  unfold packet_size_bits in *.
  change (kSizeBits (TPacket [TPacket ts]))
    with (math.next_boundary_bit_pos
            (wrap (math.bits_to_contain (math.bytes_to_contain 0)
                   + kSizeBits (TPacket ts)))).
  change (math.bits_to_contain (math.bytes_to_contain 0)) with 0.
  rewrite Z.add_0_l, wrap_small by exact Hsz.
  apply next_boundary_fixed; assumption.
Qed.

Lemma guard_passed_start ts buffer c :
  is_size_t c -> span_ok buffer ->
  (wrap (math.bytes_to_contain c + kSizeBytes ts) >? Span_size buffer) = false ->
  let start := math.bits_to_contain (math.bytes_to_contain c) in
  math.bytes_to_contain start = math.bytes_to_contain c /\
  math.bits_to_contain (math.bytes_to_contain start) = start.
Proof.
  intros Hc Hs Hg start.
  pose proof size_t_modulus_eq as Hm.
  destruct (packet_size_bits_shape ts) as [Hsz _].
  unfold kSizeBytes in Hg.
  rewrite !bytes_to_contain_ceil in Hg by assumption.
  rewrite Span_size_length in Hg by assumption.
  pose proof (ceil8_bounds c) as Hb1.
  pose proof (ceil8_bounds (packet_size_bits ts)) as Hb2.
  unfold is_size_t, span_ok in *.
  rewrite wrap_small in Hg by (unfold is_size_t; lia).
  rewrite Z.gtb_ltb in Hg. apply Z.ltb_ge in Hg.
  assert (Hstart : start = 8 * ceil8 c).
  { unfold start. rewrite bytes_to_contain_ceil by (unfold is_size_t; lia).
    apply bits_to_contain_mul; lia. }
  assert (Hbt : math.bytes_to_contain start = math.bytes_to_contain c).
  { rewrite Hstart, !bytes_to_contain_ceil by (unfold is_size_t; lia).
    apply ceil8_aligned. }
  split; [exact Hbt|]. rewrite Hbt. reflexivity.
Qed.

Lemma nested_encode p buffer c :
  is_size_t c -> span_ok buffer ->
  encode_packet [PacketField p] buffer c = encode_packet p buffer c.
Proof.
  intros Hc Hs. unfold encode_packet.
  change (encode (PacketField [PacketField p]) buffer c)
    with (encode_Packet (encode_packet_fields_recursive encode) [PacketField p] buffer c).
  unfold encode_Packet at 1. cbv zeta.
  change (map type_of [PacketField p]) with [TPacket (map type_of p)].
  unfold kSizeBytes at 1. rewrite nested_packet_size. fold (kSizeBytes (map type_of p)).
  cbn [encode_packet_fields_recursive].
  change (encode (PacketField p) buffer c)
    with (encode_Packet (encode_packet_fields_recursive encode) p buffer c).
  change (encode (PacketField p) buffer (math.bits_to_contain (math.bytes_to_contain c)))
    with (encode_Packet (encode_packet_fields_recursive encode) p buffer
            (math.bits_to_contain (math.bytes_to_contain c))).
  unfold encode_Packet. cbv zeta.
  destruct (wrap (math.bytes_to_contain c + kSizeBytes (map type_of p)) >? Span_size buffer)
    eqn:Hg; [reflexivity|].
  destruct (guard_passed_start _ _ _ Hc Hs Hg) as [Hbt Hst].
  rewrite Hbt, Hg.
  destruct (encode_packet_fields_recursive encode p buffer
              (math.bits_to_contain (math.bytes_to_contain c))) as [[[r b] c2]|];
    cbn [obind]; [|reflexivity].
  destruct r; cbn [IsSuccess IsFailure obind].
  - rewrite next_boundary_fixed; [reflexivity| |apply next_boundary_aligned].
    apply bits_to_contain_is_size_t.
  - reflexivity.
Qed.

Lemma nested_decode p buffer c :
  is_size_t c -> span_ok buffer ->
  decode_packet buffer c [PacketField p]
  = (do (result, buffer', c', p') <- decode_packet buffer c p;
     Some (result, buffer', c', [PacketField p'])).
Proof.
  intros Hc Hs. unfold decode_packet.
  unfold decode_Packet at 1. cbv zeta.
  change (map type_of [PacketField p]) with [TPacket (map type_of p)].
  unfold kSizeBytes at 1. rewrite nested_packet_size. fold (kSizeBytes (map type_of p)).
  cbn [decode_packet_fields_recursive].
  change (decode buffer (math.bits_to_contain (math.bytes_to_contain c)) (PacketField p))
    with (do (result, buffer0, offset_bits, m_fields) <-
            decode_Packet (decode_packet_fields_recursive decode) buffer
              (math.bits_to_contain (math.bytes_to_contain c)) p;
          Some (result, buffer0, offset_bits, PacketField m_fields)).
  unfold decode_Packet. cbv zeta.
  destruct (wrap (math.bytes_to_contain c + kSizeBytes (map type_of p)) >? Span_size buffer)
    eqn:Hg; [reflexivity|].
  destruct (guard_passed_start _ _ _ Hc Hs Hg) as [Hbt Hst].
  rewrite Hbt, Hg.
  destruct (decode_packet_fields_recursive decode buffer
              (math.bits_to_contain (math.bytes_to_contain c)) p) as [[[[r b] c2] p']|];
    cbn [obind]; [|reflexivity].
  destruct r; cbn [IsSuccess IsFailure obind].
  - rewrite next_boundary_fixed; [reflexivity| |apply next_boundary_aligned].
    apply bits_to_contain_is_size_t.
  - reflexivity.
Qed.

(** X9. Nesting is transparent: a packet whose only field is a nested packet
    has the size of the nested packet, is encoded exactly as the nested packet
    is (same result, same bytes, same cursor), and is decoded as the nested
    packet is; no header and no padding is added by the wrapping. *)
Theorem nested_packet_is_transparent (p : list field) (buffer : list Z) (c : Z) :
  is_size_t c -> span_ok buffer ->
  packet_size_bits [TPacket (map type_of p)] = packet_size_bits (map type_of p) /\
  kSizeBytes [TPacket (map type_of p)] = kSizeBytes (map type_of p) /\
  encode_packet [PacketField p] buffer c = encode_packet p buffer c /\
  decode_packet buffer c [PacketField p]
  = (do (result, buffer', c', p') <- decode_packet buffer c p;
     Some (result, buffer', c', [PacketField p'])).
Proof.
  intros Hc Hs. split; [apply nested_packet_size|].
  split; [unfold kSizeBytes; rewrite nested_packet_size; reflexivity|].
  split; [apply nested_encode; assumption|apply nested_decode; assumption].
Qed.

(** A three-bit field and a [uint16_t], bare and wrapped, from cursor 3. *)
Lemma nested_packet_is_transparent_witness :
  let p := [BitField 3 [5]; Field [0x5A; 0xA5]] in
  encode_packet [PacketField p] [0; 0; 0; 0] 3 = encode_packet p [0; 0; 0; 0] 3 /\
  encode_packet p [0; 0; 0; 0] 3 = Some (Success, [0; 5; 0x5A; 0xA5], 32).
Proof.
  intros p. split; [|reflexivity].
  apply (nested_packet_is_transparent p [0; 0; 0; 0] 3).
  - vm_compute. split; [discriminate|reflexivity].
  - vm_compute. reflexivity.
Defined.

Lemma layout_bounds ts : forall c,
  forallb wf_type ts = true -> 0 <= c ->
  let total := fold_right (fun t acc => size_in_bits t + acc) 0 ts in
  c + total <= layout size_in_bits ts c <= c + total + 7 * Z.of_nat (length ts).
Proof.
  induction ts as [|t ts IH]; intros c Hwf Hc; cbn [layout fold_right length].
  - cbv zeta. lia.
  - cbn [forallb] in Hwf. apply andb_true_iff in Hwf as [Hwt Hwts].
    pose proof (size_in_bits_nonneg t Hwt) as Hnn.
    pose proof (ceil8_bounds c) as Hb.
    assert (He : c + size_in_bits t <= end_of (size_in_bits t) c t
                 <= c + size_in_bits t + 7)
      by (destruct t; cbn [end_of]; lia).
    specialize (IH (end_of (size_in_bits t) c t) Hwts ltac:(lia)).
    cbv zeta in IH |- *. lia.
Qed.

Lemma layout_aligned sizes : forall k,
  layout size_in_bits (map TField sizes) (8 * k) = 8 * (k + fold_right Z.add 0 sizes).
Proof.
  induction sizes as [|s sizes IH]; intros k; cbn [map layout fold_right].
  - f_equal. lia.
  - cbn [end_of size_in_bits]. rewrite ceil8_aligned.
    replace (8 * k + 8 * s) with (8 * (k + s)) by lia.
    rewrite IH. lia.
Qed.

(** X10. The size constants of a packet: [kSizeBits] is a multiple of 8 and
    eight times [kSizeBytes]; it is never below the sum of the sizes of the
    fields, and the padding added is below 8 bits per field plus 8; for a
    packet of byte-aligned [Field<T>] only there is no padding at all and
    [kSizeBytes] is the sum of the [sizeof(T)]. *)
Theorem packet_size_bounds (ts : list field_type) :
  schema_ok (TPacket ts) ->
  let total := fold_right (fun t acc => size_in_bits t + acc) 0 ts in
  packet_size_bits ts mod 8 = 0 /\
  packet_size_bits ts = 8 * kSizeBytes ts /\
  total <= packet_size_bits ts <= total + 7 * Z.of_nat (length ts) + 7 /\
  (forall sizes, ts = map TField sizes ->
     kSizeBytes ts = fold_right Z.add 0 sizes /\
     kNumFields ts = Z.of_nat (length sizes)).
Proof.
  intros Hsok total. pose proof Hsok as [Hwt Hlt].
  assert (Hbits : packet_size_bits ts = size_in_bits (TPacket ts))
    by (apply kSizeBits_size_in_bits; assumption).
  assert (Hbytes : kSizeBytes ts = size_in_bytes (TPacket ts))
    by (apply kSizeBytes_size_in_bytes; exact Hsok).
  pose proof (size_in_bits_packet_aligned ts) as Hal.
  split; [apply packet_size_bits_shape|].
  split; [rewrite Hbits, Hbytes; exact Hal|].
  split.
  - rewrite Hbits. cbn [size_in_bits].
    cbn [wf_type] in Hwt.
    pose proof (layout_bounds ts 0 Hwt ltac:(lia)) as Hb. cbv zeta in Hb.
    pose proof (ceil8_bounds (layout size_in_bits ts 0)) as Hc.
    fold total in Hb. lia.
  - intros sizes ->. split.
    + rewrite Hbytes. unfold size_in_bytes. cbn [size_in_bits].
      replace 0 with (8 * 0) at 1 by lia. rewrite layout_aligned.
      rewrite !ceil8_aligned. lia.
    + unfold kNumFields. rewrite length_map. reflexivity.
Qed.

(** The loosely packed schema of the test suite, [Bit; uint8_t; bool;
    BitField<14>; uint16_t]: 41 bits of fields in 56 bits; and three aligned
    fields of 1, 2 and 4 bytes in 7 bytes. *)
Lemma packet_size_bounds_witness :
  packet_size_bits [TBitField 1; TField 1; TField 1; TBitField 14; TField 2] = 8 * 7 /\
  kSizeBytes [TField 1; TField 2; TField 4] = 7.
Proof.
  split.
  - destruct (packet_size_bounds [TBitField 1; TField 1; TField 1; TBitField 14; TField 2])
      as (_ & H8 & _); [split; [reflexivity|vm_compute; reflexivity]|].
    rewrite H8. reflexivity.
  - destruct (packet_size_bounds [TField 1; TField 2; TField 4]) as (_ & _ & _ & Hsum);
      [split; [reflexivity|vm_compute; reflexivity]|].
    destruct (Hsum [1; 2; 4] eq_refl) as [Hbytes _]. exact Hbytes.
Defined.

End PacketShapes.

(** ** Packet.hpp : what the decoder looks at, and where *)

Section DecoderView.

(** X11. The packet decoder never inspects what it reads: for two buffers
    of the same length, whatever they contain, [decode] of the same packet
    object from the same cursor returns the same result code and the same
    cursor; in particular the bits under a [ConstBitField] are not compared
    with its stored constant, and no content makes the decoder fail. *)
Theorem decode_never_inspects_content (p : list field) (b1 b2 : list Z) (c : Z) :
  forallb wf_field p = true -> schema_ok (TPacket (map type_of p)) ->
  span_ok b1 -> length b1 = length b2 -> is_size_t c ->
  exists r c' p1 p2,
    decode_packet b1 c p = Some (r, b1, c', p1) /\
    decode_packet b2 c p = Some (r, b2, c', p2) /\
    map type_of p1 = map type_of p /\ map type_of p2 = map type_of p.
Proof.
  intros Hwf Hsok Hs1 Hlen Hc.
  assert (Hs2 : span_ok b2) by (unfold span_ok in *; rewrite <- Hlen; exact Hs1).
  pose proof (decode_packet_cases p b1 c Hwf Hsok Hs1 Hc) as H1.
  pose proof (decode_packet_cases p b2 c Hwf Hsok Hs2 Hc) as H2.
  rewrite <- Hlen in H2.
  destruct (ceil8 c + size_in_bytes (TPacket (map type_of p)) >? Z.of_nat (length b1)).
  - exists Failure, c, p, p. auto.
  - destruct H1 as (p1 & Hr1 & Ht1 & _). destruct H2 as (p2 & Hr2 & Ht2 & _).
    exists Success, (next_cursor c (PacketField p)), p1, p2. auto.
Qed.

(** A packet with a reserved nibble holding 3, decoded from a byte whose low
    nibble is 3 and from one whose low nibble is 0. *)
Lemma decode_never_inspects_content_witness :
  exists r c' p1 p2,
    decode_packet [0xA3] 0 [ConstBitField 4 [3]; BitField 4 [0]] = Some (r, [0xA3], c', p1) /\
    decode_packet [0xA0] 0 [ConstBitField 4 [3]; BitField 4 [0]] = Some (r, [0xA0], c', p2).
Proof.
  destruct (decode_never_inspects_content
              [ConstBitField 4 [3]; BitField 4 [0]] [0xA3] [0xA0] 0)
    as (r & c' & p1 & p2 & H1 & H2 & _).
  - reflexivity.
  - split; [reflexivity|vm_compute; reflexivity].
  - vm_compute. reflexivity.
  - reflexivity.
  - vm_compute. split; [discriminate|reflexivity].
  - exists r, c', p1, p2. split; assumption.
Defined.

Lemma nth_error_parts (A : Type) (l : list A) : forall i x,
  nth_error l i = Some x -> l = firstn i l ++ x :: skipn (S i) l.
Proof.
  induction l as [|a l IH]; intros [|i] x H; cbn in H; try discriminate.
  - injection H as ->. reflexivity.
  - cbn [firstn skipn app]. f_equal. apply IH. exact H.
Qed.

Lemma decode_fields_by_position buffer : forall fs c fs' c',
  forallb wf_field fs = true -> span_ok buffer -> 0 <= c ->
  layout size_in_bits (map type_of fs) c <= 8 * Z.of_nat (length buffer) ->
  decode_packet_fields_recursive decode buffer c fs = Some (Success, buffer, c', fs') ->
  forall i f, nth_error fs i = Some f ->
    let at_i := layout size_in_bits (map type_of (firstn i fs)) c in
    exists f', nth_error fs' i = Some f' /\
               decode buffer at_i f = Some (Success, buffer, next_cursor at_i f, f').
Proof.
  induction fs as [|a fs IH]; intros c fs' c' Hwf Hs Hc Hroom Hrun i f Hnth.
  - destruct i; discriminate.
  - cbn [forallb] in Hwf. apply andb_true_iff in Hwf as [Hwa Hwfs].
    cbn [map layout] in Hroom. fold (next_cursor c a) in Hroom.
    pose proof (next_cursor_ge c a Hwa Hc) as Hge.
    pose proof (layout_fields_ge fs (next_cursor c a) Hwfs ltac:(lia)) as Hge'.
    destruct (decode_field_ok a Hwa buffer c) as (a' & Hd & _); try assumption; [lia|].
    cbn [decode_packet_fields_recursive] in Hrun. rewrite Hd in Hrun.
    cbn [obind IsFailure Success] in Hrun.
    destruct (decode_packet_fields_recursive decode buffer (next_cursor c a) fs)
      as [[[[r b] c2] rest']|] eqn:Hrest; cbn [obind] in Hrun; [|discriminate].
    injection Hrun as -> -> -> <-.
    destruct i as [|i].
    + cbn in Hnth. injection Hnth as <-. exists a'.
      cbn [firstn map layout nth_error]. split; [reflexivity|exact Hd].
    + cbn [nth_error] in Hnth. cbn [firstn map layout nth_error].
      fold (next_cursor c a).
      apply (IH (next_cursor c a) rest' c'); try assumption. lia.
Qed.

(** X12. Fields are decoded independently and by position: after a
    successful packet [decode], [packet_field_value<i>] of the packet is the
    value a stand-alone [decode] of field [i] yields at the cursor where the
    layout of the fields before it ends; for a byte-aligned [Field<T>] it is
    the [sizeof(T)] buffer cells from the next byte boundary of that cursor
    on.  An index that is not below the number of fields has no value. *)
Theorem decoded_field_by_position (p : list field) (buffer : list Z) (c c' : Z)
    (p' : list field) :
  forallb wf_field p = true -> schema_ok (TPacket (map type_of p)) ->
  span_ok buffer -> is_size_t c ->
  decode_packet buffer c p = Some (Success, buffer, c', p') ->
  (forall i f, nth_error p i = Some f ->
     let at_i := layout size_in_bits (map type_of (firstn i p)) (8 * ceil8 c) in
     exists f',
       decode buffer at_i f = Some (Success, buffer, next_cursor at_i f, f') /\
       packet_field_value i p' = Some (value_of f') /\
       (forall v, f = Field v ->
          packet_field_value i p'
          = Some (Bytes (firstn (length v) (skipn (Z.to_nat (ceil8 at_i)) buffer))))) /\
  (forall i, (length p <= i)%nat -> packet_field_value i p' = None).
Proof.
  intros Hwf Hsok Hs Hc Hrun.
  pose proof (decode_packet_cases p buffer c Hwf Hsok Hs Hc) as Hcases.
  destruct (Z.gtb_spec (ceil8 c + size_in_bytes (TPacket (map type_of p)))
                       (Z.of_nat (length buffer))) as [Hgt|Hle].
  { rewrite Hcases in Hrun. discriminate. }
  destruct Hcases as (p1 & Hrun1 & Hty & _).
  rewrite Hrun1 in Hrun. injection Hrun as <- ->.
  pose proof (packet_cursor_fits p buffer c Hle) as Hfit.
  rewrite packet_cursor_layout in Hfit.
  pose proof (ceil8_bounds (layout size_in_bits (map type_of p) (8 * ceil8 c))) as Hb.
  pose proof (ceil8_bounds c) as Hbc.
  assert (Hc0 : 0 <= 8 * ceil8 c) by (unfold is_size_t in Hc; lia).
  pose proof (layout_fields_ge p (8 * ceil8 c) Hwf Hc0) as Hlay.
  assert (Hstart : math.bits_to_contain (math.bytes_to_contain c) = 8 * ceil8 c).
  { rewrite bytes_to_contain_ceil by assumption.
    unfold span_ok in Hs. apply bits_to_contain_mul; lia. }
  assert (Hrec : exists c2,
    decode_packet_fields_recursive decode buffer (8 * ceil8 c) p
    = Some (Success, buffer, c2, p')).
  { unfold decode_packet, decode_Packet in Hrun1. cbv zeta in Hrun1.
    rewrite packet_guard in Hrun1 by assumption.
    destruct (Z.gtb_spec (ceil8 c + size_in_bytes (TPacket (map type_of p)))
                         (Z.of_nat (length buffer))); [lia|].
    rewrite Hstart in Hrun1.
    destruct (decode_packet_fields_recursive decode buffer (8 * ceil8 c) p)
      as [[[[r b] c2] fs']|]; cbn [obind] in Hrun1; [|discriminate].
    injection Hrun1 as -> -> _ ->. exists c2. reflexivity. }
  destruct Hrec as (c2 & Hrec).
  split.
  - intros i f Hnth at_i.
    destruct (decode_fields_by_position buffer p (8 * ceil8 c) p' c2 Hwf Hs Hc0
                ltac:(lia) Hrec i f Hnth) as (f' & Hnth' & Hd).
    fold at_i in Hd.
    exists f'. split; [exact Hd|].
    assert (Hval : packet_field_value i p' = Some (value_of f'))
      by (unfold packet_field_value; rewrite Hnth'; reflexivity).
    split; [exact Hval|].
    intros v ->. rewrite Hval. f_equal.
    pose proof (nth_error_parts _ p i (Field v) Hnth) as Hparts.
    assert (Hwf' : forallb wf_field (firstn i p ++ Field v :: skipn (S i) p) = true)
      by (rewrite <- Hparts; exact Hwf).
    destruct (split_layout _ _ _ (8 * ceil8 c) Hwf' Hc0) as [Hat Hnext].
    rewrite <- Hparts in Hnext. fold at_i in Hat, Hnext.
    unfold next_cursor in Hnext. cbn [type_of end_of size_in_bits] in Hnext.
    pose proof (ceil8_bounds at_i) as Hba.
    cbn [decode] in Hd.
    rewrite decode_value_spec in Hd;
      [|unfold is_size_t, span_ok in *; lia|exact Hs|unfold span_ok in Hs; lia].
    cbv zeta in Hd.
    destruct (Z.gtb_spec (ceil8 at_i + Z.of_nat (length v)) (Z.of_nat (length buffer)));
      [lia|].
    cbn [obind] in Hd. injection Hd as <-. reflexivity.
  - intros i Hi. unfold packet_field_value.
    assert (Hlen : length p' = length p).
    { rewrite <- (length_map type_of p'), Hty. apply length_map. }
    destruct (nth_error p' i) eqn:Hn; [|reflexivity].
    assert (Hsome : nth_error p' i <> None) by (rewrite Hn; discriminate).
    apply nth_error_Some in Hsome. lia.
Qed.

(** A three-bit field followed by a [uint16_t], decoded from three cells: the
    second field is the second and third cell. *)
Lemma decoded_field_by_position_witness :
  let p := [BitField 3 [0]; Field [0; 0]] in
  exists p',
    decode_packet [5; 0x5A; 0xA5] 0 p = Some (Success, [5; 0x5A; 0xA5], 24, p') /\
    packet_field_value 1 p' = Some (Bytes [0x5A; 0xA5]) /\
    packet_field_value 2 p' = None.
Proof.
  intros p. exists [BitField 3 [5]; Field [0x5A; 0xA5]].
  assert (Hrun : decode_packet [5; 0x5A; 0xA5] 0 p
                 = Some (Success, [5; 0x5A; 0xA5], 24, [BitField 3 [5]; Field [0x5A; 0xA5]]))
    by reflexivity.
  destruct (decoded_field_by_position p [5; 0x5A; 0xA5] 0 24
              [BitField 3 [5]; Field [0x5A; 0xA5]]) as [Hin Hout].
  - reflexivity.
  - split; [reflexivity|vm_compute; reflexivity].
  - vm_compute. reflexivity.
  - vm_compute. split; [discriminate|reflexivity].
  - exact Hrun.
  - split; [exact Hrun|]. split.
    + destruct (Hin 1%nat (Field [0; 0]) eq_refl) as (f' & _ & _ & Hbytes).
      exact (Hbytes [0; 0] eq_refl).
    + apply Hout. cbn [length p]. lia.
Defined.

End DecoderView.

(** ** Core/Span.hpp *)

Section Spans.

Import span.

Lemma npos_value : npos = 18446744073709551615.
Proof. reflexivity. Qed.

Lemma subspan_clamped s start count :
  is_size_t (m_count s) -> 0 <= start <= m_count s ->
  count = npos \/ (0 <= count /\ start + count < size_t_modulus) ->
  subspan s start count
  = from_count (m_data s + start) (Z.min count (m_count s - start)).
Proof.
  intros Hn Hstart Hcount. pose proof size_t_modulus_eq as Hm. pose proof npos_value as Hp.
  unfold is_size_t in Hn. unfold subspan. cbv zeta. f_equal.
  destruct (Z.eqb_spec count npos) as [->|Hne]; cbn [orb].
  - rewrite wrap_small by (unfold is_size_t; lia). lia.
  - destruct Hcount as [->|[Hc0 Hlt]]; [contradiction|].
    rewrite (wrap_small (start + count)) by (unfold is_size_t; lia).
    destruct (Z.gtb_spec (start + count) (m_count s)).
    + rewrite wrap_small by (unfold is_size_t; lia). lia.
    + lia.
Qed.

Lemma view_nested (A : Type) (arr : list A) (d start n m : nat) :
  (m <= n - start)%nat ->
  firstn m (skipn (d + start) arr) = firstn m (skipn start (firstn n (skipn d arr))).
Proof.
  intros Hle. rewrite skipn_firstn_comm, firstn_firstn, Nat.min_l by lia.
  rewrite skipn_skipn. f_equal. f_equal. lia.
Qed.

(** X13. [subspan(start, count)] with [start] not beyond the count of the
    span, and with [count] either [npos] or such that [start + count] does
    not overflow [size_t]: the count of the result is [count] clamped to what
    follows [start] ([npos] meaning all of it), the result lies within the
    parent and within the array, and it designates the corresponding elements
    of the parent. *)
Theorem subspan_within (A : Type) (arr : list A) (s : Span) (start count : Z) :
  within arr s -> is_size_t (m_count s) -> 0 <= start <= m_count s ->
  count = npos \/ (0 <= count /\ start + count < size_t_modulus) ->
  let sub := subspan s start count in
  m_count sub = Z.min count (m_count s - start) /\
  within arr sub /\
  begin s <= begin sub /\ end_ sub <= end_ s /\
  view arr sub = firstn (Z.to_nat (m_count sub)) (skipn (Z.to_nat start) (view arr s)) /\
  (forall i, at_ arr sub i = at_ arr s (start + i)).
Proof.
  intros (Hd & Hc & Hend) Hn Hstart Hcount sub. pose proof npos_value as Hp.
  assert (Hsub : sub = from_count (m_data s + start) (Z.min count (m_count s - start)))
    by (apply subspan_clamped; assumption).
  assert (Hmin : 0 <= Z.min count (m_count s - start) <= m_count s - start).
  { unfold is_size_t in Hn. destruct Hcount as [->|[Hc0 _]]; lia. }
  rewrite Hsub. unfold from_count, begin, end_, within, view, at_.
  cbn [m_count m_data].
  split; [reflexivity|]. split; [lia|].
  split; [lia|]. split; [lia|]. split.
  - replace (Z.to_nat (m_data s + start)) with (Z.to_nat (m_data s) + Z.to_nat start)%nat
      by lia.
    apply view_nested. lia.
  - intros i. f_equal. lia.
Qed.

(** The middle of a five-element array, and its tail. *)
Lemma subspan_within_witness :
  let arr := [10; 11; 12; 13; 14] in
  view arr (subspan (from_array arr) 1 3) = [11; 12; 13] /\
  m_count (subspan (from_array arr) 2 npos) = 3.
Proof.
  intros arr.
  assert (Hw : within arr (from_array arr)) by (vm_compute; repeat split; discriminate).
  assert (Hn : is_size_t (m_count (from_array arr)))
    by (vm_compute; split; [discriminate|reflexivity]).
  split.
  - destruct (subspan_within Z arr (from_array arr) 1 3 Hw Hn) as (_ & _ & _ & _ & Hv & _).
    + vm_compute. split; discriminate.
    + right. vm_compute. split; [discriminate|reflexivity].
    + rewrite Hv. reflexivity.
  - destruct (subspan_within Z arr (from_array arr) 2 npos Hw Hn) as (Hc & _).
    + vm_compute. split; discriminate.
    + left. reflexivity.
    + rewrite Hc. reflexivity.
Defined.

(** X14. [subspan] does not check [start], and its clamp test
    [start + count > m_count] is computed in [size_t].  When [start] lies
    beyond the count of the span and the clamp is taken ([count] is [npos],
    or the sum [start + count] reduced modulo [2^64] exceeds [m_count]), the
    count of the result wraps to [2^64 - (start - m_count)] and the result is
    not within the array.  When [count] is not [npos] and [start + count]
    overflows [size_t] to a value that is not above [m_count], the clamp is
    not taken: [count] is kept as it is, and the result ends past the end of
    the parent and is not within the array.  Altogether the result lies
    within the parent exactly when [start] is not beyond the count and
    [count] is [npos] or [start + count] does not overflow [size_t].  (The
    parent lies within its array, which has fewer than [2^64] elements.) *)
Theorem subspan_unchecked (A : Type) (arr : list A) (s : Span) (start count : Z) :
  within arr s -> is_size_t (m_count s) -> Z.of_nat (length arr) < size_t_modulus ->
  is_size_t start -> is_size_t count ->
  let sub := subspan s start count in
  (m_count s < start ->
   count = npos \/ m_count s < wrap (start + count) ->
   m_count sub = size_t_modulus - (start - m_count s) /\
   ~ within arr sub) /\
  (count <> npos -> size_t_modulus <= start + count ->
   start + count - size_t_modulus <= m_count s ->
   m_count sub = count /\ end_ s < end_ sub /\ ~ within arr sub) /\
  (begin s <= begin sub /\ end_ sub <= end_ s
   <-> start <= m_count s /\ (count = npos \/ start + count < size_t_modulus)).
Proof.
  intros (Hd & Hc & Hend) Hn Hlen Hstart Hcount sub.
  pose proof size_t_modulus_eq as Hm. pose proof npos_value as Hp.
  unfold is_size_t in *.
  assert (Hdata : m_data sub = m_data s + start) by reflexivity.
  assert (Hpast : m_count s < start ->
            count = npos \/ m_count s < wrap (start + count) ->
            m_count sub = size_t_modulus - (start - m_count s)).
  { intros Hlt Hcl.
    assert (Hw : wrap (m_count s - start) = size_t_modulus - (start - m_count s)).
    { unfold wrap. symmetry. apply (Z.mod_unique _ _ (-1)); lia. }
    rewrite <- Hw. unfold sub, subspan. cbv zeta. cbn [from_count m_count].
    destruct (Z.eqb_spec count npos) as [->|Hne]; cbn [orb]; [reflexivity|].
    destruct Hcl as [->|Hgt]; [contradiction|].
    destruct (Z.gtb_spec (wrap (start + count)) (m_count s)); [reflexivity|lia]. }
  assert (Hkept : count <> npos -> size_t_modulus <= start + count ->
            start + count - size_t_modulus <= m_count s -> m_count sub = count).
  { intros Hne Hover Hfit. unfold sub, subspan. cbv zeta. cbn [from_count m_count].
    destruct (Z.eqb_spec count npos) as [|_]; [contradiction|]. cbn [orb].
    assert (Hw : wrap (start + count) = start + count - size_t_modulus).
    { unfold wrap. symmetry. apply (Z.mod_unique _ _ 1); lia. }
    rewrite Hw. destruct (Z.gtb_spec (start + count - size_t_modulus) (m_count s));
      [lia|reflexivity]. }
  assert (Hnonneg : 0 <= m_count sub).
  { unfold sub, subspan. cbv zeta. cbn [from_count m_count].
    destruct ((count =? npos) || (wrap (start + count) >? m_count s)); [|lia].
    unfold wrap. apply Z.mod_pos_bound. lia. }
  split; [|split].
  - intros Hlt Hcl. specialize (Hpast Hlt Hcl). split; [exact Hpast|].
    unfold within. rewrite Hdata, Hpast. lia.
  - intros Hne Hover Hfit. specialize (Hkept Hne Hover Hfit).
    split; [exact Hkept|]. unfold end_, within. rewrite Hdata, Hkept.
    split; [lia|]. lia.
  - unfold begin, end_. rewrite Hdata. split.
    + intros [_ Hin].
      assert (Hs : start <= m_count s) by lia.
      split; [exact Hs|].
      destruct (Z.eq_dec count npos) as [|Hne]; [left; assumption|right].
      destruct (Z_lt_le_dec (start + count) size_t_modulus) as [|Hover]; [assumption|].
      rewrite (Hkept Hne Hover) in Hin by lia. lia.
    + intros [Hs Hcnt].
      assert (Hsub : sub = from_count (m_data s + start) (Z.min count (m_count s - start))).
      { apply subspan_clamped; [unfold is_size_t; lia|lia|].
        destruct Hcnt as [->|Hlt]; [left; reflexivity|right; lia]. }
      rewrite Hsub. cbn [from_count m_count]. lia.
Qed.

(** A span of three elements asked for what follows position 5 and for
    [2^64 - 5] elements from position 10, which are clamped to counts that
    wrap; and for [2^64 - 2] elements from position 2 and [2^64 - 8] from
    position 10, which are kept. *)
Lemma subspan_unchecked_witness :
  m_count (subspan (from_array [1; 2; 3]) 5 npos) = size_t_modulus - 2 /\
  m_count (subspan (from_array [1; 2; 3]) 10 (size_t_modulus - 5)) = size_t_modulus - 7 /\
  m_count (subspan (from_array [1; 2; 3]) 2 (size_t_modulus - 2)) = size_t_modulus - 2 /\
  m_count (subspan (from_array [1; 2; 3]) 10 (size_t_modulus - 8)) = size_t_modulus - 8.
Proof.
  assert (Hw : within [1; 2; 3] (from_array [1; 2; 3]))
    by (vm_compute; repeat split; discriminate).
  assert (Hsz : forall z, (0 <=? z) && (z <? size_t_modulus) = true -> is_size_t z).
  { intros z H. apply andb_true_iff in H. destruct H as [H1 H2].
    apply Z.leb_le in H1. apply Z.ltb_lt in H2. split; assumption. }
  assert (Hn : is_size_t (m_count (from_array [1; 2; 3]))) by (apply Hsz; reflexivity).
  assert (Hl : Z.of_nat (length [1; 2; 3]) < size_t_modulus) by (vm_compute; reflexivity).
  split; [|split; [|split]].
  - destruct (subspan_unchecked Z [1; 2; 3] (from_array [1; 2; 3]) 5 npos Hw Hn Hl)
      as (Hpast & _); try (apply Hsz; reflexivity).
    destruct Hpast as [Hc _]; [vm_compute; reflexivity|left; reflexivity|exact Hc].
  - destruct (subspan_unchecked Z [1; 2; 3] (from_array [1; 2; 3]) 10 (size_t_modulus - 5)
                Hw Hn Hl) as (Hpast & _); try (apply Hsz; reflexivity).
    destruct Hpast as [Hc _];
      [vm_compute; reflexivity|right; vm_compute; reflexivity|exact Hc].
  - destruct (subspan_unchecked Z [1; 2; 3] (from_array [1; 2; 3]) 2 (size_t_modulus - 2)
                Hw Hn Hl) as (_ & Hkept & _); try (apply Hsz; reflexivity).
    destruct Hkept as [Hc _]; try (vm_compute; discriminate). exact Hc.
  - destruct (subspan_unchecked Z [1; 2; 3] (from_array [1; 2; 3]) 10 (size_t_modulus - 8)
                Hw Hn Hl) as (_ & Hkept & _); try (apply Hsz; reflexivity).
    destruct Hkept as [Hc _]; try (vm_compute; discriminate). exact Hc.
Defined.

(** X15. Sub-spans compose: the sub-span at [b] of the tail at [a] is the
    sub-span at [a + b] of the span itself, for every requested count. *)
Theorem subspan_compose (s : Span) (a b count : Z) :
  is_size_t (m_count s) -> 0 <= a -> 0 <= b -> a + b <= m_count s ->
  count = npos \/ (0 <= count /\ a + b + count < size_t_modulus) ->
  subspan (subspan s a npos) b count = subspan s (a + b) count.
Proof.
  intros Hn Ha Hb Hab Hcount. pose proof npos_value as Hp.
  pose proof size_t_modulus_eq as Hm.
  rewrite (subspan_clamped s a npos) by (auto; lia).
  rewrite (subspan_clamped s (a + b) count) by (auto; lia).
  unfold is_size_t in Hn.
  rewrite subspan_clamped; cbn [from_count m_count m_data].
  - unfold from_count. f_equal; lia.
  - unfold is_size_t. lia.
  - lia.
  - destruct Hcount as [->|[Hc0 Hlt]]; [left; reflexivity|right; lia].
Qed.

Lemma subspan_compose_witness :
  subspan (subspan (from_array [1; 2; 3; 4; 5]) 1 npos) 2 1
  = subspan (from_array [1; 2; 3; 4; 5]) (1 + 2) 1.
Proof.
  apply (subspan_compose (from_array [1; 2; 3; 4; 5]) 1 2 1).
  - vm_compute. split; [discriminate|reflexivity].
  - lia.
  - lia.
  - vm_compute. discriminate.
  - right. vm_compute. split; [discriminate|reflexivity].
Defined.

End Spans.

(** ** Test/Source/Data/Help.hpp : comparing byte spans *)

Section SpanComparison.

Import span.

Lemma view_length (A : Type) (arr : list A) (s : Span) :
  within arr s -> length (view arr s) = Z.to_nat (m_count s).
Proof.
  intros (Hd & Hc & Hend). unfold view.
  rewrite length_firstn, length_skipn. lia.
Qed.

Lemma view_nth (arr : list Z) (s : Span) (k : nat) :
  within arr s -> (k < Z.to_nat (m_count s))%nat ->
  nth k (view arr s) 0 = nth (Z.to_nat (m_data s + Z.of_nat k)) arr 0.
Proof.
  intros (Hd & Hc & Hend) Hk. unfold view.
  rewrite nth_firstn. destruct (Nat.ltb_spec k (Z.to_nat (m_count s))); [|lia].
  rewrite nth_skipn. f_equal. lia.
Qed.

Lemma index_value (arr : list Z) (s : Span) (i : Z) :
  within arr s -> 0 <= i < m_count s ->
  index arr s i = Some (nth (Z.to_nat (m_data s + i)) arr 0).
Proof.
  intros (Hd & Hc & Hend) Hi. unfold index, at_, deref.
  destruct (Z.leb_spec 0 (m_data s + i)); [|lia].
  destruct (Z.ltb_spec (m_data s + i) (Z.of_nat (length arr))); [|lia].
  cbn [andb]. apply nth_error_nth'. lia.
Qed.

Lemma byte_spans_match_loop_spec arr1 s1 arr2 s2 :
  within arr1 s1 -> within arr2 s2 -> count s1 = count s2 -> is_size_t (count s1) ->
  forall fuel i, 0 <= i -> Z.of_nat fuel = count s1 - i ->
  exists b,
    byte_spans_match_loop fuel arr1 s1 arr2 s2 i = Some b /\
    (b = true <->
     forall k, i <= k < count s1 ->
       nth (Z.to_nat (m_data s1 + k)) arr1 0 = nth (Z.to_nat (m_data s2 + k)) arr2 0).
Proof.
  intros Hw1 Hw2 Hcnt Hsz.
  induction fuel as [|fuel IH]; intros i Hi Hfuel; cbn [byte_spans_match_loop].
  - exists true. split; [reflexivity|]. split; [|reflexivity]. intros _ k Hk. lia.
  - destruct (Z.ltb_spec i (count s1)); [|lia].
    unfold count in *.
    rewrite (index_value arr1 s1 i Hw1) by lia.
    rewrite (index_value arr2 s2 i Hw2) by lia.
    cbn [obind].
    destruct (Z.eqb_spec (nth (Z.to_nat (m_data s1 + i)) arr1 0)
                         (nth (Z.to_nat (m_data s2 + i)) arr2 0)) as [Heq|Hne];
      cbn [negb].
    + rewrite wrap_small by (unfold is_size_t in *; lia).
      destruct (IH (i + 1)) as (b & Hrun & Hb); [lia|lia|].
      exists b. split; [exact Hrun|]. rewrite Hb. split.
      * intros Hall k Hk. destruct (Z.eq_dec k i) as [->|]; [exact Heq|apply Hall; lia].
      * intros Hall k Hk. apply Hall. lia.
    + exists false. split; [reflexivity|]. split; [discriminate|].
      intros Hall. exfalso. apply Hne. apply Hall. lia.
Qed.

(** X16. The test helper [byte_spans_match] decides equality of what two
    byte spans designate: for spans that lie within their arrays it reads no
    cell outside them, and it reports success exactly when the two spans have
    the same count and the same bytes in the same order. *)
Theorem byte_spans_match_decides (arr1 arr2 : list Z) (s1 s2 : Span) :
  within arr1 s1 -> within arr2 s2 -> is_size_t (count s1) ->
  exists b,
    byte_spans_match arr1 s1 arr2 s2 = Some b /\
    (b = true <-> view arr1 s1 = view arr2 s2).
Proof.
  intros Hw1 Hw2 Hsz. unfold byte_spans_match.
  pose proof (view_length Z arr1 s1 Hw1) as Hl1.
  pose proof (view_length Z arr2 s2 Hw2) as Hl2.
  pose proof Hw1 as (_ & Hc1 & _). pose proof Hw2 as (_ & Hc2 & _).
  destruct (Z.eqb_spec (count s1) (count s2)) as [Hcnt|Hne]; cbn [negb].
  - destruct (byte_spans_match_loop_spec arr1 s1 arr2 s2 Hw1 Hw2 Hcnt Hsz
                (Z.to_nat (count s1)) 0) as (b & Hrun & Hb); [lia|unfold count; lia|].
    exists b. split; [exact Hrun|]. rewrite Hb. unfold count in *. split.
    + intros Hall. apply (nth_ext _ _ 0 0); [lia|].
      intros k Hk. rewrite Hl1 in Hk.
      rewrite !view_nth by (assumption || lia). apply Hall. lia.
    + intros Hv k Hk.
      replace k with (Z.of_nat (Z.to_nat k)) by lia.
      rewrite <- !view_nth by (assumption || lia). rewrite Hv. reflexivity.
  - exists false. split; [reflexivity|]. split; [discriminate|].
    intros Hv. exfalso. apply Hne. unfold count.
    apply (f_equal (@length Z)) in Hv. lia.
Qed.

Lemma byte_spans_match_decides_witness :
  exists b,
    byte_spans_match [0; 0x5A; 0xA5] (subspan (from_array [0; 0x5A; 0xA5]) 1 npos)
                     [0x5A; 0xA5] (from_array [0x5A; 0xA5]) = Some b /\
    b = true.
Proof.
  destruct (byte_spans_match_decides [0; 0x5A; 0xA5] [0x5A; 0xA5]
              (subspan (from_array [0; 0x5A; 0xA5]) 1 npos) (from_array [0x5A; 0xA5]))
    as (b & Hrun & Hb).
  - vm_compute. repeat split; discriminate.
  - vm_compute. repeat split; discriminate.
  - vm_compute. split; [discriminate|reflexivity].
  - exists b. split; [exact Hrun|]. apply Hb. reflexivity.
Defined.

End SpanComparison.

(** ** Core/Result.hpp *)

Section Results.

(** The two values of [data.BinaryResult] are the results that [Success()]
    and [Failure()] of the class make, with the answers of the class to
    [IsSuccess()] and [IsFailure()]. *)
Lemma of_BinaryResult_queries (b : BinaryResult) :
  IsSuccess b = result.IsSuccess result.kSucceeded (result.of_BinaryResult b) /\
  IsFailure b = result.IsFailure result.kFailed (result.of_BinaryResult b).
Proof. destruct b; split; reflexivity. Qed.

End Results.

(** ** Core/Data/_Detail/Tuple.hpp *)

Section TuplePurge.

(** X18. [purge_tuple_t<TupleT, ToPurgeT>] is well-formed exactly when every
    element type of [TupleT] other than [ToPurgeT] is default-constructible
    (the kept elements are value-initialised inside a [decltype]; the purged
    type itself need not be).  When it is, it removes every occurrence of
    [ToPurgeT] and nothing else: the result is the sequence of the element
    types that differ from [ToPurgeT], in their order and with their
    repetitions; it is the tuple itself when [ToPurgeT] does not occur, and
    purging the result again gives the result. *)
Theorem purge_tuple_removes_all (T : Type) (same : T -> T -> bool)
    (default_constructible : T -> bool) (TupleT : list T) (ToPurgeT : T) :
  (forall a b, same a b = true <-> a = b) ->
  let kept := filter (fun t => negb (same t ToPurgeT)) TupleT in
  let purge := tuple.purge_tuple same default_constructible in
  (forallb default_constructible kept = true -> purge TupleT ToPurgeT = Some kept) /\
  (forallb default_constructible kept = false -> purge TupleT ToPurgeT = None) /\
  (forall purged, purge TupleT ToPurgeT = Some purged ->
     ~ In ToPurgeT purged /\
     (forall t, In t purged <-> In t TupleT /\ t <> ToPurgeT) /\
     (~ In ToPurgeT TupleT -> purged = TupleT) /\
     purge purged ToPurgeT = Some purged /\
     (length purged <= length TupleT)%nat).
Proof.
  intros Hsame kept purge.
  set (keep := fun t => negb (same t ToPurgeT)).
  assert (Hrun : forall l,
    tuple.remove_type_from_tuple_recursive same default_constructible l ToPurgeT
    = if forallb default_constructible (filter keep l) then Some (filter keep l) else None).
  { induction l as [|a l IH]; cbn [tuple.remove_type_from_tuple_recursive filter];
      [reflexivity|].
    change (keep a) with (negb (same a ToPurgeT)).
    destruct (same a ToPurgeT); cbn [negb]; [exact IH|].
    rewrite IH. cbn [forallb].
    destruct (forallb default_constructible (filter keep l)) eqn:Hrest; cbn [obind app].
    - rewrite Hrest. destruct (default_constructible a); reflexivity.
    - rewrite andb_false_r. reflexivity. }
  assert (Hin : forall l t, In t (filter keep l) <-> In t l /\ t <> ToPurgeT).
  { intros l t. rewrite filter_In. unfold keep.
    split; intros [H1 H2]; split; try exact H1.
    - intros ->. rewrite (proj2 (Hsame ToPurgeT ToPurgeT) eq_refl) in H2. discriminate.
    - destruct (same t ToPurgeT) eqn:E; [|reflexivity].
      apply Hsame in E. contradiction. }
  assert (Hidem : forall l, filter keep (filter keep l) = filter keep l).
  { induction l as [|a l IH]; cbn [filter]; [reflexivity|].
    destruct (keep a) eqn:E; cbn [filter]; [|exact IH].
    rewrite E. f_equal. exact IH. }
  unfold purge, tuple.purge_tuple. fold keep in kept. fold kept.
  split; [|split].
  - intros Hdc. rewrite Hrun. fold kept. rewrite Hdc. reflexivity.
  - intros Hdc. rewrite Hrun. fold kept. rewrite Hdc. reflexivity.
  - intros purged Hp. rewrite Hrun in Hp. fold kept in Hp.
    destruct (forallb default_constructible kept) eqn:Hdc; [|discriminate].
    injection Hp as <-.
    split; [|split; [|split; [|split]]].
    + intros H. apply Hin in H. destruct H as [_ H]. apply H. reflexivity.
    + apply Hin.
    + intros Hnot. unfold kept. clear Hdc kept.
      induction TupleT as [|a l IH]; cbn [filter]; [reflexivity|].
      change (keep a) with (negb (same a ToPurgeT)).
      destruct (same a ToPurgeT) eqn:E; cbn [negb].
      * apply Hsame in E. subst a. exfalso. apply Hnot. left. reflexivity.
      * f_equal. apply IH. intros H. apply Hnot. right. exact H.
    + rewrite Hrun. unfold kept. rewrite Hidem. fold kept. rewrite Hdc. reflexivity.
    + apply filter_length_le.
Qed.

(** Field lists with a type told by a number: [n >= 0] for [BitField<n>], which
    is default-constructible, and [- n] for [ConstBitField<n>], which is not.
    Purging the reserved [ConstBitField<8>] from a list of bit fields gives
    the bit fields; purging [BitField<4>] from a list that keeps a
    [ConstBitField<8>] does not compile. *)
Lemma purge_tuple_removes_all_witness :
  tuple.purge_tuple Z.eqb (Z.leb 0) [4; -8; 4; 16; -8] (-8) = Some [4; 4; 16] /\
  tuple.purge_tuple Z.eqb (Z.leb 0) [4; -8; 16] 4 = None.
Proof.
  split.
  - apply (proj1 (purge_tuple_removes_all Z Z.eqb (Z.leb 0) [4; -8; 4; 16; -8] (-8)
                    Z.eqb_eq)).
    reflexivity.
  - apply (proj1 (proj2 (purge_tuple_removes_all Z Z.eqb (Z.leb 0) [4; -8; 16] 4
                    Z.eqb_eq))).
    reflexivity.
Defined.

End TuplePurge.

(** ** Core/Data/Primitives.hpp *)

Section Primitives.

Ltac sizes :=
  change (footprint_size_bits 1) with 8; change (footprint_size_bits 2) with 16;
  change (footprint_size_bits 4) with 32; change (footprint_size_bits 8) with 64.

(** X19. [smallest_unsigned<N>] and [smallest_signed<N>], for the widths
    [N <= 64] their [static_assert] accepts, choose the same size, which is
    the least of 1, 2, 4 and 8 bytes that holds [N] bits; [N = 0] gets one
    byte.  This is the size of the storage of a [BitField<N>]. *)
Theorem smallest_unsigned_is_least (n : Z) :
  0 <= n <= 64 ->
  let s := smallest_unsigned n in
  In s [1; 2; 4; 8] /\ check_if_fits n s = true /\ n <= 8 * s /\
  (forall s', In s' [1; 2; 4; 8] -> n <= 8 * s' -> s <= s') /\
  smallest_signed n = s.
Proof.
  intros Hn s. unfold s, smallest_unsigned, smallest_signed, check_if_fits. sizes.
  assert (Hleast : forall v, In v [1; 2; 4; 8] ->
            (forall w, In w [1; 2; 4; 8] -> w < v -> 8 * w < n) ->
            forall s', In s' [1; 2; 4; 8] -> n <= 8 * s' -> v <= s').
  { intros v Hv Hbelow s' Hs' Hfit.
    destruct (Z_le_gt_dec v s') as [|Hgt]; [assumption|].
    specialize (Hbelow s' Hs' ltac:(lia)). lia. }
  destruct (Z.leb_spec n 8); [|destruct (Z.leb_spec n 16); [|destruct (Z.leb_spec n 32)]].
  - cbv iota. split; [cbn; tauto|]. split; [apply Z.leb_le; sizes; lia|]. split; [lia|].
    split; [|reflexivity]. apply Hleast; [cbn; tauto|].
    intros w [<-|[<-|[<-|[<-|[]]]]] Hw; lia.
  - cbv iota. split; [cbn; tauto|]. split; [apply Z.leb_le; sizes; lia|]. split; [lia|].
    split; [|reflexivity]. apply Hleast; [cbn; tauto|].
    intros w [<-|[<-|[<-|[<-|[]]]]] Hw; lia.
  - cbv iota. split; [cbn; tauto|]. split; [apply Z.leb_le; sizes; lia|]. split; [lia|].
    split; [|reflexivity]. apply Hleast; [cbn; tauto|].
    intros w [<-|[<-|[<-|[<-|[]]]]] Hw; lia.
  - cbv iota. split; [cbn; tauto|]. split; [apply Z.leb_le; sizes; lia|]. split; [lia|].
    split; [|reflexivity]. apply Hleast; [cbn; tauto|].
    intros w [<-|[<-|[<-|[<-|[]]]]] Hw; lia.
Qed.

Lemma smallest_unsigned_is_least_witness :
  smallest_unsigned 14 = 2 /\ smallest_unsigned 36 = 8 /\ smallest_unsigned 0 = 1.
Proof.
  destruct (smallest_unsigned_is_least 14 ltac:(lia)) as (_ & _ & Hfit & Hleast & _).
  split; [|split; reflexivity].
  cbv zeta in Hfit, Hleast.
  specialize (Hleast 2 ltac:(cbn; tauto) ltac:(lia)).
  destruct (smallest_unsigned_is_least 14 ltac:(lia)) as ([H|[H|[H|[H|[]]]]] & _);
    cbv zeta in H; lia.
Defined.

End Primitives.

(** ** Egress.hpp and Ingress.hpp : the adapters around the codec *)

Section Adapters.

Import ITree.ITree ITree.ITreeFacts ITree.Events.State ITree.Events.StateFacts.
Import session.

Context {St : Type}.

Lemma own_buffer_size t :
  schema_ok t ->
  footprint_size_bytes_of t = size_in_bytes t /\
  0 <= size_in_bits t <= 8 * size_in_bytes t /\
  8 * size_in_bytes t < size_t_modulus.
Proof.
  intros [Hwt Hlt]. pose proof (size_in_bits_nonneg t Hwt) as Hnn.
  pose proof (ceil8_bounds (size_in_bits t)) as Hb.
  pose proof size_t_modulus_eq as Hm.
  unfold footprint_size_bytes_of, size_in_bytes.
  rewrite kSizeBits_size_in_bits by assumption.
  rewrite bytes_to_contain_ceil by (unfold is_size_t; lia).
  split; [reflexivity|]. split; [lia|].
  destruct t as [sz|n|n|ts]; cbn [size_in_bits wf_type] in *.
  - rewrite ceil8_aligned. lia.
  - apply andb_true_iff in Hwt as [_ Hn]. apply Z.leb_le in Hn.
    assert (ceil8 n <= 8) by (unfold ceil8; Z.to_euclidean_division_equations; lia). lia.
  - apply andb_true_iff in Hwt as [_ Hn]. apply Z.leb_le in Hn.
    assert (ceil8 n <= 8) by (unfold ceil8; Z.to_euclidean_division_equations; lia). lia.
  - rewrite ceil8_aligned. lia.
Qed.

Lemma next_cursor_from_zero f : next_cursor 0 f = size_in_bits (type_of f).
Proof.
  unfold next_cursor. destruct (type_of f); cbn [end_of]; change (ceil8 0) with 0; lia.
Qed.


(** The value decoded from a buffer of its own size. *)
Lemma decode_from_own_buffer data rx :
  wf_field data = true -> schema_ok (type_of data) ->
  Z.of_nat (length rx) = footprint_size_bytes_of (type_of data) ->
  exists data',
    decode rx 0 data = Some (Success, rx, size_in_bits (type_of data), data') /\
    type_of data' = type_of data /\ const_values data' = const_values data /\
    fetched rx 0 data data'.
Proof.
  intros Hwf Hsok Hlen.
  destruct (own_buffer_size _ Hsok) as (Hsize & Hbits & Hlt).
  destruct (decode_field_ok data Hwf rx 0) as (data' & Hd & Hty & Hcv & Hf).
  - unfold span_ok. lia.
  - lia.
  - rewrite next_cursor_from_zero. lia.
  - rewrite next_cursor_from_zero in Hd. exists data'. auto.
Qed.

(** X20. [Egress<T>::Put] with less room in the session than
    [size_in_bytes(T)]: the call returns failure at once; the clock is not
    read, nothing is encoded and [Post] is not called. *)
Theorem put_without_room (O : Outbound St) (clock : nat -> Z) (data : field)
    (duration : Z) (s : St) (ticks : nat) (calls : list call) :
  outbound_available O s < footprint_size_bytes_of (type_of data) ->
  interp_state (run_outbound O clock) (Put data duration) (s, ticks, calls)
  ≈ Ret ((s, ticks, calls), Some Failure).
Proof.
  intros Hshort. rewrite Put_run. cbv zeta.
  destruct (Z.ltb_spec (outbound_available O s) (footprint_size_bytes_of (type_of data)));
    [reflexivity|lia].
Qed.


(** X22. For every well-formed value the decoding step of [Get] cannot
    fail: when enough bytes are available and the one [Request] succeeds,
    leaving [rx] in the buffer, [Get] returns success and the value it
    yields is what the decoder fetches from [rx] at bit 0, its
    [ConstBitField] values being those of the object passed in. *)
Theorem get_decodes_what_arrives (I : Inbound St) (data : field) (timeout : Z)
    (s s' : St) (calls : list call) (rx : list Z) :
  wf_field data = true -> schema_ok (type_of data) ->
  let size := footprint_size_bytes_of (type_of data) in
  size <= inbound_available I s ->
  inbound_request I (mem.zeroed size) timeout s = (s', (Success, rx)) ->
  length rx = length (mem.zeroed size) ->
  exists data',
    interp_state (run_inbound I) (Get data timeout) (s, calls)
    ≈ Ret ((s', calls ++ [(mem.zeroed size, timeout)]), Some (Success, data')) /\
    type_of data' = type_of data /\ const_values data' = const_values data /\
    fetched rx 0 data data'.
Proof.
  intros Hwf Hsok size Hroom Hreq Hlen.
  destruct (own_buffer_size _ Hsok) as (Hsize & Hbits & _). fold size in Hsize.
  assert (Hlen' : Z.of_nat (length rx) = size).
  { rewrite Hlen. apply zeroed_length. lia. }
  destruct (decode_from_own_buffer data rx Hwf Hsok Hlen') as (data' & Hd & Hty & Hcv & Hf).
  exists data'. split; [|auto].
  rewrite Get_run. cbv zeta. fold size.
  destruct (Z.ltb_spec (inbound_available I s) size); [lia|].
  rewrite Hreq. cbn [IsFailure Success]. rewrite Hd. reflexivity.
Qed.


End Adapters.

Section AdapterExamples.

Import ITree.ITree ITree.ITreeFacts ITree.Events.State ITree.Events.StateFacts.
Import session.

(** A session with three bytes of room against [Egress<int>::Put]. *)
Lemma put_without_room_witness :
  let full := {| outbound_available := fun _ : unit => 3;
                 outbound_post := fun _ _ s => (s, Success) |} in
  interp_state (run_outbound full (fun k => Z.of_nat k)) (Put (Field [42; 0; 0; 0]) 500)
               (tt, 0%nat, [])
  ≈ Ret ((tt, 0%nat, []), Some Failure).
Proof.
  intros full.
  apply (put_without_room full (fun k => Z.of_nat k) (Field [42; 0; 0; 0]) 500 tt 0%nat []).
  reflexivity.
Defined.


(** A session that delivers the bytes of 42 to [Ingress<int>::Get]. *)
Lemma get_decodes_what_arrives_witness :
  let serve := {| inbound_available := fun _ : unit => 4;
                  inbound_request := fun _ _ s => (s, (Success, [42; 0; 0; 0])) |} in
  exists data',
    interp_state (run_inbound serve) (Get (Field [0; 0; 0; 0]) 500) (tt, [])
    ≈ Ret ((tt, [([0; 0; 0; 0], 500)]), Some (Success, data')) /\
    type_of data' = TField 4.
Proof.
  intros serve.
  destruct (get_decodes_what_arrives serve (Field [0; 0; 0; 0]) 500 tt tt [] [42; 0; 0; 0])
    as (data' & Hrun & Hty & _).
  - reflexivity.
  - split; [reflexivity|vm_compute; reflexivity].
  - vm_compute. discriminate.
  - reflexivity.
  - reflexivity.
  - exists data'. split; [exact Hrun|exact Hty].
Defined.


End AdapterExamples.

(** ** shmit::math::gcd *)

Section Numeric.

Import numeric.

Lemma in_range_bounds T v :
  in_range T v = true -> min_of T <= v <= max_of T.
Proof.
  unfold in_range. intros H. apply andb_true_iff in H as [H1 H2].
  apply Z.leb_le in H1. apply Z.leb_le in H2. lia.
Qed.

Lemma type_bounds T :
  0 < bits T ->
  min_of T <= 0 /\ 0 < max_of T + 1 /\
  (is_signed T = true -> min_of T = - max_of T - 1) /\
  (is_signed T = false -> min_of T = 0).
Proof.
  intros Hb. unfold min_of, max_of.
  assert (0 < 2 ^ (bits T - 1)) by (apply Z.pow_pos_nonneg; lia).
  assert (0 < 2 ^ bits T) by (apply Z.pow_pos_nonneg; lia).
  destruct (is_signed T); repeat split; try lia; discriminate.
Qed.

Lemma abs_value T v :
  0 < bits T -> min_of T <= v -> Z.abs v <= max_of T ->
  abs T v = Some (Z.abs v).
Proof.
  intros Hb Hmin Hmax. destruct (type_bounds T Hb) as (H0 & H1 & H2 & Hu).
  unfold abs. destruct (is_signed T) eqn:Hs.
  - destruct (Z.ltb_spec v 0); cbn [obind].
    + unfold arith. rewrite Hs. unfold in_range.
      replace ((min_of T <=? v * -1) && (v * -1 <=? max_of T)) with true.
      * cbn [obind]. f_equal. lia.
      * symmetry. apply andb_true_iff. split; apply Z.leb_le; lia.
    + f_equal. lia.
  - specialize (Hu eq_refl). f_equal. lia.
Qed.

Lemma rem_value T a b :
  b <> 0 -> ~ (is_signed T = true /\ a = min_of T /\ b = -1) ->
  rem T a b = Some (Z.rem a b).
Proof.
  intros Hb Hov. unfold rem.
  destruct (Z.eqb_spec b 0); [contradiction|].
  destruct (is_signed T); cbn [andb]; [|reflexivity].
  destruct (Z.eqb_spec a (min_of T)); cbn [andb]; [|reflexivity].
  destruct (Z.eqb_spec b (-1)); [|reflexivity].
  exfalso. apply Hov. auto.
Qed.

Lemma gcd_rem_step a b : b <> 0 -> Z.gcd b (Z.abs (Z.rem a b)) = Z.gcd a b.
Proof.
  intros Hb. rewrite Z.gcd_abs_r.
  pose proof (Z.quot_rem' a b) as Hq.
  rewrite (Z.gcd_comm a b). rewrite Hq at 2.
  rewrite Z.add_comm, (Z.mul_comm b). symmetry. apply Z.gcd_add_mult_diag_r.
Qed.

Lemma gcd_of_divisor a b : Z.rem a b = 0 -> Z.gcd a b = Z.abs b.
Proof.
  intros Hr. pose proof (Z.quot_rem' a b) as Hq. rewrite Hr, Z.add_0_r in Hq.
  rewrite Hq, Z.gcd_comm, <- Z.gcd_abs_l, <- (Z.gcd_abs_r _ (b * _)), Z.abs_mul.
  apply Z.gcd_mul_diag_l. apply Z.abs_nonneg.
Qed.

Lemma gcd_loop_spec T :
  0 < bits T ->
  forall fuel a b r,
  b <> 0 -> min_of T <= b -> Z.abs b <= max_of T + 1 ->
  r = Z.abs (Z.rem a b) -> (Z.to_nat r < fuel)%nat ->
  gcd_loop T fuel a b r = Some (if r =? 0 then b else Z.gcd a b).
Proof.
  intros Hbits. destruct (type_bounds T Hbits) as (H0 & H1 & H2 & Hu).
  induction fuel as [|fuel IH]; intros a b r Hb Hmin Hmax Hr Hfuel; [lia|].
  cbn [gcd_loop].
  pose proof (Z.abs_nonneg (Z.rem a b)) as Hnn.
  destruct (Z.gtb_spec r 0) as [Hpos|Hz].
  - destruct (Z.eqb_spec r 0); [lia|]. cbv zeta.
    assert (Hlt : r < Z.abs b) by (rewrite Hr; apply Z.rem_bound_abs; exact Hb).
    rewrite rem_value by (try lia; intros (_ & _ & ?); lia).
    cbn [obind].
    assert (Hlt' : Z.abs (Z.rem b r) < Z.abs r) by (apply Z.rem_bound_abs; lia).
    rewrite abs_value; try assumption; try lia.
    + cbn [obind]. rewrite (IH b r (Z.abs (Z.rem b r))); try lia.
      rewrite <- (gcd_rem_step a b Hb), <- Hr.
      destruct (Z.eqb_spec (Z.abs (Z.rem b r)) 0) as [Hd|Hd].
      * rewrite gcd_of_divisor by lia. f_equal. lia.
      * reflexivity.
    + destruct (is_signed T) eqn:Hs.
      * specialize (H2 eq_refl). lia.
      * specialize (Hu eq_refl).
        pose proof (Z.rem_nonneg b r ltac:(lia) ltac:(lia)). lia.
  - destruct (Z.eqb_spec r 0); [reflexivity|lia].
Qed.

(** X24. [math::gcd<T>(a, b)] for an integral [T] of 32 to 64 bits and a
    non-zero [b]: the loop ends and the result is the greatest common divisor
    of [a] and [b], except that a negative [b] which divides [a] is returned
    as it is and reaches the caller converted to [size_t], that is as
    [2^64 + b].  With [b = 0] the first [a % b] is undefined, and so is
    [INT_MIN % -1]. *)
Theorem gcd_computes (T : int_type) (a b : Z) :
  32 <= bits T <= 64 -> in_range T a = true -> in_range T b = true ->
  (b <> 0 -> ~ (is_signed T = true /\ a = min_of T /\ b = -1) ->
   gcd T a b = Some (if (b <? 0) && (Z.rem a b =? 0)
                     then size_t_modulus + b else Z.gcd a b)) /\
  gcd T a 0 = None /\
  (is_signed T = true -> gcd T (min_of T) (-1) = None).
Proof.
  intros Hbits Ha Hb. destruct (type_bounds T ltac:(lia)) as (H0 & H1 & H2 & Hu).
  apply in_range_bounds in Ha. apply in_range_bounds in Hb.
  pose proof size_t_modulus_eq as Hm.
  assert (Hmax : max_of T + 1 <= 2 ^ 64).
  { unfold max_of. destruct (is_signed T).
    - assert (2 ^ (bits T - 1) <= 2 ^ 64) by (apply Z.pow_le_mono_r; lia). lia.
    - assert (2 ^ bits T <= 2 ^ 64) by (apply Z.pow_le_mono_r; lia). lia. }
  change (2 ^ 64) with size_t_modulus in Hmax.
  assert (Hminb : - size_t_modulus < min_of T /\ - max_of T - 1 <= min_of T).
  { unfold min_of, max_of in *. destruct (is_signed T); [|lia].
    assert (2 ^ (bits T - 1) <= 2 ^ 63) by (apply Z.pow_le_mono_r; lia). lia. }
  split; [|split].
  - intros Hb0 Hov. unfold gcd.
    rewrite rem_value by assumption. cbn [obind].
    assert (Hlt : Z.abs (Z.rem a b) < Z.abs b) by (apply Z.rem_bound_abs; exact Hb0).
    assert (Hsign : is_signed T = false -> 0 <= Z.rem a b).
    { intros Hs. specialize (Hu Hs). apply Z.rem_nonneg; lia. }
    rewrite abs_value; try lia.
    + cbn [obind].
      rewrite (gcd_loop_spec T ltac:(lia) _ a b (Z.abs (Z.rem a b))); try lia.
      cbn [obind]. f_equal.
      destruct (Z.eqb_spec (Z.abs (Z.rem a b)) 0) as [Hd|Hd].
      * destruct (Z.eqb_spec (Z.rem a b) 0); [|lia].
        destruct (Z.ltb_spec b 0); cbn [andb].
        -- unfold wrap. symmetry. apply (Z.mod_unique _ _ (-1)); lia.
        -- rewrite wrap_small by (unfold is_size_t; lia).
           rewrite gcd_of_divisor by assumption. lia.
      * destruct (Z.eqb_spec (Z.rem a b) 0); [lia|].
        rewrite andb_false_r. apply wrap_small.
        pose proof (Z.gcd_nonneg a b).
        assert (Z.gcd a b <= Z.abs b).
        { apply Z.divide_pos_le; [lia|].
          apply Z.divide_abs_r. apply Z.gcd_divide_r. }
        unfold is_size_t. lia.
    + destruct (is_signed T) eqn:Hs; [lia|]. specialize (Hsign eq_refl).
      specialize (Hu eq_refl). lia.
  - reflexivity.
  - intros Hs. unfold gcd, rem. rewrite Hs, Z.eqb_refl. reflexivity.
Qed.

(** [int] arguments: [gcd(12, 18)], and [gcd(4, -2)]. *)
Lemma gcd_computes_witness :
  let int := {| is_signed := true; bits := 32 |} in
  gcd int 12 18 = Some 6 /\ gcd int 4 (-2) = Some (size_t_modulus - 2).
Proof.
  intros int. split.
  - pose proof (proj1 (gcd_computes int 12 18 ltac:(cbn; lia) eq_refl eq_refl)) as H.
    rewrite H; [reflexivity|discriminate|intros (_ & ? & _); discriminate].
  - pose proof (proj1 (gcd_computes int 4 (-2) ltac:(cbn; lia) eq_refl eq_refl)) as H.
    rewrite H; [reflexivity|discriminate|intros (_ & ? & _); discriminate].
Defined.

End Numeric.

(** ** Core/Help/RoutineLogic.cpp *)

Section Waiting.

Import ITree.ITree ITree.ITreeFacts ITree.Events.State ITree.Events.StateFacts.
Import help.

(** X25. [WaitForPassCondition] calls the condition until it passes and
    then returns: when the condition fails [n] times and passes at the next
    call, the condition has been called exactly [n + 1] times on return;
    [BlockOnPassCondition] does the same. *)
Theorem wait_returns_at_first_pass (answer : nat -> bool) (n : nat) :
  forall asked : nat,
  (forall k, (k < n)%nat -> answer (asked + k)%nat = false) ->
  answer (asked + n)%nat = true ->
  interp_state (run_check answer) WaitForPassCondition asked
  ≈ Ret ((asked + n + 1)%nat, tt) /\
  interp_state (run_check answer) BlockOnPassCondition asked
  ≈ Ret ((asked + n + 1)%nat, tt).
Proof.
  assert (Hwait : forall n asked,
    (forall k, (k < n)%nat -> answer (asked + k)%nat = false) ->
    answer (asked + n)%nat = true ->
    interp_state (run_check answer) WaitForPassCondition asked
    ≈ Ret ((asked + n + 1)%nat, tt)).
  { clear n. induction n as [|n IH]; intros asked Hfail Hpass.
    - unfold WaitForPassCondition. rewrite unfold_iter.
      rewrite interp_state_bind, interp_state_bind, interp_state_trigger.
      cbn [run_check]. rewrite !bind_ret_l. cbn [fst snd].
      rewrite Nat.add_0_r in Hpass. rewrite Hpass. cbn [negb].
      rewrite interp_state_ret, bind_ret_l. cbn [fst snd].
      rewrite interp_state_ret.
      replace (asked + 0 + 1)%nat with (S asked) by lia. reflexivity.
    - unfold WaitForPassCondition. rewrite unfold_iter.
      rewrite interp_state_bind, interp_state_bind, interp_state_trigger.
      cbn [run_check]. rewrite !bind_ret_l. cbn [fst snd].
      rewrite <- (Nat.add_0_r asked) at 1.
      rewrite (Hfail 0%nat) by lia. cbn [negb].
      rewrite interp_state_ret, bind_ret_l. cbn [fst snd].
      rewrite interp_state_tau, tau_eutt.
      fold WaitForPassCondition.
      rewrite (IH (S asked)).
      + replace (S asked + n + 1)%nat with (asked + S n + 1)%nat by lia. reflexivity.
      + intros k Hk. replace (S asked + k)%nat with (asked + S k)%nat by lia.
        apply Hfail. lia.
      + replace (S asked + n)%nat with (asked + S n)%nat by lia. exact Hpass. }
  intros asked Hfail Hpass. split; [|unfold BlockOnPassCondition]; apply Hwait; assumption.
Qed.

End Waiting.

Section WaitingExamples.

Import ITree.ITree ITree.ITreeFacts ITree.Events.State ITree.Events.StateFacts.
Import help.

(** A condition that passes at its fourth call. *)
Lemma wait_returns_at_first_pass_witness :
  interp_state (run_check (fun k => Nat.leb 3 k)) WaitForPassCondition 0%nat
  ≈ Ret (4%nat, tt).
Proof.
  apply (wait_returns_at_first_pass (fun k => Nat.leb 3 k) 3 0).
  - intros k Hk. apply Nat.leb_gt. lia.
  - reflexivity.
Defined.

End WaitingExamples.

(** ** Core/Data/_Detail/Field.hpp : a destination that is not clear *)

Section DirtyDestination.

Lemma encode_bits_loop_first fuel buffer dest value src o size b' :
  0 <= o < 8 -> 0 <= dest -> 0 < size -> 0 <= src ->
  detail.encode_bits_loop (S fuel) buffer dest value src o (8 - o) size = Some b' ->
  nth (Z.to_nat dest) b' 0
  = to_uint8 (Z.lor (nth (Z.to_nat dest) buffer 0)
                    (Z.shiftl (Z.land (nth (Z.to_nat src) value 0)
                                      (Z.ones (Z.min (8 - o) size))) o)).
Proof.
  intros Ho Hd Hs Hsrc Hrun. cbn [detail.encode_bits_loop] in Hrun.
  destruct (Z.gtb_spec size 0) as [_|]; [|lia]. cbv zeta in Hrun.
  destruct (mem.load value src) as [s|] eqn:Hs1; cbn [obind] in Hrun; [|discriminate].
  rewrite load_mask in Hrun by lia. cbn [obind] in Hrun.
  destruct (mem.load buffer dest) as [d|] eqn:Hd1; cbn [obind] in Hrun; [|discriminate].
  destruct (mem.store buffer dest _) as [buffer1|] eqn:Hst1;
    cbn [obind] in Hrun; [|discriminate].
  apply store_inv in Hst1 as [Hr1 Hb1]. apply load_inv in Hd1 as [_ Hdv].
  apply load_inv in Hs1 as [_ Hsv].
  assert (Hcell : nth (Z.to_nat dest) buffer1 0
                  = to_uint8 (Z.lor d (Z.shiftl (Z.land s (Z.ones (Z.min (8 - o) size))) o)))
    by (rewrite Hb1; apply nth_update_same; lia).
  rewrite <- Hdv, <- Hsv, <- Hcell.
  destruct ((o >? 0) && (size - Z.min (8 - o) size >? 0)).
  - destruct (mem.load detail.kBitMasks _) as [lm|]; cbn [obind] in Hrun; [|discriminate].
    destruct (mem.store buffer1 (dest + 1) _) as [buffer2|] eqn:Hst2;
      cbn [obind] in Hrun; [|discriminate].
    apply store_inv in Hst2 as [Hr2 Hb2].
    destruct (Z_le_gt_dec (size - Z.min (8 - o) size - Z.min o (size - Z.min (8 - o) size)) 0).
    + rewrite encode_bits_loop_done in Hrun by lia. injection Hrun as <-.
      rewrite Hb2. apply nth_update_other; lia.
    + apply encode_bits_loop_frame in Hrun as (_ & Hframe & _); try lia.
      rewrite Hframe by lia. rewrite Hb2. apply nth_update_other; lia.
  - destruct (Z_le_gt_dec (size - Z.min (8 - o) size) 0).
    + rewrite encode_bits_loop_done in Hrun by lia. injection Hrun as <-. reflexivity.
    + apply encode_bits_loop_frame in Hrun as (_ & Hframe & _); try lia.
      apply Hframe; lia.
Qed.

(** X26. [encode_bits] does not clear what it writes over: in the first
    cell it touches, every bit of the field is the bit of the value OR-ed
    with the bit the destination held, so a bit that was set stays set
    whatever the value.  The destination has to be cleared beforehand, as
    [Egress::Put] and the tests do. *)
Theorem encode_bits_ors_into_first_cell (buffer value : list Z) (off n : Z) :
  is_size_t off -> 0 <= n ->
  off + n <= 8 * Z.of_nat (length buffer) ->
  n <= 8 * Z.of_nat (length value) ->
  bytes_ok buffer ->
  exists b',
    detail.encode_bits buffer value off n = Some b' /\
    forall j, off <= j < off + n -> j / 8 = off / 8 ->
      bit b' j = bit buffer j || bit value (j - off).
Proof.
  intros Hoff Hn Hbuf Hval Hok.
  destruct (encode_bits_spec buffer value off n) as (b' & Hrun & _); try assumption.
  exists b'. split; [exact Hrun|].
  intros j Hj Hcell.
  rewrite encode_bits_unfold in Hrun by exact Hoff.
  assert (Hr : 0 <= off mod 8 < 8) by (apply Z.mod_pos_bound; lia).
  assert (Hq : 0 <= off / 8) by (unfold is_size_t in Hoff; apply Z.div_pos; lia).
  destruct (Z.to_nat n) as [|fuel] eqn:Hfuel; [lia|].
  apply encode_bits_loop_first in Hrun; try lia.
  unfold bit at 1. rewrite Hcell, Hrun.
  assert (Hk : off mod 8 <= j mod 8 < 8 /\ j mod 8 - off mod 8 = j - off)
    by (Z.to_euclidean_division_equations; lia).
  rewrite testbit_to_uint8 by lia.
  rewrite front_cell_bits by lia.
  destruct (Z.leb_spec (off mod 8) (j mod 8)); [|lia].
  destruct (Z.ltb_spec (j mod 8) (off mod 8 + Z.min (8 - off mod 8) n)); [|lia].
  cbn [andb]. unfold bit. rewrite <- Hcell. f_equal.
  replace ((j - off) / 8) with 0 by (Z.to_euclidean_division_equations; lia).
  replace ((j - off) mod 8) with (j mod 8 - off mod 8)
    by (Z.to_euclidean_division_equations; lia).
  reflexivity.
Qed.

(** A clear [BitField<3>] written at bit 2 of a set cell leaves the cell
    set. *)
Lemma encode_bits_ors_into_first_cell_witness :
  exists b',
    detail.encode_bits [0xFF] [0] 2 3 = Some b' /\ bit b' 3 = true.
Proof.
  destruct (encode_bits_ors_into_first_cell [0xFF] [0] 2 3) as (b' & Hrun & Hor).
  - vm_compute. split; [discriminate|reflexivity].
  - lia.
  - vm_compute. discriminate.
  - vm_compute. discriminate.
  - apply forallb_bytes_ok. reflexivity.
  - exists b'. split; [exact Hrun|]. rewrite (Hor 3) by (try lia; reflexivity).
    reflexivity.
Defined.

End DirtyDestination.

(** ** Packet.hpp : from the buffer to the packet and back *)

Section Reencoding.

Lemma bytes_ok_forallb value : bytes_ok value -> forallb is_uint8b value = true.
Proof.
  intros H. apply forallb_forall. intros x Hx.
  unfold bytes_ok in H. rewrite Forall_forall in H. specialize (H x Hx).
  unfold is_uint8 in H. unfold is_uint8b.
  apply andb_true_iff. split; [apply Z.leb_le|apply Z.ltb_lt]; lia.
Qed.

(** A packet encoded from cursor 0 into a clear buffer, with what the
    recursion over its fields leaves behind. *)
Lemma encode_packet_from_zero p buffer :
  forallb wf_field p = true -> schema_ok (TPacket (map type_of p)) ->
  span_ok buffer -> bytes_ok buffer -> zero_from buffer 0 ->
  size_in_bytes (TPacket (map type_of p)) <= Z.of_nat (length buffer) ->
  exists b',
    encode_packet p buffer 0 = Some (Success, b', next_cursor 0 (PacketField p)) /\
    length b' = length buffer /\ bytes_ok b' /\
    holds_fields holds b' 0 p /\
    zero_from b' (layout size_in_bits (map type_of p) 0).
Proof.
  intros Hwf Hsok Hs Hok Hz Hle.
  assert (Hc : is_size_t 0) by (vm_compute; split; [discriminate|reflexivity]).
  pose proof (ceil8_bounds (layout size_in_bits (map type_of p) 0)) as Hcb.
  assert (Hlay : layout size_in_bits (map type_of p) 0 <= 8 * Z.of_nat (length buffer)).
  { unfold size_in_bytes in Hle. cbn [size_in_bits] in Hle.
    rewrite ceil8_aligned in Hle. lia. }
  destruct (encode_fields_ok p) with (buffer := buffer) (c := 0)
    as (b' & Hrec & Hlen & Hok' & Hpost); auto; try lia.
  { apply Forall_forall. intros g _. apply encode_field_ok. }
  destruct (Hpost Hz) as (_ & Hz' & Hh).
  exists b'. split; [|auto].
  pose proof (layout_fields_ge p 0 Hwf ltac:(lia)) as Hge.
  unfold encode_packet. cbn [encode]. unfold encode_Packet. cbv zeta.
  rewrite packet_guard by assumption. change (ceil8 0) with 0.
  destruct (Z.gtb_spec (0 + size_in_bytes (TPacket (map type_of p)))
                       (Z.of_nat (length buffer))); [lia|].
  change (math.bits_to_contain (math.bytes_to_contain 0)) with 0.
  rewrite Hrec. cbn [obind IsSuccess Success].
  unfold span_ok in Hs. rewrite next_boundary_ceil by lia.
  rewrite next_cursor_from_zero. reflexivity.
Qed.

Lemma refetched_bits buffer b2 : forall p p' c,
  forallb is_BitField p = true -> forallb wf_field p = true -> 0 <= c ->
  fetched_fields fetched buffer c p p' ->
  forallb wf_field p' = true /\
  (holds_fields holds b2 c p' ->
   forall j, c <= j < c + total_width p -> bit b2 j = bit buffer j).
Proof.
  induction p as [|f p IH]; intros [|f' p'] c Hbf Hwf Hc Hft;
    cbn [fetched_fields] in Hft; try contradiction.
  - split; [reflexivity|]. intros _ j Hj. cbn [total_width fold_right] in Hj. lia.
  - cbn [forallb] in Hbf, Hwf.
    apply andb_true_iff in Hbf as [Hbf1 Hbf]. apply andb_true_iff in Hwf as [Hwf1 Hwf].
    destruct Hft as [Hf Hrest].
    destruct f as [v|n v|n v|fs]; cbn [is_BitField] in Hbf1; try discriminate.
    destruct f' as [v'|n' v'|n' v'|fs']; cbn [fetched] in Hf; try contradiction.
    destruct Hf as (-> & Hlen & Hokv & Hbits).
    pose proof Hwf1 as Hwf1'. cbn [wf_field] in Hwf1'.
    apply wf_BitField_inv in Hwf1' as (Hn & Hnv & _).
    assert (Hnext : next_cursor c (BitField n v) = c + n) by reflexivity.
    rewrite Hnext in Hrest.
    destruct (IH p' (c + n) Hbf Hwf ltac:(lia) Hrest) as [Hwf' Hcover].
    split.
    + cbn [forallb wf_field]. rewrite Hwf', andb_true_r.
      cbn [wf_field] in Hwf1. rewrite !andb_true_iff in Hwf1.
      destruct Hwf1 as [[[H1 H2] H3] _].
      rewrite Hlen, H1, H2, H3. cbn [andb]. apply bytes_ok_forallb. exact Hokv.
    + cbn [holds_fields]. intros [Hh Hhs] j Hj.
      cbn [total_width fold_right width] in Hj. fold (total_width p) in Hj.
      change (next_cursor c (BitField n v')) with (c + n) in Hhs.
      destruct (Z_lt_ge_dec j (c + n)) as [Hin|Hout].
      * cbn [holds] in Hh. replace j with (c + (j - c)) by lia.
        rewrite Hh by lia.
        pose proof (ceil8_bounds n) as Hcb.
        rewrite (Hbits (j - c)) by lia.
        destruct (Z.leb_spec (8 * 0) (j - c)); [|lia].
        destruct (Z.ltb_spec (j - c) (8 * (0 + ceil8 n))); [|lia].
        cbn [andb]. destruct (Z.ltb_spec (j - c) (8 * 0 + n)); [|lia].
        f_equal. lia.
      * apply Hcover; [exact Hhs|lia].
Qed.

(** X27. Decoding is inverted by encoding: a buffer of [size_in_bytes] bytes
    whose padding bits (those after the last field) are clear, decoded from
    cursor 0 into a packet of [BitField]s and encoded again into a zeroed
    buffer, comes back byte for byte, with the same cursor. *)
Theorem reencoding_reproduces_the_buffer (p : list field) (buffer : list Z) :
  forallb is_BitField p = true -> forallb wf_field p = true ->
  schema_ok (TPacket (map type_of p)) ->
  Z.of_nat (length buffer) = kSizeBytes (map type_of p) -> bytes_ok buffer ->
  zero_from buffer (total_width p) ->
  exists p' c',
    decode_packet buffer 0 p = Some (Success, buffer, c', p') /\
    encode_packet p' (mem.zeroed (kSizeBytes (map type_of p))) 0
    = Some (Success, buffer, c').
Proof.
  intros Hbf Hwf Hsok Hlen Hok Hzb.
  assert (Hbl : forallb bit_level p = true).
  { apply forallb_forall. intros f Hf.
    rewrite forallb_forall in Hbf. specialize (Hbf f Hf).
    destruct f; cbn in *; congruence. }
  assert (Hc : is_size_t 0) by (vm_compute; split; [discriminate|reflexivity]).
  pose proof Hsok as [Hwt Hlt].
  rewrite kSizeBytes_size_in_bytes in * by assumption.
  pose proof (size_in_bits_nonneg _ Hwt) as Hnn.
  pose proof (size_in_bits_packet_aligned (map type_of p)) as Hal.
  set (n := size_in_bytes (TPacket (map type_of p))) in *.
  assert (Hs : span_ok buffer) by (unfold span_ok; lia).
  pose proof (decode_packet_cases p buffer 0 Hwf Hsok Hs Hc) as Hd.
  change (ceil8 0) with 0 in Hd. fold n in Hd.
  destruct (Z.gtb_spec (0 + n) (Z.of_nat (length buffer))); [lia|].
  destruct Hd as (p' & Hrun & Hty & Hft).
  cbn [fetched] in Hft. change (8 * ceil8 0) with 0 in Hft.
  assert (Hn0 : 0 <= n) by lia.
  assert (Hzl : Z.of_nat (length (mem.zeroed n)) = n) by (apply zeroed_length; exact Hn0).
  assert (Hsok' : schema_ok (TPacket (map type_of p'))) by (rewrite Hty; exact Hsok).
  exists p', (next_cursor 0 (PacketField p)). split; [exact Hrun|].
  assert (Hnc : next_cursor 0 (PacketField p') = next_cursor 0 (PacketField p)).
  { apply same_type_cursor. cbn [type_of]. rewrite Hty. reflexivity. }
  assert (Hcov : forall b2, forallb wf_field p' = true /\
            (holds_fields holds b2 0 p' ->
             forall j, 0 <= j < 0 + total_width p -> bit b2 j = bit buffer j))
    by (intros b2; apply refetched_bits; auto; lia).
  destruct (Hcov []) as [Hwf' _].
  destruct (encode_packet_from_zero p' (mem.zeroed n)) as (b2 & He & Hlen2 & Hok2 & Hh & Hz2);
    try assumption.
  - unfold span_ok. lia.
  - apply zeroed_bytes_ok.
  - apply zeroed_zero_from.
  - rewrite Hty. fold n. lia.
  - rewrite Hnc in He. rewrite He. f_equal. f_equal. f_equal.
    rewrite Hty, bit_level_layout, Z.add_0_l in Hz2 by assumption.
    destruct (Hcov b2) as [_ Hsame]. specialize (Hsame Hh).
    apply bit_ext; try assumption.
    + apply Nat2Z.inj. rewrite Hlen2, Hzl. lia.
    + intros j Hj.
      destruct (Z_lt_ge_dec j (total_width p)) as [Hin|Hout].
      * apply Hsame. lia.
      * rewrite Hz2 by lia. symmetry. apply Hzb. lia.
Qed.

(** The five-bit packet of the test suite back from its encoding [0x15]. *)
Lemma reencoding_reproduces_the_buffer_witness :
  let p := [BitField 1 [0]; BitField 1 [0]; BitField 1 [0]; BitField 1 [0];
            BitField 1 [0]] in
  exists p' c',
    decode_packet [0x15] 0 p = Some (Success, [0x15], c', p') /\
    encode_packet p' (mem.zeroed (kSizeBytes (map type_of p))) 0 = Some (Success, [0x15], c').
Proof.
  intros p. apply (reencoding_reproduces_the_buffer p [0x15]).
  - reflexivity.
  - reflexivity.
  - split; [reflexivity|vm_compute; reflexivity].
  - reflexivity.
  - apply forallb_bytes_ok. reflexivity.
  - intros j Hj. change (total_width p) with 5 in Hj.
    destruct (Z_lt_ge_dec j 8) as [Hlt|Hge].
    + assert (Hcases : j = 5 \/ j = 6 \/ j = 7) by lia.
      destruct Hcases as [ -> | [ -> | -> ] ]; reflexivity.
    + apply bit_beyond. cbn [length]. lia.
Defined.

End Reencoding.

(** ** Core/StringConstant.hpp *)

Section StringConstants.

Import string_constant.

Lemma firstn_succ (l : list Z) : forall n x,
  nth_error l n = Some x -> firstn (S n) l = firstn n l ++ [x].
Proof.
  induction l as [|a l IH]; intros [|n] x H; cbn in H; try discriminate.
  - injection H as ->. reflexivity.
  - cbn [firstn app]. f_equal. apply IH. exact H.
Qed.

Lemma detail_string_compare_prefix : forall I v1 v2,
  (I < length v1)%nat -> (I < length v2)%nat ->
  detail_string_compare I v1 v2
  = Some (if list_eq_dec Z.eq_dec (firstn (S I) v1) (firstn (S I) v2) then true else false).
Proof.
  induction I as [|I IH]; intros v1 v2 H1 H2.
  - destruct v1 as [|a v1], v2 as [|b v2]; cbn [length] in *; try lia.
    cbn [detail_string_compare char_at nth_error obind firstn].
    destruct (Z.eqb_spec a b) as [->|Hne].
    + destruct (list_eq_dec Z.eq_dec [b] [b]); [reflexivity|congruence].
    + destruct (list_eq_dec Z.eq_dec [a] [b]); [congruence|reflexivity].
  - cbn [detail_string_compare]. unfold char_at.
    destruct (nth_error v1 (S I)) as [c1|] eqn:E1;
      [|apply nth_error_None in E1; lia].
    destruct (nth_error v2 (S I)) as [c2|] eqn:E2;
      [|apply nth_error_None in E2; lia].
    cbn [obind]. rewrite IH by lia. cbn [obind].
    rewrite (firstn_succ v1 (S I) c1 E1), (firstn_succ v2 (S I) c2 E2).
    assert (Hl1 : length (firstn (S I) v1) = S I) by (rewrite length_firstn; lia).
    assert (Hl2 : length (firstn (S I) v2) = S I) by (rewrite length_firstn; lia).
    destruct (Z.eqb_spec c1 c2) as [->|Hne].
    + destruct (list_eq_dec Z.eq_dec (firstn (S I) v1) (firstn (S I) v2)) as [He|Hd].
      * rewrite He.
        destruct (list_eq_dec Z.eq_dec (firstn (S I) v2 ++ [c2]) (firstn (S I) v2 ++ [c2]));
          [reflexivity|congruence].
      * destruct (list_eq_dec Z.eq_dec (firstn (S I) v1 ++ [c2]) (firstn (S I) v2 ++ [c2]))
          as [He|]; [|reflexivity].
        apply app_inv_tail in He. contradiction.
    + destruct (list_eq_dec Z.eq_dec (firstn (S I) v1 ++ [c1]) (firstn (S I) v2 ++ [c2]))
        as [He|]; [|reflexivity].
      apply app_inj_tail in He. destruct He as [_ He]. contradiction.
Qed.

Lemma detail_string_compare_short : forall I v1 v2,
  (length v2 <= I)%nat -> detail_string_compare I v1 v2 = None.
Proof.
  intros I v1 v2 H2.
  assert (E2 : nth_error v2 I = None) by (apply nth_error_None; exact H2).
  destruct I as [|I]; cbn [detail_string_compare]; unfold char_at; rewrite E2;
    destruct (nth_error v1 _); reflexivity.
Qed.

(** X28. [string_compare<String1T, String2T>] is defined only when the
    first string is not the longer one: the comparison down from the last
    index of the first string is instantiated whatever the sizes are, and it
    indexes the second string outside its view when that one is shorter, which
    is not a constant expression.  When it is defined, its value tells whether
    the two strings consist of the same characters. *)
Theorem string_compare_decides (String1T String2T : list Z) :
  string_compare String1T String2T
  = if (length String2T <? length String1T)%nat then None
    else Some (if list_eq_dec Z.eq_dec String1T String2T then true else false).
Proof.
  unfold string_compare, value, kData. cbv zeta.
  rewrite !length_app. cbn [length].
  replace (length String1T + 1 - 1)%nat with (length String1T) by lia.
  destruct (Nat.ltb_spec (length String2T) (length String1T)) as [Hlt|Hge].
  - rewrite detail_string_compare_short; [reflexivity|].
    rewrite length_app. cbn [length]. lia.
  - rewrite detail_string_compare_prefix by (rewrite length_app; cbn [length]; lia).
    cbn [obind]. f_equal.
    destruct (Nat.eqb_spec (length String1T + 1) (length String2T + 1)) as [Hl|Hl].
    + assert (Hl' : length String1T = length String2T) by lia.
      replace (S (length String1T)) with (length (String1T ++ [0]))
        by (rewrite length_app; cbn [length]; lia).
      rewrite firstn_all.
      replace (length (String1T ++ [0])) with (length (String2T ++ [0]))
        by (rewrite !length_app; cbn [length]; lia).
      rewrite firstn_all.
      destruct (list_eq_dec Z.eq_dec (String1T ++ [0]) (String2T ++ [0])) as [He|Hd],
               (list_eq_dec Z.eq_dec String1T String2T) as [He'|Hd']; try reflexivity.
      * apply app_inv_tail in He. contradiction.
      * subst. contradiction.
    + destruct (list_eq_dec Z.eq_dec String1T String2T) as [He|]; [|reflexivity].
      subst. lia.
Qed.

Lemma filter_out_null_character_filter StringT :
  filter_out_null_character StringT = filter (fun c => negb (c =? 0)) StringT.
Proof.
  induction StringT as [|Head Tail IH]; cbn [filter_out_null_character filter];
    [reflexivity|].
  cbv zeta. rewrite IH. destruct (Head =? 0); reflexivity.
Qed.

Lemma filter_twice (A : Type) (keep : A -> bool) (l : list A) :
  filter keep (filter keep l) = filter keep l.
Proof.
  induction l as [|a l IH]; cbn [filter]; [reflexivity|].
  destruct (keep a) eqn:E; cbn [filter]; rewrite ?E, IH; reflexivity.
Qed.

Lemma concatenate_some RestT :
  RestT <> [] ->
  exists rest,
    concatenate_string_constants RestT = Some rest /\
    filter (fun c => negb (c =? 0)) rest = filter (fun c => negb (c =? 0)) (concat RestT).
Proof.
  induction RestT as [|s RestT IH]; intros Hne; [contradiction|].
  destruct RestT as [|t RestT].
  - exists s. cbn [concatenate_string_constants concat]. rewrite app_nil_r. auto.
  - destruct IH as (rest & Hrest & Hfilter); [discriminate|].
    exists (filter_out_null_character (concatenate_raw_string_constants s rest)).
    split.
    + change (concatenate_string_constants (s :: t :: RestT))
        with (do rest <- concatenate_string_constants (t :: RestT);
              Some (filter_out_null_character (concatenate_raw_string_constants s rest))).
      rewrite Hrest. reflexivity.
    + rewrite filter_out_null_character_filter, filter_twice.
      unfold concatenate_raw_string_constants.
      change (concat (s :: t :: RestT)) with (s ++ concat (t :: RestT)).
      rewrite !filter_app, Hfilter. reflexivity.
Qed.

(** X29. [concatenate_string_constants] of two or more strings is the
    strings written one after the other with every null character removed,
    so the result holds none; a single string is returned as it is, null
    characters included; an empty pack has no result. *)
Theorem concatenate_removes_nulls (StringConstants : list (list Z)) :
  (2 <= length StringConstants)%nat ->
  let joined := filter (fun c => negb (c =? 0)) (concat StringConstants) in
  concatenate_string_constants StringConstants = Some joined /\
  ~ In 0 joined /\
  (forall StringT, concatenate_string_constants [StringT] = Some StringT) /\
  concatenate_string_constants [] = None.
Proof.
  intros Hlen joined.
  split; [|split; [|split; reflexivity]].
  - destruct StringConstants as [|s [|t RestT]]; cbn [length] in Hlen; try lia.
    destruct (concatenate_some (t :: RestT)) as (rest & Hrest & Hfilter); [discriminate|].
    change (concatenate_string_constants (s :: t :: RestT))
      with (do rest <- concatenate_string_constants (t :: RestT);
            Some (filter_out_null_character (concatenate_raw_string_constants s rest))).
    rewrite Hrest. cbn [obind]. f_equal.
    rewrite filter_out_null_character_filter.
    unfold concatenate_raw_string_constants, joined.
    change (concat (s :: t :: RestT)) with (s ++ concat (t :: RestT)).
    rewrite !filter_app, Hfilter. reflexivity.
  - unfold joined. intros Hin. apply filter_In in Hin. destruct Hin as [_ H].
    discriminate H.
Qed.

(** ["ab"], a string holding a null character, and ["c"]. *)
Lemma concatenate_removes_nulls_witness :
  concatenate_string_constants [[97; 98]; [0; 120; 0]; [99]] = Some [97; 98; 120; 99].
Proof.
  apply (concatenate_removes_nulls [[97; 98]; [0; 120; 0]; [99]]).
  cbn [length]. lia.
Defined.

End StringConstants.

(** ** Time/Timer.hpp : when a timer expires next *)

Section Timers.

Import ITree.ITree ITree.ITreeFacts ITree.Events.State ITree.Events.StateFacts.
Import timer.





End Timers.

Section TimerExamples.

Import ITree.ITree ITree.ITreeFacts ITree.Events.State ITree.Events.StateFacts.
Import timer.


End TimerExamples.
